(** * Deno edge-function converter: transform rules and extractors

    A shallow embedding of
      - [transforms/deno-to-handler.cjs]   (the jscodeshift rewrite pipeline),
      - [src/convert.ts]                   ([applyTransform]),
      - [src/utils/dependencies.ts]        ([extractDependencies], [mapPackage]),
      - [src/utils/env.ts]                 ([extractEnvVariables], [generateEnvExample]).

    JavaScript strings are modelled by [string]; one [ascii] stands for one
    code unit in the range 0..255.  Regular-expression literals are embedded
    as values of [regex] and run by a backtracking matcher with the greedy,
    leftmost semantics of the JavaScript engine.  Where a comment quotes a
    regular expression, a blank separates a star from a closing parenthesis
    and [q] stands for the class of the two quote characters. *)

From Stdlib Require Import String Ascii List Bool Arith Lia.
From stdpp Require Import base gmap sets strings sorting.
Import ListNotations.
Open Scope string_scope.

(* ===================================================================== *)
(** ** JavaScript string primitives *)
(* ===================================================================== *)

Module Js.

(** [s.startsWith(p)] *)
Fixpoint startsWith (s p : string) {struct p} : bool :=
  match p with
  | EmptyString => true
  | String a p' =>
      match s with
      | String b s' => Ascii.eqb a b && startsWith s' p'
      | EmptyString => false
      end
  end.

(** [s.includes(sub)] *)
Fixpoint includes (s sub : string) : bool :=
  if startsWith s sub then true
  else match s with
       | EmptyString => false
       | String _ s' => includes s' sub
       end.

(** [s.endsWith(suf)] *)
Fixpoint endsWith (s suf : string) : bool :=
  if String.eqb s suf then true
  else match s with
       | EmptyString => false
       | String _ s' => endsWith s' suf
       end.

(** White space and line terminators in the 8-bit range: TAB, LF, VT, FF, CR,
    SPACE and NBSP; this is both the class [\s] and what [trim] strips. *)
Definition isSpace (c : ascii) : bool :=
  let n := nat_of_ascii c in
  (((9 <=? n) && (n <=? 13)) || (n =? 32) || (n =? 160))%nat.

(** The characters the regular-expression dot refuses. *)
Definition isLineTerminator (c : ascii) : bool :=
  let n := nat_of_ascii c in ((n =? 10) || (n =? 13))%nat.

Fixpoint trimStart (s : string) : string :=
  match s with
  | String c s' => if isSpace c then trimStart s' else s
  | EmptyString => EmptyString
  end.

Fixpoint trimEnd (s : string) : string :=
  match s with
  | String c s' =>
      match trimEnd s' with
      | EmptyString => if isSpace c then EmptyString else String c EmptyString
      | t => String c t
      end
  | EmptyString => EmptyString
  end.

(** [s.trim()] *)
Definition trim (s : string) : string := trimEnd (trimStart s).

(** JavaScript truthiness of a string value. *)
Definition truthy (s : string) : bool := negb (String.eqb s "").

(** Every character of [s] satisfies [p]. *)
Fixpoint allChars (p : ascii -> bool) (s : string) : bool :=
  match s with
  | EmptyString => true
  | String c s' => p c && allChars p s'
  end.

(** [s] is empty or starts with a character refused by [p]. *)
Definition stopsAt (p : ascii -> bool) (s : string) : bool :=
  match s with
  | EmptyString => true
  | String c _ => negb (p c)
  end.

End Js.

(* ===================================================================== *)
(** ** Regular expressions *)
(* ===================================================================== *)

Module Re.

(** The fragment of the regular-expression language the sources use:
    literal text, one character of a class, greedy [*] and [+] over a class,
    sequencing, a greedy optional group [(?:r)?], a numbered capture group
    and the end anchor [$].  The start anchor [^] is expressed by matching
    at the first position only ([matchHere]). *)
Inductive regex : Type :=
| Lit (s : string)
| Class (p : ascii -> bool)
| Star (p : ascii -> bool)
| Plus (p : ascii -> bool)
| Seq (r1 r2 : regex)
| Opt (r : regex)
| Group (n : nat) (r : regex)
| Eos.

Definition cat (rs : list regex) : regex := fold_right Seq (Lit "") rs.

(** Capture groups that took part in the match; an absent index is
    [undefined]. *)
Definition captures := list (nat * string).

Fixpoint cap (n : nat) (cs : captures) : option string :=
  match cs with
  | [] => None
  | (m, s) :: cs' => if Nat.eqb n m then Some s else cap n cs'
  end.

(** Strip a literal prefix. *)
Fixpoint strip (l s : string) : option string :=
  match l with
  | EmptyString => Some s
  | String a l' =>
      match s with
      | String b s' => if Ascii.eqb a b then strip l' s' else None
      | EmptyString => None
      end
  end.

(** The first [n] characters of [s]. *)
Fixpoint take (n : nat) (s : string) : string :=
  match n, s with
  | S n', String c s' => String c (take n' s')
  | _, _ => EmptyString
  end.

(** The text between the position [s] and the later position [rest]. *)
Definition consumed (s rest : string) : string :=
  take (String.length s - String.length rest) s.

Section Matcher.
Context {R : Type}.

(** Greedy repetition of a class: the longest run first, then shorter
    ones while the continuation fails. *)
Fixpoint mstar (p : ascii -> bool) (s : string)
    (k : string -> option R) : option R :=
  match s with
  | String c s' =>
      if p c then
        match mstar p s' k with
        | Some r => Some r
        | None => k s
        end
      else k s
  | EmptyString => k EmptyString
  end.

(** Backtracking matcher in continuation-passing style. *)
Fixpoint mre (r : regex) (s : string) (cs : captures)
    (k : string -> captures -> option R) : option R :=
  match r with
  | Lit l => match strip l s with
             | Some rest => k rest cs
             | None => None
             end
  | Class p => match s with
               | String c s' => if p c then k s' cs else None
               | EmptyString => None
               end
  | Star p => mstar p s (fun rest => k rest cs)
  | Plus p => match s with
              | String c s' =>
                  if p c then mstar p s' (fun rest => k rest cs) else None
              | EmptyString => None
              end
  | Seq r1 r2 => mre r1 s cs (fun rest cs' => mre r2 rest cs' k)
  | Opt r' => match mre r' s cs k with
              | Some x => Some x
              | None => k s cs
              end
  | Group n r' =>
      mre r' s cs (fun rest cs' => k rest ((n, consumed s rest) :: cs'))
  | Eos => match s with
           | EmptyString => k EmptyString cs
           | String _ _ => None
           end
  end.
End Matcher.

(** A match that starts at the first character of [s]: the captures and
    the text after the match. *)
Definition matchHere (r : regex) (s : string) : option (captures * string) :=
  mre r s [] (fun rest cs => Some (cs, rest)).

(** [s.match(r)] for a regular expression without the [g] flag: the
    captures of the leftmost match. *)
Fixpoint matchFirst (r : regex) (s : string) : option captures :=
  match matchHere r s with
  | Some (cs, _) => Some cs
  | None => match s with
            | EmptyString => None
            | String _ s' => matchFirst r s'
            end
  end.

(** [s.replace(r, repl)] without the [g] flag: the leftmost match is
    replaced, the text around it kept. *)
Fixpoint replaceFirst (r : regex) (repl s : string) : string :=
  match matchHere r s with
  | Some (_, rest) => repl +:+ rest
  | None => match s with
            | EmptyString => EmptyString
            | String c s' => String c (replaceFirst r repl s')
            end
  end.

(** [s.replace(/^.../, repl)]: only a match at the first position counts. *)
Definition replaceHere (r : regex) (repl s : string) : string :=
  match matchHere r s with
  | Some (_, rest) => repl +:+ rest
  | None => s
  end.

(** The loop [while ((match = re.exec(source)) !== null)] over a regular
    expression with the [g] flag: the captures of the successive
    non-overlapping leftmost matches.  [skip] counts the characters still
    covered by the previous match ([lastIndex] lies that far ahead).  Every
    pattern scanned this way begins with a literal, so no match is empty. *)
Fixpoint scanAll (r : regex) (skip : nat) (s : string) : list captures :=
  match skip, s with
  | S n, String _ s' => scanAll r n s'
  | S _, EmptyString => []
  | O, _ =>
      match matchHere r s with
      | Some (cs, rest) =>
          cs :: match s with
                | EmptyString => []
                | String _ s' =>
                    scanAll r (String.length s - String.length rest - 1) s'
                end
      | None =>
          match s with
          | EmptyString => []
          | String _ s' => scanAll r 0 s'
          end
      end
  end.

(** Character classes. *)
Definition isChar (a : ascii) (c : ascii) : bool := Ascii.eqb a c.
Definition noneOf (l : list ascii) (c : ascii) : bool :=
  negb (existsb (Ascii.eqb c) l).
Definition oneOf (l : list ascii) (c : ascii) : bool :=
  existsb (Ascii.eqb c) l.
Definition dot (c : ascii) : bool := negb (Js.isLineTerminator c).
Definition digit (c : ascii) : bool :=
  let n := nat_of_ascii c in ((48 <=? n) && (n <=? 57))%nat.
Definition upper (c : ascii) : bool :=
  let n := nat_of_ascii c in ((65 <=? n) && (n <=? 90))%nat.

End Re.

(* ===================================================================== *)
(** ** Module specifier rewriting ([deno-to-handler.cjs], rule 1) *)
(* ===================================================================== *)

Module Specifier.
Import Re.

(** [/^npm:/] and [/^jsr:/], used with [replaceHere]. *)
Definition reNpmPrefix : regex := Lit "npm:".
Definition reJsrPrefix : regex := Lit "jsr:".

(** [/^(@[^/]+\/[^@]+)(?:@.* )?$/], used with [matchHere]. *)
Definition reScoped : regex :=
  cat [ Group 1 (cat [Lit "@"; Plus (noneOf ["/"%char]); Lit "/";
                      Plus (noneOf ["@"%char])]);
        Opt (cat [Lit "@"; Star dot]);
        Eos ].

(** The class [[\d.^~>=<]]. *)
Definition versionStart (c : ascii) : bool :=
  digit c || oneOf ["."; "^"; "~"; ">"; "="; "<"]%char c.

(** [/@[\d.^~>=<].*$/] *)
Definition reVersion : regex :=
  cat [Lit "@"; Class versionStart; Star dot; Eos].

(** [/deno\.land\/x\/([^@/]+)(?:@[^/]+)?(?:\/(.* ))?$/] *)
Definition reDenoLand : regex :=
  cat [ Lit "deno.land/x/";
        Group 1 (Plus (noneOf ["@"; "/"]%char));
        Opt (cat [Lit "@"; Plus (noneOf ["/"%char])]);
        Opt (cat [Lit "/"; Group 2 (Star dot)]);
        Eos ].

(** [/\/([^/@]+)(?:@[^/]+)?(?:\/(.* ))?$/] *)
Definition reDenoFallback : regex :=
  cat [ Lit "/";
        Group 1 (Plus (noneOf ["/"; "@"]%char));
        Opt (cat [Lit "@"; Plus (noneOf ["/"%char])]);
        Opt (cat [Lit "/"; Group 2 (Star dot)]);
        Eos ].

(** [/\.ts$/], [/^mod$/] (with [matchHere]) and [/\/mod$/]. *)
Definition reTsExt : regex := cat [Lit ".ts"; Eos].
Definition reMod : regex := cat [Lit "mod"; Eos].
Definition reSlashMod : regex := cat [Lit "/mod"; Eos].

(** [/esm\.sh\/(@[^/]+\/[^@?]+)(?:@[^/?]* )?/] *)
Definition reEsmScoped : regex :=
  cat [ Lit "esm.sh/";
        Group 1 (cat [Lit "@"; Plus (noneOf ["/"%char]); Lit "/";
                      Plus (noneOf ["@"; "?"]%char)]);
        Opt (cat [Lit "@"; Star (noneOf ["/"; "?"]%char)]) ].

(** [/esm\.sh\/([^@?/]+)(?:@[^/?]* )?/] *)
Definition reEsm : regex :=
  cat [ Lit "esm.sh/";
        Group 1 (Plus (noneOf ["@"; "?"; "/"]%char));
        Opt (cat [Lit "@"; Star (noneOf ["/"; "?"]%char)]) ].

(** A value found in a mapping table: a package name or [null]. *)
Inductive target := Null | Package (name : string).

(** The table of the primary [deno.land/x] branch; [None] is [undefined]
    (properties inherited from [Object.prototype] are not modelled). *)
Definition mapping (pkgName : string) : option target :=
  if String.eqb pkgName "std" then Some Null
  else if String.eqb pkgName "oak" then Some (Package "koa")
  else if String.eqb pkgName "cors" then Some (Package "cors")
  else if String.eqb pkgName "dotenv" then Some (Package "dotenv")
  else if String.eqb pkgName "postgres" then Some (Package "pg")
  else if String.eqb pkgName "mysql" then Some (Package "mysql2")
  else if String.eqb pkgName "redis" then Some (Package "redis")
  else if String.eqb pkgName "bcrypt" then Some (Package "bcrypt")
  else None.

(** The table of the fallback branch (it has no [bcrypt] entry). *)
Definition mappingFallback (pkgName : string) : option target :=
  if String.eqb pkgName "std" then Some Null
  else if String.eqb pkgName "oak" then Some (Package "koa")
  else if String.eqb pkgName "cors" then Some (Package "cors")
  else if String.eqb pkgName "dotenv" then Some (Package "dotenv")
  else if String.eqb pkgName "postgres" then Some (Package "pg")
  else if String.eqb pkgName "mysql" then Some (Package "mysql2")
  else if String.eqb pkgName "redis" then Some (Package "redis")
  else None.

(** The scoped / unscoped version stripping shared by the [npm:] branch,
    the [jsr:] branch and the dynamic-import rule; the source repeats it
    verbatim in each place. *)
Definition stripNpm (cleaned : string) : string :=
  if Js.startsWith cleaned "@" then
    match matchHere reScoped cleaned with
    | Some (cs, _) => match cap 1 cs with Some m1 => m1 | None => cleaned end
    | None => cleaned
    end
  else replaceFirst reVersion "" cleaned.

Definition stripJsr (cleaned : string) : string :=
  if Js.startsWith cleaned "@" then
    match matchHere reScoped cleaned with
    | Some (cs, _) => match cap 1 cs with Some m1 => m1 | None => cleaned end
    | None => cleaned
    end
  else replaceFirst reVersion "" cleaned.

(** Apply a table entry: [undefined] passes the package name through,
    [null] leaves the specifier as it is, a name replaces it. *)
Definition applyMapping (entry : option target) (pkgName subPath source : string)
  : string :=
  match entry with
  | Some (Package name) => name +:+ subPath
  | Some Null => source
  | None => pkgName +:+ subPath
  end.

(** The sub-path of the primary branch: [.ts] dropped, then a [mod] that
    is the whole path or its last segment. *)
Definition cleanSubPath (sub : string) : string :=
  let cleaned :=
    replaceFirst reSlashMod ""
      (replaceHere reMod "" (replaceFirst reTsExt "" sub)) in
  if Js.truthy cleaned then "/" +:+ cleaned else "".

Definition denoLandSource (source : string) : string :=
  match matchFirst reDenoLand source with
  | Some cs =>
      let pkgName := default "" (cap 1 cs) in
      let subPath :=
        match cap 2 cs with
        | Some m2 => if Js.truthy m2 then cleanSubPath m2 else ""
        | None => ""
        end in
      applyMapping (mapping pkgName) pkgName subPath source
  | None =>
      match matchFirst reDenoFallback source with
      | Some cs =>
          let pkgName := default "" (cap 1 cs) in
          let subPath :=
            match cap 2 cs with
            | Some m2 =>
                if Js.truthy m2 then "/" +:+ replaceFirst reTsExt "" m2 else ""
            | None => ""
            end in
          applyMapping (mappingFallback pkgName) pkgName subPath source
      | None => source
      end
  end.

Definition esmSource (source : string) : string :=
  match matchFirst reEsmScoped source with
  | Some cs => default source (cap 1 cs)
  | None =>
      match matchFirst reEsm source with
      | Some cs => default source (cap 1 cs)
      | None => source
      end
  end.

(** The new value of [path.node.source.value] in the first
    [ImportDeclaration] pass. *)
Definition rewriteImportSource (source : string) : string :=
  if Js.startsWith source "npm:" then
    stripNpm (replaceHere reNpmPrefix "" source)
  else if Js.startsWith source "jsr:" then
    stripJsr (replaceHere reJsrPrefix "" source)
  else if Js.includes source "deno.land" then denoLandSource source
  else if Js.includes source "esm.sh" then esmSource source
  else source.

(** The dynamic-import rule (rule 8) on the value of a string literal;
    [None] when the literal is left alone. *)
Definition rewriteDynamicImport (val : string) : option string :=
  if Js.startsWith val "npm:" then
    Some (stripNpm (replaceHere reNpmPrefix "" val))
  else None.

(** The relative-import rule (rule 7). *)
Definition rewriteRelativeSource (source : string) : string :=
  if Js.startsWith source "." && Js.endsWith source ".ts"
  then replaceFirst (cat [Lit ".ts"; Eos]) ".js" source
  else source.

End Specifier.


(* ===================================================================== *)
(** ** Dependency extraction ([src/utils/dependencies.ts]) *)
(* ===================================================================== *)

Module Deps.
Import Re.

(** The two quote characters, ['] and the double quote. *)
Definition quote (c : ascii) : bool :=
  Ascii.eqb c "'" || Ascii.eqb c "034".

(** [packageMappings], in source order. *)
Definition packageMappings : list (string * string) :=
  [ ("@supabase/supabase-js", "@supabase/supabase-js");
    ("oak", "koa"); ("hono", "hono");
    ("lodash", "lodash"); ("date-fns", "date-fns"); ("uuid", "uuid");
    ("nanoid", "nanoid");
    ("zod", "zod"); ("yup", "yup"); ("joi", "joi");
    ("axios", "axios"); ("node-fetch", "node-fetch");
    ("postgres", "pg"); ("mysql", "mysql2"); ("redis", "redis");
    ("mongodb", "mongodb");
    ("openai", "openai"); ("@anthropic-ai/sdk", "@anthropic-ai/sdk");
    ("langchain", "langchain");
    ("nodemailer", "nodemailer"); ("resend", "resend");
    ("@sendgrid/mail", "@sendgrid/mail");
    ("stripe", "stripe");
    ("jsonwebtoken", "jsonwebtoken"); ("jose", "jose"); ("bcrypt", "bcrypt");
    ("crypto-js", "crypto-js");
    ("pdfkit", "pdfkit"); ("pdf-lib", "pdf-lib");
    ("sharp", "sharp"); ("jimp", "jimp");
    ("@aws-sdk/client-s3", "@aws-sdk/client-s3");
    ("@aws-sdk/client-ses", "@aws-sdk/client-ses");
    ("googleapis", "googleapis");
    ("@google-cloud/storage", "@google-cloud/storage") ].

Fixpoint lookup (key : string) (table : list (string * string)) : option string :=
  match table with
  | [] => None
  | (k, v) :: rest => if String.eqb key k then Some v else lookup key rest
  end.

(** [mapPackage] *)
Definition mapPackage (pkg : string) : string :=
  match lookup pkg packageMappings with
  | Some mapped => mapped
  | None =>
      if Js.startsWith pkg "@" then pkg
      else if Js.includes pkg "std/" then ""
      else pkg
  end.

(** [/from\s+[q]npm:([^q@]+)(?:@[^q]+)?[q]/g] and its [jsr:] twin. *)
Definition registryPattern (prefix : string) : regex :=
  cat [ Lit "from"; Plus Js.isSpace; Class quote; Lit prefix;
        Group 1 (Plus (fun c => negb (quote c || Ascii.eqb c "@")));
        Opt (cat [Lit "@"; Plus (fun c => negb (quote c))]);
        Class quote ].
Definition npmPattern : regex := registryPattern "npm:".
Definition jsrPattern : regex := registryPattern "jsr:".

(** [/from\s+[q]npm:(@[^/]+\/[^q@]+)(?:@[^q]+)?[q]/g] *)
Definition npmScopedPattern : regex :=
  cat [ Lit "from"; Plus Js.isSpace; Class quote; Lit "npm:";
        Group 1 (cat [ Lit "@"; Plus (noneOf ["/"%char]); Lit "/";
                       Plus (fun c => negb (quote c || Ascii.eqb c "@")) ]);
        Opt (cat [Lit "@"; Plus (fun c => negb (quote c))]);
        Class quote ].

(** [/from\s+[q]https:\/\/esm\.sh\/([^@q?]+)(?:@[^q?]+)?[^q]*[q]/g] *)
Definition esmPattern : regex :=
  cat [ Lit "from"; Plus Js.isSpace; Class quote; Lit "https://esm.sh/";
        Group 1 (Plus (fun c => negb (quote c || oneOf ["@"; "?"]%char c)));
        Opt (cat [Lit "@"; Plus (fun c => negb (quote c || Ascii.eqb c "?"))]);
        Star (fun c => negb (quote c));
        Class quote ].

(** [/from\s+[q](?:https:\/\/)?deno\.land\/x\/([^@/q]+)/g] *)
Definition denoPattern : regex :=
  cat [ Lit "from"; Plus Js.isSpace; Class quote; Opt (Lit "https://");
        Lit "deno.land/x/";
        Group 1 (Plus (fun c => negb (quote c || oneOf ["@"; "/"]%char c))) ].

(** [match[1].trim()] of one match. *)
Definition matchedPackage (cs : captures) : string :=
  Js.trim (default "" (cap 1 cs)).

(** A scan loop whose body is [dependencies.add(mapPackage(pkg))]. *)
Definition addAll (pattern : regex) (source : string) (dependencies : gset string)
  : gset string :=
  fold_left (fun deps cs => deps ∪ {[ mapPackage (matchedPackage cs) ]})
            (scanAll pattern 0 source) dependencies.

(** The [deno.land] scan loop, which adds the mapped name only when it is
    truthy. *)
Definition addAllMapped (pattern : regex) (source : string)
    (dependencies : gset string) : gset string :=
  fold_left (fun deps cs =>
               let mapped := mapPackage (matchedPackage cs) in
               if Js.truthy mapped then deps ∪ {[ mapped ]} else deps)
            (scanAll pattern 0 source) dependencies.

Definition addIf (b : bool) (name : string) (deps : gset string) : gset string :=
  if b then deps ∪ {[ name ]} else deps.

(** [extractDependencies] *)
Definition extractDependencies (source : string) : gset string :=
  let d0 : gset string := ∅ in
  let d1 := addAll npmPattern source d0 in
  let d2 := addAll npmScopedPattern source d1 in
  let d3 := addAll jsrPattern source d2 in
  let d4 := addAll esmPattern source d3 in
  let d5 := addAllMapped denoPattern source d4 in
  let d6 := addIf (Js.includes source "createClient" && Js.includes source "supabase")
                  "@supabase/supabase-js" d5 in
  let d7 := addIf (Js.includes source "OpenAI" || Js.includes source "openai")
                  "openai" d6 in
  let d8 := addIf (Js.includes source "Stripe" || Js.includes source "stripe")
                  "stripe" d7 in
  let d9 := addIf (Js.includes source "Resend" || Js.includes source "resend")
                  "resend" d8 in
  addIf (Js.includes source "bcrypt" || Js.includes source "hash("
         || Js.includes source "compare(")
        "bcrypt" d9.

End Deps.

(* ===================================================================== *)
(** ** Environment variables ([src/utils/env.ts]) *)
(* ===================================================================== *)

Module Env.
Import Re.

Definition backtick (c : ascii) : bool := Ascii.eqb c "`".

(** [[A-Z_]] and [[A-Z0-9_]] *)
Definition nameStart (c : ascii) : bool := upper c || Ascii.eqb c "_".
Definition nameChar (c : ascii) : bool := upper c || digit c || Ascii.eqb c "_".

(** [/Deno\.env\.get\s*\(\s*[q]([^q]+)[q]\s*\)/g] *)
Definition denoEnvPattern : regex :=
  cat [ Lit "Deno.env.get"; Star Js.isSpace; Lit "("; Star Js.isSpace;
        Class Deps.quote; Group 1 (Plus (fun c => negb (Deps.quote c)));
        Class Deps.quote; Star Js.isSpace; Lit ")" ].

(** The same call with a template literal between backticks. *)
Definition denoEnvPattern2 : regex :=
  cat [ Lit "Deno.env.get"; Star Js.isSpace; Lit "("; Star Js.isSpace;
        Class backtick; Group 1 (Plus (fun c => negb (backtick c)));
        Class backtick; Star Js.isSpace; Lit ")" ].

(** [/process\.env\.([A-Z_][A-Z0-9_]* )/g] *)
Definition processEnvPattern : regex :=
  cat [ Lit "process.env."; Group 1 (cat [Class nameStart; Star nameChar]) ].

(** [/process\.env\[[q]([^q]+)[q]\]/g] *)
Definition processEnvBracketPattern : regex :=
  cat [ Lit "process.env["; Class Deps.quote;
        Group 1 (Plus (fun c => negb (Deps.quote c)));
        Class Deps.quote; Lit "]" ].

(** [/import\.meta\.env\.([A-Z_][A-Z0-9_]* )/g] *)
Definition viteEnvPattern : regex :=
  cat [ Lit "import.meta.env."; Group 1 (cat [Class nameStart; Star nameChar]) ].

Definition commonEnvVars : list string :=
  [ "SUPABASE_URL"; "SUPABASE_ANON_KEY"; "SUPABASE_SERVICE_ROLE_KEY";
    "SUPABASE_JWT_SECRET"; "DATABASE_URL"; "OPENAI_API_KEY";
    "STRIPE_SECRET_KEY"; "STRIPE_WEBHOOK_SECRET"; "RESEND_API_KEY";
    "SENDGRID_API_KEY"; "JWT_SECRET"; "API_KEY"; "SECRET_KEY" ].

(** A scan loop whose body is [envVars.add(match[1])]. *)
Definition addMatches (pattern : regex) (source : string) (envVars : gset string)
  : gset string :=
  fold_left (fun vars cs => vars ∪ {[ default "" (cap 1 cs) ]})
            (scanAll pattern 0 source) envVars.

(** The template-literal loop, which skips a match that holds a [$]. *)
Definition addTemplateMatches (pattern : regex) (source : string)
    (envVars : gset string) : gset string :=
  fold_left (fun vars cs =>
               let m1 := default "" (cap 1 cs) in
               if negb (Js.includes m1 "$") then vars ∪ {[ m1 ]} else vars)
            (scanAll pattern 0 source) envVars.

(** The final loop over [commonEnvVars]. *)
Definition addCommon (source : string) (envVars : gset string) : gset string :=
  fold_left (fun vars envVar =>
               if Js.includes source envVar then vars ∪ {[ envVar ]} else vars)
            commonEnvVars envVars.

(** [extractEnvVariables] *)
Definition extractEnvVariables (source : string) : gset string :=
  let e0 : gset string := ∅ in
  let e1 := addMatches denoEnvPattern source e0 in
  let e2 := addTemplateMatches denoEnvPattern2 source e1 in
  let e3 := addMatches processEnvPattern source e2 in
  let e4 := addMatches processEnvBracketPattern source e3 in
  let e5 := addMatches viteEnvPattern source e4 in
  addCommon source e5.

(** *** [generateEnvExample]

    The function pushes onto a local array [lines] and deletes from the
    set it was given; the state below is that pair, and the function
    returns the text together with the final content of the caller's
    set. *)
Record state := State { lines : list string; envVars : gset string }.

Definition push (line : string) (st : state) : state :=
  State (lines st ++ [line]) (envVars st).

Definition supabaseVars : list string :=
  [ "SUPABASE_URL"; "SUPABASE_ANON_KEY"; "SUPABASE_SERVICE_ROLE_KEY";
    "SUPABASE_JWT_SECRET"; "DATABASE_URL" ].
Definition openaiVars : list string := [ "OPENAI_API_KEY"; "OPENAI_ORG_ID" ].
Definition stripeVars : list string :=
  [ "STRIPE_SECRET_KEY"; "STRIPE_WEBHOOK_SECRET"; "STRIPE_PUBLISHABLE_KEY" ].
Definition emailVars : list string :=
  [ "RESEND_API_KEY"; "SENDGRID_API_KEY"; "SMTP_HOST"; "SMTP_PORT";
    "SMTP_USER"; "SMTP_PASS" ].

(** The names the four groups list. *)
Definition groupedVars : list string :=
  (supabaseVars ++ openaiVars ++ stripeVars ++ emailVars)%list.

(** [vars.some((v) => envVars.has(v))] *)
Definition someHas (vars : list string) (envVars : gset string) : bool :=
  existsb (fun v => bool_decide (v ∈ envVars)) vars.

(** The body of one [for (const v of vars)] loop. *)
Definition emitVar (st : state) (v : string) : state :=
  if bool_decide (v ∈ envVars st)
  then State (lines st ++ [v +:+ "="]) (envVars st ∖ {[ v ]})
  else st.

Definition emitGroup (present : bool) (title : string) (vars : list string)
    (st : state) : state :=
  if present
  then push "" (fold_left emitVar vars (push title st))
  else st.

(** [Array.from(envVars).sort()]: ascending by code units. *)
Definition codeUnitLe (a b : string) : Prop := String.leb a b = true.

#[global] Instance codeUnitLe_dec : RelDecision codeUnitLe :=
  fun a b => bool_eq_dec (String.leb a b) true.

Definition sortedNames (envVars : gset string) : list string :=
  merge_sort codeUnitLe (elements envVars).

Definition emitRemaining (st : state) : state :=
  if Nat.ltb 0 (size (envVars st))
  then push "" (fold_left (fun st' v => push (v +:+ "=") st')
                          (sortedNames (envVars st))
                          (push "# Application" st))
  else st.

(** [lines.join('\n')] *)
Fixpoint join (sep : string) (l : list string) : string :=
  match l with
  | [] => ""
  | [x] => x
  | x :: rest => x +:+ sep +:+ join sep rest
  end.

Definition header : list string :=
  [ "# Server Configuration"; "PORT=3001"; "BASE_URL=http://localhost:3001";
    "BASE_PATH=/functions/v1"; ""; "# Environment"; "NODE_ENV=development"; "" ].

Definition generateEnvExample (envVars0 : gset string) : string * gset string :=
  let st0 := State header envVars0 in
  let hasSupabase := someHas supabaseVars envVars0 in
  let hasOpenai := someHas openaiVars envVars0 in
  let hasStripe := someHas stripeVars envVars0 in
  let hasEmail := someHas emailVars envVars0 in
  let st1 := emitGroup hasSupabase "# Supabase" supabaseVars st0 in
  let st2 := emitGroup hasOpenai "# OpenAI" openaiVars st1 in
  let st3 := emitGroup hasStripe "# Stripe" stripeVars st2 in
  let st4 := emitGroup hasEmail "# Email" emailVars st3 in
  let st5 := emitRemaining st4 in
  (join (String "010" "") (lines st5), envVars st5).

End Env.

(* ===================================================================== *)
(** ** Syntax trees *)
(* ===================================================================== *)

(** The node kinds of the parsed program that the rewrite rules inspect or
    build, with the field names of the ESTree/Babel format.  Every other
    expression or statement is an [OtherExpression] / [OtherStatement] that
    keeps its kind and its children in document order.  Statements are
    held in statement lists (a program, a block); a bare statement as the
    body of an [if] or a loop is outside the embedded fragment. *)
Module Ast.

Scheme All for list.
Scheme All for option.

Inductive tsEntity : Type :=
| TSIdentifier (name : string)
| TSQualifiedName (left : tsEntity) (right : string).

Inductive tsType : Type :=
| TSTypeReference (typeName : tsEntity) (typeParameters : list tsType)
| TSOtherType (kind : string) (parts : list tsType).

(** A binding position: a parameter or the [id] of a declarator. *)
Inductive pattern : Type :=
| PIdentifier (name : string) (typeAnnotation : option tsType)
| POther (kind : string) (typeAnnotation : option tsType).

Inductive importSpecifier : Type :=
| ImportSpecifier (imported local : string)
| ImportDefaultSpecifier (local : string)
| ImportNamespaceSpecifier (local : string).

Inductive expr : Type :=
| Identifier (name : string)
| StringLiteral (value : string)
| MemberExpression (object property : expr) (computed : bool)
| CallExpression (callee : expr) (arguments : list expr)
| ArrowFunctionExpression (params : list pattern) (body : arrowBody) (async : bool)
| FunctionExpression (params : list pattern) (body : block) (async : bool)
| ObjectExpression (properties : list property)
| LogicalExpression (operator : string) (left right : expr)
| AwaitExpression (argument : expr)
| ImportExpression (source : expr)
| OtherExpression (kind : string) (children : list expr)
with property : Type :=
| ObjectProperty (key value : expr)
with arrowBody : Type :=
| ExpressionBody (e : expr)
| BlockBody (b : block)
with block : Type :=
| BlockStatement (body : list stmt)
with stmt : Type :=
| ImportDeclaration (specifiers : list importSpecifier) (source : string)
| ExpressionStatement (expression : expr)
| ExportDefaultDeclaration (declaration : expr)
| FunctionDeclaration (id : string) (params : list pattern) (body : block)
                      (async : bool)
| ReturnStatement (argument : option expr)
| VariableDeclaration (kind : string) (declarations : list declarator)
| Block (b : block)
| OtherStatement (kind : string) (exprs : list expr) (blocks : list block)
with declarator : Type :=
| VariableDeclarator (id : pattern) (init : option expr).

Scheme expr_mind := Induction for expr Sort Prop
  with property_mind := Induction for property Sort Prop
  with arrowBody_mind := Induction for arrowBody Sort Prop
  with block_mind := Induction for block Sort Prop
  with stmt_mind := Induction for stmt Sort Prop
  with declarator_mind := Induction for declarator Sort Prop.

Combined Scheme ast_mutind from expr_mind, property_mind, arrowBody_mind,
  block_mind, stmt_mind, declarator_mind.

(** [Program.body] *)
Definition program := list stmt.

(** The number of [export default] statements at any depth. *)
Fixpoint exportsE (e : expr) : nat :=
  match e with
  | Identifier _ | StringLiteral _ => 0
  | MemberExpression o p _ => exportsE o + exportsE p
  | CallExpression c args => exportsE c + list_sum (map exportsE args)
  | ArrowFunctionExpression _ body _ => exportsA body
  | FunctionExpression _ body _ => exportsB body
  | ObjectExpression props => list_sum (map exportsP props)
  | LogicalExpression _ l r => exportsE l + exportsE r
  | AwaitExpression a => exportsE a
  | ImportExpression s => exportsE s
  | OtherExpression _ cs => list_sum (map exportsE cs)
  end
with exportsP (p : property) : nat :=
  match p with
  | ObjectProperty k v => exportsE k + exportsE v
  end
with exportsA (a : arrowBody) : nat :=
  match a with
  | ExpressionBody e => exportsE e
  | BlockBody b => exportsB b
  end
with exportsB (b : block) : nat :=
  match b with
  | BlockStatement body => list_sum (map exportsS body)
  end
with exportsS (s : stmt) : nat :=
  match s with
  | ImportDeclaration _ _ => 0
  | ExpressionStatement e => exportsE e
  | ExportDefaultDeclaration d => 1 + exportsE d
  | FunctionDeclaration _ _ body _ => exportsB body
  | ReturnStatement (Some e) => exportsE e
  | ReturnStatement None => 0
  | VariableDeclaration _ ds => list_sum (map exportsD ds)
  | Block b => exportsB b
  | OtherStatement _ es bs =>
      list_sum (map exportsE es) + list_sum (map exportsB bs)
  end
with exportsD (d : declarator) : nat :=
  match d with
  | VariableDeclarator _ (Some e) => exportsE e
  | VariableDeclarator _ None => 0
  end.

Definition countDefaultExports (p : program) : nat :=
  list_sum (map exportsS p).

(** The number of [AwaitExpression] nodes at any depth, the node itself
    included. *)
Fixpoint awaitsE (e : expr) : nat :=
  match e with
  | Identifier _ | StringLiteral _ => 0
  | MemberExpression o p _ => awaitsE o + awaitsE p
  | CallExpression c args => awaitsE c + list_sum (map awaitsE args)
  | ArrowFunctionExpression _ body _ => awaitsA body
  | FunctionExpression _ body _ => awaitsB body
  | ObjectExpression props => list_sum (map awaitsP props)
  | LogicalExpression _ l r => awaitsE l + awaitsE r
  | AwaitExpression a => 1 + awaitsE a
  | ImportExpression s => awaitsE s
  | OtherExpression _ cs => list_sum (map awaitsE cs)
  end
with awaitsP (p : property) : nat :=
  match p with
  | ObjectProperty k v => awaitsE k + awaitsE v
  end
with awaitsA (a : arrowBody) : nat :=
  match a with
  | ExpressionBody e => awaitsE e
  | BlockBody b => awaitsB b
  end
with awaitsB (b : block) : nat :=
  match b with
  | BlockStatement body => list_sum (map awaitsS body)
  end
with awaitsS (s : stmt) : nat :=
  match s with
  | ImportDeclaration _ _ => 0
  | ExpressionStatement e => awaitsE e
  | ExportDefaultDeclaration d => awaitsE d
  | FunctionDeclaration _ _ body _ => awaitsB body
  | ReturnStatement (Some e) => awaitsE e
  | ReturnStatement None => 0
  | VariableDeclaration _ ds => list_sum (map awaitsD ds)
  | Block b => awaitsB b
  | OtherStatement _ es bs =>
      list_sum (map awaitsE es) + list_sum (map awaitsB bs)
  end
with awaitsD (d : declarator) : nat :=
  match d with
  | VariableDeclarator _ (Some e) => awaitsE e
  | VariableDeclarator _ None => 0
  end.

(** Every node of the tree passes the test for its sort. *)
Section AllNodes.
Variables (pe : expr -> bool) (ps : stmt -> bool) (pt : tsType -> bool).

Fixpoint allT (t : tsType) : bool :=
  pt t &&
  match t with
  | TSTypeReference _ ps' => forallb allT ps'
  | TSOtherType _ ps' => forallb allT ps'
  end.

Definition allPat (p : pattern) : bool :=
  match p with
  | PIdentifier _ (Some t) | POther _ (Some t) => allT t
  | _ => true
  end.

Fixpoint allE (e : expr) : bool :=
  pe e &&
  match e with
  | Identifier _ | StringLiteral _ => true
  | MemberExpression o p _ => allE o && allE p
  | CallExpression c args => allE c && forallb allE args
  | ArrowFunctionExpression params body _ => forallb allPat params && allA body
  | FunctionExpression params body _ => forallb allPat params && allB body
  | ObjectExpression props => forallb allP props
  | LogicalExpression _ l r => allE l && allE r
  | AwaitExpression a => allE a
  | ImportExpression s => allE s
  | OtherExpression _ cs => forallb allE cs
  end
with allP (p : property) : bool :=
  match p with
  | ObjectProperty k v => allE k && allE v
  end
with allA (a : arrowBody) : bool :=
  match a with
  | ExpressionBody e => allE e
  | BlockBody b => allB b
  end
with allB (b : block) : bool :=
  match b with
  | BlockStatement body => forallb allS body
  end
with allS (s : stmt) : bool :=
  ps s &&
  match s with
  | ImportDeclaration _ _ => true
  | ExpressionStatement e => allE e
  | ExportDefaultDeclaration d => allE d
  | FunctionDeclaration _ params body _ => forallb allPat params && allB body
  | ReturnStatement (Some e) => allE e
  | ReturnStatement None => true
  | VariableDeclaration _ ds => forallb allD ds
  | Block b => allB b
  | OtherStatement _ es bs => forallb allE es && forallb allB bs
  end
with allD (d : declarator) : bool :=
  match d with
  | VariableDeclarator id (Some e) => allPat id && allE e
  | VariableDeclarator id None => allPat id
  end.

Definition allNodes (p : program) : bool := forallb allS p.
End AllNodes.

End Ast.

(* ===================================================================== *)
(** ** The rewrite pipeline ([transforms/deno-to-handler.cjs]) *)
(* ===================================================================== *)

Module Transform.
Import Ast.

(** *** Collections

    [root.find(T).forEach(cb)] collects the paths of all [T] nodes in
    document order and then runs the callback on each.  Where the callback
    replaces its node ([replaceWith]) or removes it ([remove]), the new
    nodes take the place of the old one in its parent; the paths collected
    below the old node stay attached to the old node, so what the
    callback does there does not reach the tree.  [walk] is that
    traversal for a callback given as three hooks: a hook that returns
    [Some] replaces the node and is not followed below it. *)
Section Walk.
Variables (fe : expr -> option expr)
          (fs : stmt -> option (list stmt))
          (ft : tsType -> option tsType).

Fixpoint walkT (t : tsType) : tsType :=
  match ft t with
  | Some t' => t'
  | None =>
      match t with
      | TSTypeReference n ps => TSTypeReference n (map walkT ps)
      | TSOtherType k ps => TSOtherType k (map walkT ps)
      end
  end.

Definition walkPat (p : pattern) : pattern :=
  match p with
  | PIdentifier n a => PIdentifier n (option_map walkT a)
  | POther k a => POther k (option_map walkT a)
  end.

Fixpoint walkE (e : expr) : expr :=
  match fe e with
  | Some e' => e'
  | None =>
      match e with
      | Identifier _ | StringLiteral _ => e
      | MemberExpression o p c => MemberExpression (walkE o) (walkE p) c
      | CallExpression c args => CallExpression (walkE c) (map walkE args)
      | ArrowFunctionExpression params body a =>
          ArrowFunctionExpression (map walkPat params) (walkA body) a
      | FunctionExpression params body a =>
          FunctionExpression (map walkPat params) (walkB body) a
      | ObjectExpression props => ObjectExpression (map walkP props)
      | LogicalExpression op l r => LogicalExpression op (walkE l) (walkE r)
      | AwaitExpression a => AwaitExpression (walkE a)
      | ImportExpression s => ImportExpression (walkE s)
      | OtherExpression k cs => OtherExpression k (map walkE cs)
      end
  end
with walkP (p : property) : property :=
  match p with
  | ObjectProperty k v => ObjectProperty (walkE k) (walkE v)
  end
with walkA (a : arrowBody) : arrowBody :=
  match a with
  | ExpressionBody e => ExpressionBody (walkE e)
  | BlockBody b => BlockBody (walkB b)
  end
with walkB (b : block) : block :=
  match b with
  | BlockStatement body => BlockStatement (flat_map walkS body)
  end
with walkS (s : stmt) : list stmt :=
  match fs s with
  | Some nodes => nodes
  | None =>
      match s with
      | ImportDeclaration _ _ => [s]
      | ExpressionStatement e => [ExpressionStatement (walkE e)]
      | ExportDefaultDeclaration d => [ExportDefaultDeclaration (walkE d)]
      | FunctionDeclaration id params body a =>
          [FunctionDeclaration id (map walkPat params) (walkB body) a]
      | ReturnStatement (Some e) => [ReturnStatement (Some (walkE e))]
      | ReturnStatement None => [s]
      | VariableDeclaration k ds => [VariableDeclaration k (map walkD ds)]
      | Block b => [Block (walkB b)]
      | OtherStatement k es bs =>
          [OtherStatement k (map walkE es) (map walkB bs)]
      end
  end
with walkD (d : declarator) : declarator :=
  match d with
  | VariableDeclarator id (Some e) =>
      VariableDeclarator (walkPat id) (Some (walkE e))
  | VariableDeclarator id None => VariableDeclarator (walkPat id) None
  end.

Definition walk (p : program) : program := flat_map walkS p.
End Walk.

Definition noE : expr -> option expr := fun _ => None.
Definition noS : stmt -> option (list stmt) := fun _ => None.
Definition noT : tsType -> option tsType := fun _ => None.

(** *** Rules 1 and 7: import specifiers *)

Definition importSourceRule (s : stmt) : option (list stmt) :=
  match s with
  | ImportDeclaration specs source =>
      Some [ImportDeclaration specs (Specifier.rewriteImportSource source)]
  | _ => None
  end.

Definition relativeImportRule (s : stmt) : option (list stmt) :=
  match s with
  | ImportDeclaration specs source =>
      Some [ImportDeclaration specs (Specifier.rewriteRelativeSource source)]
  | _ => None
  end.

(** *** Rules 2 and 3: [Deno.env] *)

(** The callee test shared by both rules: a member expression whose
    object is a member expression of the identifiers [Deno] and [env] and
    whose property is the identifier [method]. *)
Definition isDenoEnvCallee (method : string) (callee : expr) : bool :=
  match callee with
  | MemberExpression (MemberExpression (Identifier o) (Identifier p) _)
                     (Identifier m) _ =>
      String.eqb o "Deno" && String.eqb p "env" && String.eqb m method
  | _ => false
  end.

Definition processEnv : expr :=
  MemberExpression (Identifier "process") (Identifier "env") false.

Definition envGetRule (e : expr) : option expr :=
  match e with
  | CallExpression callee args =>
      if isDenoEnvCallee "get" callee then
        let arg := match args with
                   | a :: _ => a
                   | [] => StringLiteral ""
                   end in
        Some (LogicalExpression "??" (MemberExpression processEnv arg true)
                                (StringLiteral ""))
      else None
  | _ => None
  end.

Definition envToObjectRule (e : expr) : option expr :=
  match e with
  | CallExpression callee _ =>
      if isDenoEnvCallee "toObject" callee then Some processEnv else None
  | _ => None
  end.

(** *** Rule 4: the [serve] import *)

Definition serveImportSources : list string :=
  [ "http/server"; "https://deno.land/std/http/server.ts";
    "https://deno.land/std@"; "std/http/server" ].

Definition keepSpecifier (spec : importSpecifier) : bool :=
  match spec with
  | ImportSpecifier imported _ => negb (String.eqb imported "serve")
  | _ => true
  end.

Definition serveImportRule (s : stmt) : option (list stmt) :=
  match s with
  | ImportDeclaration specs source =>
      if existsb (fun x => Js.includes source x) serveImportSources then
        match List.filter keepSpecifier specs with
        | [] => Some []
        | kept => Some [ImportDeclaration kept source]
        end
      else Some [s]
  | _ => None
  end.

(** *** Rules 4 and 5: the registration call *)

(** [hasAwait(j, body)] for a block. *)
Definition hasAwait (body : block) : bool := Nat.ltb 0 (awaitsB body).

(** [hasAwait(j, init.body)] for the body of an arrow function: the
    search looks below the node it starts from. *)
Definition hasAwaitBelow (body : arrowBody) : bool :=
  match body with
  | BlockBody b => hasAwait b
  | ExpressionBody (AwaitExpression a) => Nat.ltb 0 (awaitsE a)
  | ExpressionBody e => Nat.ltb 0 (awaitsE e)
  end.

(** The body of the emitted function: a bare expression becomes a block
    that returns it. *)
Definition asBlock (body : arrowBody) : block :=
  match body with
  | BlockBody b => b
  | ExpressionBody e => BlockStatement [ReturnStatement (Some e)]
  end.

(** What replaces the call statement, from its handler argument. *)
Definition emitHandler (arg : expr) : option (list stmt) :=
  match arg with
  | ArrowFunctionExpression params body async =>
      let body' := asBlock body in
      Some [ FunctionDeclaration "handler" params body'
                                 (async || hasAwait body');
             ExportDefaultDeclaration (Identifier "handler") ]
  | FunctionExpression params body async =>
      Some [ FunctionDeclaration "handler" params body
                                 (async || hasAwait body);
             ExportDefaultDeclaration (Identifier "handler") ]
  | Identifier name => Some [ExportDefaultDeclaration (Identifier name)]
  | _ => None
  end.

(** The callback of the [serve(...)] pass on an expression statement. *)
Definition serveRule (s : stmt) : option (list stmt) :=
  match s with
  | ExpressionStatement (CallExpression (Identifier callee) args) =>
      if String.eqb callee "serve" then
        match args with
        | arg :: _ => emitHandler arg
        | [] => None
        end
      else None
  | _ => None
  end.

(** [properties.find((p) => p.key && p.key.name === 'handler')] *)
Fixpoint findHandlerProp (props : list property) : option expr :=
  match props with
  | [] => None
  | ObjectProperty (Identifier k) v :: rest =>
      if String.eqb k "handler" then Some v else findHandlerProp rest
  | _ :: rest => findHandlerProp rest
  end.

(** The handler argument of [Deno.serve(...)]: the second argument when
    there is one, else the first; the [handler] property of an options
    object when it has one. *)
Definition denoHandlerArg (args : list expr) : option expr :=
  let positional := match args with
                    | _ :: second :: _ => Some second
                    | first :: [] => Some first
                    | [] => None
                    end in
  match positional with
  | Some (ObjectExpression props) =>
      match findHandlerProp props with
      | Some v => Some v
      | None => positional
      end
  | other => other
  end.

(** The callback of the [Deno.serve(...)] pass. *)
Definition denoServeRule (s : stmt) : option (list stmt) :=
  match s with
  | ExpressionStatement
      (CallExpression (MemberExpression (Identifier o) (Identifier p) _) args) =>
      if String.eqb o "Deno" && String.eqb p "serve" then
        match denoHandlerArg args with
        | Some handlerArg => emitHandler handlerArg
        | None => None
        end
      else None
  | _ => None
  end.

(** State threaded through the children of a node, in document order. *)
Definition mapAccum {A} (f : A -> bool -> A * bool)
  : list A -> bool -> list A * bool :=
  fix go l b :=
    match l with
    | [] => ([], b)
    | x :: l' =>
        let '(x', b1) := f x b in
        let '(l'', b2) := go l' b1 in
        (x' :: l'', b2)
    end.

Definition flatMapAccum {A} (f : A -> bool -> list A * bool)
  : list A -> bool -> list A * bool :=
  fix go l b :=
    match l with
    | [] => ([], b)
    | x :: l' =>
        let '(xs, b1) := f x b in
        let '(l'', b2) := go l' b1 in
        ((xs ++ l'')%list, b2)
    end.

(** One registration pass over the [ExpressionStatement] paths; the
    boolean is [handlerExported] before and after. *)
Section Register.
Variable rule : stmt -> option (list stmt).

Fixpoint regE (e : expr) (b : bool) : expr * bool :=
  match e with
  | Identifier _ | StringLiteral _ => (e, b)
  | MemberExpression o p c =>
      let '(o', b1) := regE o b in
      let '(p', b2) := regE p b1 in
      (MemberExpression o' p' c, b2)
  | CallExpression c args =>
      let '(c', b1) := regE c b in
      let '(args', b2) := mapAccum regE args b1 in
      (CallExpression c' args', b2)
  | ArrowFunctionExpression params body a =>
      let '(body', b1) := regA body b in
      (ArrowFunctionExpression params body' a, b1)
  | FunctionExpression params body a =>
      let '(body', b1) := regB body b in
      (FunctionExpression params body' a, b1)
  | ObjectExpression props =>
      let '(props', b1) := mapAccum regP props b in
      (ObjectExpression props', b1)
  | LogicalExpression op l r =>
      let '(l', b1) := regE l b in
      let '(r', b2) := regE r b1 in
      (LogicalExpression op l' r', b2)
  | AwaitExpression a =>
      let '(a', b1) := regE a b in (AwaitExpression a', b1)
  | ImportExpression s =>
      let '(s', b1) := regE s b in (ImportExpression s', b1)
  | OtherExpression k cs =>
      let '(cs', b1) := mapAccum regE cs b in (OtherExpression k cs', b1)
  end
with regP (p : property) (b : bool) : property * bool :=
  match p with
  | ObjectProperty k v =>
      let '(k', b1) := regE k b in
      let '(v', b2) := regE v b1 in
      (ObjectProperty k' v', b2)
  end
with regA (a : arrowBody) (b : bool) : arrowBody * bool :=
  match a with
  | ExpressionBody e => let '(e', b1) := regE e b in (ExpressionBody e', b1)
  | BlockBody bl => let '(bl', b1) := regB bl b in (BlockBody bl', b1)
  end
with regB (bl : block) (b : bool) : block * bool :=
  match bl with
  | BlockStatement body =>
      let '(body', b1) := flatMapAccum regS body b in
      (BlockStatement body', b1)
  end
with regS (s : stmt) (b : bool) : list stmt * bool :=
  match s with
  | ImportDeclaration _ _ => ([s], b)
  | ExpressionStatement e =>
      if b then ([s], true)
      else match rule s with
           | Some nodes => (nodes, true)
           | None => let '(e', b1) := regE e false in
                     ([ExpressionStatement e'], b1)
           end
  | ExportDefaultDeclaration d =>
      let '(d', b1) := regE d b in ([ExportDefaultDeclaration d'], b1)
  | FunctionDeclaration id params body a =>
      let '(body', b1) := regB body b in
      ([FunctionDeclaration id params body' a], b1)
  | ReturnStatement (Some e) =>
      let '(e', b1) := regE e b in ([ReturnStatement (Some e')], b1)
  | ReturnStatement None => ([s], b)
  | VariableDeclaration k ds =>
      let '(ds', b1) := mapAccum regD ds b in
      ([VariableDeclaration k ds'], b1)
  | Block bl => let '(bl', b1) := regB bl b in ([Block bl'], b1)
  | OtherStatement k es bs =>
      let '(es', b1) := mapAccum regE es b in
      let '(bs', b2) := mapAccum regB bs b1 in
      ([OtherStatement k es' bs'], b2)
  end
with regD (d : declarator) (b : bool) : declarator * bool :=
  match d with
  | VariableDeclarator id (Some e) =>
      let '(e', b1) := regE e b in (VariableDeclarator id (Some e'), b1)
  | VariableDeclarator id None => (d, b)
  end.

Definition register (p : program) (handlerExported : bool) : program * bool :=
  flatMapAccum regS p handlerExported.
End Register.

(** *** Rule 6: type references into the [Deno] namespace *)

Definition denoTypeRule (t : tsType) : option tsType :=
  match t with
  | TSTypeReference (TSQualifiedName (TSIdentifier l) _) _ =>
      if String.eqb l "Deno"
      then Some (TSTypeReference (TSIdentifier "any") [])
      else None
  | _ => None
  end.

(** *** Rule 8: dynamic imports *)

Definition dynamicImportRule (e : expr) : option expr :=
  match e with
  | ImportExpression (StringLiteral val) =>
      match Specifier.rewriteDynamicImport val with
      | Some val' => Some (ImportExpression (StringLiteral val'))
      | None => None
      end
  | _ => None
  end.

(** *** Rule 11: handlers that await

    Both finds set [async] in place and leave the tree shape alone;
    [decls] selects the [FunctionDeclaration] find, [vars] the
    [VariableDeclarator] find. *)
Section Async.
Variables (decls vars : bool).

Definition isHandlerId (id : pattern) : bool :=
  match id with
  | PIdentifier name _ => String.eqb name "handler"
  | POther _ _ => false
  end.

(** [init.async = true] on the initialiser of a declarator named
    [handler]; [init] is the node before the walk below it, [init'] after. *)
Definition markInit (id : pattern) (init init' : expr) : expr :=
  if vars && isHandlerId id then
    match init, init' with
    | ArrowFunctionExpression _ body false, ArrowFunctionExpression ps' body' _ =>
        ArrowFunctionExpression ps' body' (hasAwaitBelow body)
    | FunctionExpression _ body false, FunctionExpression ps' body' _ =>
        FunctionExpression ps' body' (hasAwait body)
    | _, _ => init'
    end
  else init'.

Fixpoint asyncE (e : expr) : expr :=
  match e with
  | Identifier _ | StringLiteral _ => e
  | MemberExpression o p c => MemberExpression (asyncE o) (asyncE p) c
  | CallExpression c args => CallExpression (asyncE c) (map asyncE args)
  | ArrowFunctionExpression params body a =>
      ArrowFunctionExpression params (asyncA body) a
  | FunctionExpression params body a =>
      FunctionExpression params (asyncB body) a
  | ObjectExpression props => ObjectExpression (map asyncP props)
  | LogicalExpression op l r => LogicalExpression op (asyncE l) (asyncE r)
  | AwaitExpression a => AwaitExpression (asyncE a)
  | ImportExpression s => ImportExpression (asyncE s)
  | OtherExpression k cs => OtherExpression k (map asyncE cs)
  end
with asyncP (p : property) : property :=
  match p with
  | ObjectProperty k v => ObjectProperty (asyncE k) (asyncE v)
  end
with asyncA (a : arrowBody) : arrowBody :=
  match a with
  | ExpressionBody e => ExpressionBody (asyncE e)
  | BlockBody b => BlockBody (asyncB b)
  end
with asyncB (b : block) : block :=
  match b with
  | BlockStatement body => BlockStatement (map asyncS body)
  end
with asyncS (s : stmt) : stmt :=
  match s with
  | ImportDeclaration _ _ => s
  | ExpressionStatement e => ExpressionStatement (asyncE e)
  | ExportDefaultDeclaration d => ExportDefaultDeclaration (asyncE d)
  | FunctionDeclaration id params body a =>
      FunctionDeclaration id params (asyncB body)
        (if decls && String.eqb id "handler" && negb a
         then hasAwait body else a)
  | ReturnStatement (Some e) => ReturnStatement (Some (asyncE e))
  | ReturnStatement None => s
  | VariableDeclaration k ds => VariableDeclaration k (map asyncD ds)
  | Block b => Block (asyncB b)
  | OtherStatement k es bs => OtherStatement k (map asyncE es) (map asyncB bs)
  end
with asyncD (d : declarator) : declarator :=
  match d with
  | VariableDeclarator id (Some e) =>
      VariableDeclarator id (Some (markInit id e (asyncE e)))
  | VariableDeclarator id None => d
  end.

Definition asyncWalk (p : program) : program := map asyncS p.
End Async.

(** *** The pipeline *)

(** The tree after the rules that run before the registration passes. *)
Definition beforeRegistration (p : program) : program :=
  let p1 := walk noE importSourceRule noT p in
  let p2 := walk envGetRule noS noT p1 in
  let p3 := walk envToObjectRule noS noT p2 in
  walk noE serveImportRule noT p3.

(** The two registration passes share [handlerExported]. *)
Definition registration (p : program) : program * bool :=
  let '(p5, exported) := register serveRule p false in
  register denoServeRule p5 exported.

Definition afterRegistration (p : program) : program :=
  let p7 := walk noE noS denoTypeRule p in
  let p8 := walk noE relativeImportRule noT p7 in
  let p9 := walk dynamicImportRule noS noT p8 in
  let p10 := asyncWalk true false p9 in
  asyncWalk false true p10.

(** [transform], on the syntax tree of [fileInfo.source]. *)
Definition transform (p : program) : program :=
  afterRegistration (registration (beforeRegistration p)).1.

End Transform.

(* ===================================================================== *)
(** ** Trees that no rule matches *)
(* ===================================================================== *)

Module Normal.
Import Ast Transform.

Definition isNone {A} (o : option A) : bool :=
  match o with
  | None => true
  | Some _ => false
  end.

(** No [Deno.env] call and no dynamic [npm:] import at this node. *)
Definition exprFree (e : expr) : bool :=
  isNone (envGetRule e) && isNone (envToObjectRule e)
  && isNone (dynamicImportRule e).

(** No reference into the [Deno] type namespace at this node. *)
Definition typeFree (t : tsType) : bool := isNone (denoTypeRule t).

(** An import that the three import rules leave as it is. *)
Definition importFree (s : stmt) : bool :=
  match s with
  | ImportDeclaration specs source =>
      String.eqb (Specifier.rewriteImportSource source) source
      && String.eqb (Specifier.rewriteRelativeSource source) source
      && (negb (existsb (fun x => Js.includes source x) serveImportSources)
          || (forallb keepSpecifier specs
              && match specs with [] => false | _ => true end))
  | _ => true
  end.

Definition needsAsync (init : expr) : bool :=
  match init with
  | ArrowFunctionExpression _ body false => hasAwaitBelow body
  | FunctionExpression _ body false => hasAwait body
  | _ => false
  end.

Definition declFree (d : declarator) : bool :=
  match d with
  | VariableDeclarator id (Some init) => negb (isHandlerId id && needsAsync init)
  | VariableDeclarator _ None => true
  end.

(** A function or variable named [handler] that rule 11 leaves alone. *)
Definition asyncFree (s : stmt) : bool :=
  match s with
  | FunctionDeclaration id _ body a =>
      negb (String.eqb id "handler" && negb a && hasAwait body)
  | VariableDeclaration _ ds => forallb declFree ds
  | _ => true
  end.

(** The statement is no registration call of either form. *)
Definition noTrigger (s : stmt) : bool :=
  isNone (serveRule s) && isNone (denoServeRule s).

Definition stmtFree (s : stmt) : bool :=
  importFree s && noTrigger s && asyncFree s.

(** No node of the program is matched by any rule of the pipeline. *)
Definition rewriteFree (p : program) : bool :=
  allNodes exprFree stmtFree typeFree p.

(** No registration call at any depth. *)
Definition triggerFree (p : program) : bool :=
  allNodes (fun _ => true) noTrigger (fun _ => true) p.

(** No call of the bare [serve] form, resp. of the [Deno.serve] form, at
    any depth. *)
Definition serveFree (p : program) : bool :=
  allNodes (fun _ => true) (fun s => isNone (serveRule s)) (fun _ => true) p.
Definition denoServeFree (p : program) : bool :=
  allNodes (fun _ => true) (fun s => isNone (denoServeRule s)) (fun _ => true) p.

(** No [Deno.env.get] call, resp. no [Deno.env.toObject] call, at any
    depth. *)
Definition envGetFreeE (e : expr) : bool :=
  allE (fun x => isNone (envGetRule x)) (fun _ => true) (fun _ => true) e.
Definition envGetFree (p : program) : bool :=
  allNodes (fun x => isNone (envGetRule x)) (fun _ => true) (fun _ => true) p.
Definition envToObjectFree (p : program) : bool :=
  allNodes (fun x => isNone (envToObjectRule x)) (fun _ => true) (fun _ => true) p.

(** At a [Deno.env.get] call, the first argument holds no further
    [Deno.env.get] call. *)
Definition plainKey (e : expr) : bool :=
  match e with
  | CallExpression callee (key :: _) =>
      negb (isDenoEnvCallee "get" callee) || envGetFreeE key
  | _ => true
  end.

(** No [Deno.env.get] call sits inside the first argument of another. *)
Definition envGetUnnested (p : program) : bool :=
  allNodes plainKey (fun _ => true) (fun _ => true) p.

(** A statement of the program itself is a registration call. *)
Definition hasTopLevelTrigger (p : program) : bool :=
  existsb (fun s => negb (noTrigger s)) p.

End Normal.

(* ===================================================================== *)
(** ** [applyTransform] ([src/convert.ts]) *)
(* ===================================================================== *)

Module Convert.
Import Re.

(** How the evaluation of a call ends. *)
Inductive outcome (A : Type) : Type :=
| Returned (value : A)
| Thrown.
Arguments Returned {A} value.
Arguments Thrown {A}.

(** What [transform] hands back, as far as [typeof output === 'string']
    tells. *)
Inductive jsValue : Type :=
| JsString (s : string)
| JsOther.

Inductive parserName : Type := Tsx | Babel.

(** [/\.tsx?$/] *)
Definition reTsPath : regex := cat [Lit ".ts"; Opt (Lit "x"); Eos].

(** [filePath.match(/\.tsx?$/) ? 'tsx' : 'babel'] *)
Definition selectParser (filePath : string) : parserName :=
  match matchFirst reTsPath filePath with
  | Some _ => Tsx
  | None => Babel
  end.

(** The body of [applyTransform] from the [try] on, for any function put
    in the place of [transform]: a thrown exception is caught and the
    source returned; so is a result that is no string. *)
Definition applyTransformWith
    (transformFn : string -> string -> outcome jsValue)
    (filePath source : string) : outcome string :=
  match transformFn filePath source with
  | Returned (JsString output) => Returned output
  | Returned JsOther => Returned source
  | Thrown => Returned source
  end.

Section Jscodeshift.
(** The two services of the jscodeshift API that [transform] uses: the
    parser behind [j(fileInfo.source)], which throws on a text outside
    the grammar ([None]), and the printer behind [root.toSource]. *)
Variable parse : parserName -> string -> option Ast.program.
Variable toSource : Ast.program -> string.

(** [transform({ path: filePath, source }, api, {})] *)
Definition callTransform (filePath source : string) : outcome jsValue :=
  match parse (selectParser filePath) source with
  | Some root => Returned (JsString (toSource (Transform.transform root)))
  | None => Thrown
  end.

(** [applyTransform] *)
Definition applyTransform (filePath source : string) : outcome string :=
  applyTransformWith callTransform filePath source.
End Jscodeshift.

End Convert.

(* ===================================================================== *)
(** ** Sample programs *)
(* ===================================================================== *)

Module Samples.
Import Ast.

(** [new Response(text)] *)
Definition newResponse (text : string) : expr :=
  OtherExpression "NewExpression" [Identifier "Response"; StringLiteral text].

(** The parameter [req] *)
Definition req : pattern := PIdentifier "req" None.

(** [serve(handler);] *)
Definition serveCall (handler : string) : stmt :=
  ExpressionStatement (CallExpression (Identifier "serve") [Identifier handler]).

(** [Deno.serve(handler);] *)
Definition denoServeCall (handler : string) : stmt :=
  ExpressionStatement
    (CallExpression
       (MemberExpression (Identifier "Deno") (Identifier "serve") false)
       [Identifier handler]).

(** [serve(first); Deno.serve(second);] *)
Definition twoRegistrations : program :=
  [serveCall "first"; denoServeCall "second"].

End Samples.
Export Samples.

(* ===================================================================== *)
(** ** Global replacement *)
(* ===================================================================== *)

Module Subst.
Import Re.

(** [s.replace(r, repl)] for a regular expression with the [g] flag: the
    successive non-overlapping leftmost matches are replaced, the text
    between them is kept.  [repl] gets the captures of the match; [skip]
    counts the characters still covered by the previous match.  The
    patterns replaced this way match at least one character. *)
Fixpoint replaceAll (r : regex) (repl : captures -> string) (skip : nat)
    (s : string) : string :=
  match skip, s with
  | S n, String _ s' => replaceAll r repl n s'
  | S _, EmptyString => EmptyString
  | O, _ =>
      match matchHere r s with
      | Some (cs, rest) =>
          repl cs +:+
          match s with
          | EmptyString => EmptyString
          | String _ s' =>
              replaceAll r repl (String.length s - String.length rest - 1) s'
          end
      | None =>
          match s with
          | EmptyString => EmptyString
          | String c s' => String c (replaceAll r repl 0 s')
          end
      end
  end.

(** [s.split(sep)] for a separator of one character: the pieces between
    the separators, in order; the array is never empty. *)
Fixpoint split (sep : ascii) (s : string) : list string :=
  match s with
  | EmptyString => [EmptyString]
  | String c s' =>
      if Ascii.eqb c sep then EmptyString :: split sep s'
      else match split sep s' with
           | piece :: rest => String c piece :: rest
           | [] => [String c EmptyString]
           end
  end.

(** [array.pop()]: the last element, [undefined] for an empty array. *)
Fixpoint pop (l : list string) : option string :=
  match l with
  | [] => None
  | [x] => Some x
  | _ :: l' => pop l'
  end.

(** [[a-z]] *)
Definition lower (c : ascii) : bool :=
  let n := nat_of_ascii c in ((97 <=? n) && (n <=? 122))%nat.

End Subst.

(* ===================================================================== *)
(** ** The repository name ([src/utils/repo.ts]) *)
(* ===================================================================== *)

Module Repo.
Import Re Subst.

(** [/\/$/] and [/\.git$/] *)
Definition reTrailingSlash : regex := cat [Lit "/"; Eos].
Definition reGitExt : regex := cat [Lit ".git"; Eos].

(** [repoNameFromUrl] *)
Definition repoNameFromUrl (url : string) : string :=
  let trimmed := replaceFirst reTrailingSlash "" url in
  let lastSegment := default "repo" (pop (split "/" trimmed)) in
  let name := replaceFirst reGitExt "" lastSegment in
  if Js.truthy name then name else "repo".

End Repo.

(* ===================================================================== *)
(** ** Route files ([src/convert.ts]) *)
(* ===================================================================== *)

Module Routes.
Import Re Subst.

(** [/\.[^.]+$/] *)
Definition reExt : regex := cat [Lit "."; Plus (noneOf ["."%char]); Eos].

(** [removeExt] *)
Definition removeExt (fileName : string) : string :=
  replaceFirst reExt "" fileName.

(** [[a-zA-Z0-9_]] and [[a-zA-Z_]] *)
Definition wordChar (c : ascii) : bool :=
  lower c || upper c || digit c || Ascii.eqb c "_".
Definition wordStart (c : ascii) : bool :=
  lower c || upper c || Ascii.eqb c "_".

(** [sanitizeName]: [/[^a-zA-Z0-9_]/g] replaced by an underscore, then
    the test [/^[a-zA-Z_]/]. *)
Definition sanitizeName (name : string) : string :=
  let cleaned :=
    replaceAll (Class (fun c => negb (wordChar c))) (fun _ => "_") 0 name in
  match matchHere (Class wordStart) cleaned with
  | Some _ => cleaned
  | None => "_" +:+ cleaned
  end.

(** A name of the shape [[a-zA-Z_][a-zA-Z0-9_]*]. *)
Definition isIdentifier (s : string) : bool :=
  match s with
  | EmptyString => false
  | String c s' => wordStart c && Js.allChars wordChar s'
  end.

End Routes.

(* ===================================================================== *)
(** ** The dependencies object ([src/utils/dependencies.ts]) *)
(* ===================================================================== *)

Module Packages.

(** The property names every object literal inherits from
    [Object.prototype]: a table read at one of them yields a function
    instead of [undefined].  The tables of this development are read at
    other names only. *)
Definition inheritedNames : list string :=
  [ "constructor"; "__defineGetter__"; "__defineSetter__"; "hasOwnProperty";
    "__lookupGetter__"; "__lookupSetter__"; "isPrototypeOf";
    "propertyIsEnumerable"; "toString"; "valueOf"; "__proto__";
    "toLocaleString" ].

Definition inherited (name : string) : bool :=
  existsb (String.eqb name) inheritedNames.

(** [versions], in source order. *)
Definition versions : list (string * string) :=
  [ ("@supabase/supabase-js", "^2.39.0"); ("openai", "^4.28.0");
    ("stripe", "^14.14.0"); ("resend", "^3.2.0"); ("zod", "^3.22.4");
    ("uuid", "^9.0.1"); ("nanoid", "^5.0.5"); ("date-fns", "^3.3.1");
    ("lodash", "^4.17.21"); ("axios", "^1.6.7"); ("jsonwebtoken", "^9.0.2");
    ("jose", "^5.2.2"); ("bcrypt", "^5.1.1"); ("pg", "^8.11.3");
    ("redis", "^4.6.12"); ("mongodb", "^6.3.0");
    ("@anthropic-ai/sdk", "^0.17.1"); ("langchain", "^0.1.17");
    ("nodemailer", "^6.9.9"); ("@sendgrid/mail", "^8.1.1");
    ("sharp", "^0.33.2"); ("pdfkit", "^0.15.0"); ("pdf-lib", "^1.17.1");
    ("@aws-sdk/client-s3", "^3.515.0"); ("@aws-sdk/client-ses", "^3.515.0");
    ("googleapis", "^132.0.0"); ("@google-cloud/storage", "^7.7.0");
    ("hono", "^4.0.1"); ("crypto-js", "^4.2.0") ].

(** [versions[pkg] ?? '*'] *)
Definition versionOf (pkg : string) : string :=
  default "*" (Deps.lookup pkg versions).

(** [generateDependenciesObject]; [packages] is the set in the order its
    iterator yields it, the result the object as a map from its keys. *)
Definition generateDependenciesObject (packages : list string)
  : gmap string string :=
  fold_left (fun result pkg =>
               if Js.truthy pkg then <[ pkg := versionOf pkg ]> result
               else result)
            packages ∅.

End Packages.

(* ===================================================================== *)
(** ** The Supabase client import ([transforms], second transform) *)
(* ===================================================================== *)

Module Supabase.
Import Ast.

(** [{ callee: { type: 'Identifier', name: 'createClient' } }] *)
Definition isCreateClientCall (e : expr) : bool :=
  match e with
  | CallExpression (Identifier name) _ => String.eqb name "createClient"
  | _ => false
  end.

(** An import whose source includes [@supabase/supabase-js]. *)
Definition isClientImport (s : stmt) : bool :=
  match s with
  | ImportDeclaration _ source => Js.includes source "@supabase/supabase-js"
  | _ => false
  end.

(** [root.find(j.CallExpression, ...).length > 0] *)
Definition hasCreateClient (p : program) : bool :=
  negb (allNodes (fun e => negb (isCreateClientCall e))
                 (fun _ => true) (fun _ => true) p).

(** [root.find(j.ImportDeclaration).filter(...).length > 0] *)
Definition hasImport (p : program) : bool :=
  negb (allNodes (fun _ => true) (fun s => negb (isClientImport s))
                 (fun _ => true) p).

(** [import { createClient } from '@supabase/supabase-js'] *)
Definition importDecl : stmt :=
  ImportDeclaration [ImportSpecifier "createClient" "createClient"]
                    "@supabase/supabase-js".

(** [supabaseTransform], on the syntax tree: the import is put in front
    of the program body ([body.unshift]). *)
Definition supabaseTransform (p : program) : program :=
  if hasCreateClient p then
    if negb (hasImport p) then importDecl :: p else p
  else p.

End Supabase.

(* ===================================================================== *)
(** ** What the pipeline leaves behind *)
(* ===================================================================== *)

Module Output.
Import Ast Transform.

Definition isImport (s : stmt) : bool :=
  match s with
  | ImportDeclaration _ _ => true
  | _ => false
  end.

(** A relative import that still names a [.ts] file. *)
Definition relativeTs (s : stmt) : bool :=
  match s with
  | ImportDeclaration _ source =>
      Js.startsWith source "." && Js.endsWith source ".ts"
  | _ => false
  end.

(** An import from one of the [serve] modules that still lists [serve],
    or that lists nothing. *)
Definition servesImport (s : stmt) : bool :=
  match s with
  | ImportDeclaration specs source =>
      existsb (fun x => Js.includes source x) serveImportSources
      && (negb (forallb keepSpecifier specs)
          || match specs with [] => true | _ => false end)
  | _ => false
  end.

(** No type reference into the [Deno] namespace in the annotation of a
    parameter or of a declared name, at any depth. *)
Definition noDenoTypes (p : program) : bool :=
  allNodes (fun _ => true) (fun _ => true) Normal.typeFree p.

(** No relative import of a [.ts] file at any depth. *)
Definition noRelativeTs (p : program) : bool :=
  allNodes (fun _ => true) (fun s => negb (relativeTs s)) (fun _ => true) p.

(** No import of [serve] from one of the [serve] modules at any depth. *)
Definition noServeImport (p : program) : bool :=
  allNodes (fun _ => true) (fun s => negb (servesImport s)) (fun _ => true) p.

(** Rule 11 has nothing left to do: every function declared as
    [handler], and every function that initialises a variable named
    [handler], is [async] when its body holds an [await]. *)
Definition handlersAsync (p : program) : bool :=
  allNodes (fun _ => true) Normal.asyncFree (fun _ => true) p.

(** The part of [asyncFree] that is asked of function declarations
    ([needD]) and of variable declarations ([needV]). *)
Definition asyncOk (needD needV : bool) (s : stmt) : bool :=
  match s with
  | FunctionDeclaration id _ body a =>
      negb needD || negb (String.eqb id "handler" && negb a && hasAwait body)
  | VariableDeclaration _ ds => negb needV || forallb Normal.declFree ds
  | _ => true
  end.

End Output.

(* ===================================================================== *)
(** * Properties *)
(* ===================================================================== *)

(** ** Strings and the matcher *)

#[local] Arguments String.append !s1 s2 : simpl nomatch.

Section StringFacts.

Lemma app_nil_r (s : string) : s +:+ "" = s.
Proof. induction s as [|c s IH]; simpl; [reflexivity | now rewrite IH]. Qed.

Lemma app_assoc (a b c : string) : (a +:+ b) +:+ c = a +:+ (b +:+ c).
Proof. induction a as [|x a IH]; simpl; [reflexivity | now rewrite IH]. Qed.

Lemma length_app (a b : string) :
  String.length (a +:+ b) = String.length a + String.length b.
Proof. induction a as [|x a IH]; simpl; [reflexivity | now rewrite IH]. Qed.

Lemma strip_app (l s : string) : Re.strip l (l +:+ s) = Some s.
Proof.
  induction l as [|a l IH]; simpl; [reflexivity |].
  now rewrite Ascii.eqb_refl.
Qed.

Lemma strip_inv (l s r : string) : Re.strip l s = Some r -> s = l +:+ r.
Proof.
  revert s; induction l as [|a l IH]; intros s H; simpl in *.
  - now inversion H.
  - destruct s as [|b s]; [discriminate |].
    destruct (Ascii.eqb_spec a b) as [->|]; [|discriminate].
    now rewrite (IH _ H).
Qed.

Lemma take_app (w rest : string) : Re.take (String.length w) (w +:+ rest) = w.
Proof. induction w as [|c w IH]; simpl; [now destruct rest | now rewrite IH]. Qed.

Lemma consumed_app (w rest : string) : Re.consumed (w +:+ rest) rest = w.
Proof.
  unfold Re.consumed. rewrite length_app.
  replace (String.length w + String.length rest - String.length rest)
    with (String.length w) by lia.
  apply take_app.
Qed.

(** A greedy run over [w] stops where the class stops, provided the
    continuation accepts what follows. *)
Lemma mstar_run {R} (p : ascii -> bool) (w rest : string)
    (k : string -> option R) (x : R) :
  Js.allChars p w = true -> Js.stopsAt p rest = true -> k rest = Some x ->
  Re.mstar p (w +:+ rest) k = Some x.
Proof.
  intros Hw Hr Hk. induction w as [|c w IH]; simpl in *.
  - destruct rest as [|c r]; simpl in *; [assumption |].
    now destruct (p c).
  - apply andb_true_iff in Hw as [Hc Hw]. rewrite Hc. now rewrite (IH Hw).
Qed.

Lemma mplus_run {R} (p : ascii -> bool) (w rest : string) (cs : Re.captures)
    (k : string -> Re.captures -> option R) (x : R) :
  w <> "" -> Js.allChars p w = true -> Js.stopsAt p rest = true ->
  k rest cs = Some x ->
  Re.mre (Re.Plus p) (w +:+ rest) cs k = Some x.
Proof.
  intros Hne Hw Hr Hk. destruct w as [|c w]; [congruence |]. simpl in *.
  apply andb_true_iff in Hw as [Hc Hw]. rewrite Hc.
  now apply mstar_run.
Qed.

(** One step of the matcher, as rewriting rules. *)
Lemma mre_seq {R} r1 r2 s cs (k : string -> Re.captures -> option R) :
  Re.mre (Re.Seq r1 r2) s cs k
  = Re.mre r1 s cs (fun rest cs' => Re.mre r2 rest cs' k).
Proof. reflexivity. Qed.

Lemma mre_group {R} n r s cs (k : string -> Re.captures -> option R) :
  Re.mre (Re.Group n r) s cs k
  = Re.mre r s cs (fun rest cs' => k rest ((n, Re.consumed s rest) :: cs')).
Proof. reflexivity. Qed.

Lemma mre_lit {R} l s cs (k : string -> Re.captures -> option R) :
  Re.mre (Re.Lit l) (l +:+ s) cs k = k s cs.
Proof. simpl. now rewrite strip_app. Qed.

Lemma mre_lit_nil {R} s cs (k : string -> Re.captures -> option R) :
  Re.mre (Re.Lit "") s cs k = k s cs.
Proof. reflexivity. Qed.

Lemma mre_eos {R} cs (k : string -> Re.captures -> option R) :
  Re.mre Re.Eos "" cs k = k "" cs.
Proof. reflexivity. Qed.

Lemma mre_class {R} p c s cs (k : string -> Re.captures -> option R) :
  p c = true -> Re.mre (Re.Class p) (String c s) cs k = k s cs.
Proof. intros H. simpl. now rewrite H. Qed.

Lemma mre_star_run {R} (p : ascii -> bool) (w rest : string) (cs : Re.captures)
    (k : string -> Re.captures -> option R) (x : R) :
  Js.allChars p w = true -> Js.stopsAt p rest = true ->
  k rest cs = Some x ->
  Re.mre (Re.Star p) (w +:+ rest) cs k = Some x.
Proof. intros. simpl. now apply mstar_run. Qed.

Lemma mre_opt_some {R} r s cs (k : string -> Re.captures -> option R) x :
  Re.mre r s cs k = Some x -> Re.mre (Re.Opt r) s cs k = Some x.
Proof. intros H. simpl. now rewrite H. Qed.

Lemma cat_cons r rs : Re.cat (r :: rs) = Re.Seq r (Re.cat rs).
Proof. reflexivity. Qed.

Lemma cat_nil : Re.cat [] = Re.Lit "".
Proof. reflexivity. Qed.


(** When the class refuses the first character, matching fails at once. *)
Lemma replaceFirst_skip (r : Re.regex) (repl w rest : string) :
  (forall c t, Re.matchHere r (String c t) <> None ->
               Re.noneOf ["@"%char] c = false) ->
  Js.allChars (Re.noneOf ["@"%char]) w = true ->
  Re.replaceFirst r repl (w +:+ rest) = w +:+ Re.replaceFirst r repl rest.
Proof.
  intros Hr Hw. induction w as [|c w IH]; [reflexivity |].
  simpl in Hw. apply andb_true_iff in Hw as [Hc Hw].
  cbn [append Re.replaceFirst].
  destruct (Re.matchHere r (String c (w +:+ rest))) as [[cs t]|] eqn:E.
  - assert (Re.noneOf ["@"%char] c = false) by (apply (Hr c (w +:+ rest)); congruence).
    congruence.
  - now rewrite IH.
Qed.

End StringFacts.

(** Run the matcher through its deterministic steps. *)
Ltac re_steps :=
  repeat (cbv beta;
          first [ rewrite cat_cons | rewrite cat_nil | rewrite mre_seq
                | rewrite mre_group | rewrite mre_lit_nil | rewrite mre_eos
                | rewrite mre_lit ]).

(** ** Registry-prefixed specifiers *)

Section RegistrySpecifiers.
Import Re Specifier.

Lemma reVersion_needs_at (c : ascii) (t : string) :
  matchHere reVersion (String c t) <> None -> noneOf ["@"%char] c = false.
Proof.
  unfold matchHere, reVersion, noneOf. cbn [cat fold_right mre strip existsb].
  rewrite (eqb_sym c). destruct (Ascii.eqb "@" c); [reflexivity | congruence].
Qed.

Lemma reVersion_at (c : ascii) (v : string) :
  versionStart c = true -> Js.allChars dot v = true ->
  matchHere reVersion ("@" +:+ String c v) = Some ([], "").
Proof.
  intros Hc Hv. unfold matchHere, reVersion.
  cbn [cat fold_right mre strip append]. rewrite Ascii.eqb_refl, Hc.
  rewrite <- (app_nil_r v). now apply mstar_run.
Qed.

Lemma stripVersion_unscoped (pkg v : string) (c : ascii) :
  Js.allChars (noneOf ["@"%char]) pkg = true ->
  versionStart c = true -> Js.allChars dot v = true ->
  replaceFirst reVersion "" (pkg +:+ "@" +:+ String c v) = pkg.
Proof.
  intros Hp Hc Hv.
  rewrite (replaceFirst_skip _ _ _ _ reVersion_needs_at Hp).
  assert (E : replaceFirst reVersion "" ("@" +:+ String c v) = "").
  { unfold replaceFirst at 1. cbn [append]. fold replaceFirst.
    change (String "@" (String c v)) with ("@" +:+ String c v).
    now rewrite (reVersion_at c v Hc Hv). }
  rewrite E. apply app_nil_r.
Qed.

Lemma reScoped_match (scope name ver : string) :
  scope <> "" -> name <> "" ->
  Js.allChars (noneOf ["/"%char]) scope = true ->
  Js.allChars (noneOf ["@"%char]) name = true ->
  Js.allChars dot ver = true ->
  matchHere reScoped ("@" +:+ scope +:+ "/" +:+ name +:+ "@" +:+ ver)
  = Some ([(1, "@" +:+ scope +:+ "/" +:+ name)], "").
Proof.
  intros Hs Hn Hsc Hnm Hv. unfold matchHere, reScoped. re_steps.
  eapply mplus_run; try eassumption; [reflexivity |]. re_steps.
  eapply mplus_run; try eassumption; [reflexivity |]. re_steps.
  apply mre_opt_some. re_steps.
  rewrite <- (app_nil_r ver) at 1.
  eapply mre_star_run; try eassumption; [reflexivity |]. re_steps.
  do 4 f_equal.
  rewrite <- (consumed_app ("@" +:+ scope +:+ "/" +:+ name) ("@" +:+ ver)).
  f_equal. now rewrite !app_assoc.
Qed.

Lemma startsWith_app (p s : string) : Js.startsWith (p +:+ s) p = true.
Proof.
  induction p as [|c p IH]; [reflexivity |].
  cbn [append Js.startsWith]. now rewrite Ascii.eqb_refl.
Qed.

Lemma replaceHere_lit (l s : string) : replaceHere (Lit l) "" (l +:+ s) = s.
Proof. unfold replaceHere, matchHere. now rewrite mre_lit. Qed.

Lemma unscoped_not_at (pkg rest : string) :
  pkg <> "" -> Js.allChars (noneOf ["@"%char]) pkg = true ->
  Js.startsWith (pkg +:+ rest) "@" = false.
Proof.
  intros Hne Hp. destruct pkg as [|c pkg]; [congruence |].
  simpl in Hp. apply andb_true_iff in Hp as [Hc _].
  cbn [append Js.startsWith]. unfold noneOf in Hc. cbn [existsb] in Hc.
  rewrite (eqb_sym "@" c). now destruct (Ascii.eqb c "@").
Qed.

(** What both registry branches do to the text after the prefix. *)
Lemma strip_unscoped (pkg v : string) (c : ascii) :
  pkg <> "" -> Js.allChars (noneOf ["@"%char]) pkg = true ->
  versionStart c = true -> Js.allChars dot v = true ->
  stripNpm (pkg +:+ "@" +:+ String c v) = pkg.
Proof.
  intros Hne Hp Hc Hv. unfold stripNpm.
  rewrite (unscoped_not_at _ _ Hne Hp).
  now apply stripVersion_unscoped.
Qed.

Lemma strip_scoped (scope name ver : string) :
  scope <> "" -> name <> "" ->
  Js.allChars (noneOf ["/"%char]) scope = true ->
  Js.allChars (noneOf ["@"%char]) name = true ->
  Js.allChars dot ver = true ->
  stripNpm ("@" +:+ scope +:+ "/" +:+ name +:+ "@" +:+ ver)
  = "@" +:+ scope +:+ "/" +:+ name.
Proof.
  intros. unfold stripNpm. rewrite startsWith_app.
  now rewrite reScoped_match.
Qed.

Lemma stripJsr_eq (x : string) : stripJsr x = stripNpm x.
Proof. reflexivity. Qed.

Lemma rewrite_npm (x : string) :
  rewriteImportSource ("npm:" +:+ x) = stripNpm x.
Proof.
  unfold rewriteImportSource. rewrite startsWith_app.
  unfold reNpmPrefix. now rewrite replaceHere_lit.
Qed.

Lemma rewrite_jsr (x : string) :
  rewriteImportSource ("jsr:" +:+ x) = stripJsr x.
Proof.
  unfold rewriteImportSource.
  replace (Js.startsWith ("jsr:" +:+ x) "npm:") with false by reflexivity.
  rewrite startsWith_app. unfold reJsrPrefix. now rewrite replaceHere_lit.
Qed.

End RegistrySpecifiers.


Example specifier_scenario1 :
  Specifier.rewriteImportSource "npm:@supabase/supabase-js@2"
  = "@supabase/supabase-js".
Proof. vm_compute. reflexivity. Qed.

Example specifier_scenario6 :
  Specifier.rewriteImportSource "https://deno.land/x/oak@v12/mod.ts" = "koa".
Proof. vm_compute. reflexivity. Qed.

Example specifier_range_version :
  Specifier.rewriteImportSource "jsr:zod@^3.22.0-beta.1" = "zod".
Proof. vm_compute. reflexivity. Qed.




(** ** [generateEnvExample] and the caller's set *)

Section EnvExample.
Import Env.

Lemma envVars_push line st : envVars (push line st) = envVars st.
Proof. reflexivity. Qed.

Lemma envVars_emitVar st v : envVars (emitVar st v) = envVars st ∖ {[ v ]}.
Proof.
  unfold emitVar. case_bool_decide as Hv; simpl; [reflexivity |].
  set_solver.
Qed.

Lemma envVars_emitLoop vars st :
  envVars (fold_left emitVar vars st) = envVars st ∖ list_to_set vars.
Proof.
  revert st. induction vars as [|v vars IH]; intros st; simpl.
  - set_solver.
  - rewrite IH, envVars_emitVar. set_solver.
Qed.

Lemma someHas_false vars (e : gset string) :
  someHas vars e = false -> forall v, v ∈ vars -> v ∉ e.
Proof.
  unfold someHas. intros H v Hv Hin.
  assert (existsb (fun v => bool_decide (v ∈ e)) vars = true); [| congruence].
  apply existsb_exists. exists v. split.
  - now apply list_elem_of_In.
  - now apply bool_decide_eq_true.
Qed.

Lemma envVars_emitGroup vars title st (e0 : gset string) :
  envVars st ⊆ e0 ->
  envVars (emitGroup (someHas vars e0) title vars st)
  = envVars st ∖ list_to_set vars.
Proof.
  intros Hsub. unfold emitGroup.
  destruct (someHas vars e0) eqn:Hhas.
  - now rewrite envVars_push, envVars_emitLoop, envVars_push.
  - pose proof (someHas_false _ _ Hhas) as Hno.
    apply set_eq. intros x. rewrite elem_of_difference, elem_of_list_to_set.
    split; [| tauto]. intros Hx. split; [assumption |].
    intros Hv. apply (Hno x Hv). now apply Hsub.
Qed.

Lemma envVars_emitRemaining st : envVars (emitRemaining st) = envVars st.
Proof.
  unfold emitRemaining. destruct (Nat.ltb 0 (size (envVars st))); [| reflexivity].
  rewrite envVars_push.
  assert (Hloop : forall l s0,
            envVars (fold_left (fun st' v => push (v +:+ "=") st') l s0)
            = envVars s0).
  { induction l as [|v l IH]; intros s0; simpl; [reflexivity |].
    now rewrite IH. }
  now rewrite Hloop.
Qed.

Lemma generateEnvExample_set (e0 : gset string) :
  (generateEnvExample e0).2 = e0 ∖ list_to_set groupedVars.
Proof.
  unfold generateEnvExample. cbn [snd].
  rewrite envVars_emitRemaining.
  set (st0 := State header e0).
  set (st1 := emitGroup _ "# Supabase" _ st0).
  set (st2 := emitGroup _ "# OpenAI" _ st1).
  set (st3 := emitGroup _ "# Stripe" _ st2).
  assert (H1 : envVars st1 = e0 ∖ list_to_set supabaseVars).
  { unfold st1. now rewrite envVars_emitGroup. }
  assert (H2 : envVars st2 = envVars st1 ∖ list_to_set openaiVars).
  { unfold st2. rewrite envVars_emitGroup; [reflexivity |].
    rewrite H1. apply subseteq_difference_l. reflexivity. }
  assert (H3 : envVars st3 = envVars st2 ∖ list_to_set stripeVars).
  { unfold st3. rewrite envVars_emitGroup; [reflexivity |].
    rewrite H2, H1. do 2 apply subseteq_difference_l. reflexivity. }
  rewrite envVars_emitGroup.
  2:{ rewrite H3, H2, H1. do 3 apply subseteq_difference_l. reflexivity. }
  rewrite H3, H2, H1. unfold groupedVars. rewrite !list_to_set_app_L.
  apply set_eq. intros x. rewrite !elem_of_difference, !elem_of_union. tauto.
Qed.

End EnvExample.

Example envExample_text :
  (Env.generateEnvExample {[ "SUPABASE_URL"; "ZED"; "ALPHA" ]}).1
  = Env.join (String "010" "")
      (Env.header ++ ["# Supabase"; "SUPABASE_URL="; "";
                      "# Application"; "ALPHA="; "ZED="; ""]).
Proof. vm_compute. reflexivity. Qed.

(** C10.  The set handed to [generateEnvExample] is mutated: when the call
    returns it holds exactly the names of the input that belong to none of
    the Supabase, OpenAI, Stripe and Email groups, so it differs from the
    input as soon as one grouped name was present. *)
Theorem C10_generateEnvExample_mutates_set (e0 : gset string) :
  (forall v, v ∈ (Env.generateEnvExample e0).2
             <-> v ∈ e0 /\ v ∉ Env.groupedVars)
  /\ (forall v, v ∈ Env.groupedVars -> v ∈ e0 ->
                (Env.generateEnvExample e0).2 <> e0).
Proof.
  rewrite generateEnvExample_set. split.
  - intros v. rewrite elem_of_difference, elem_of_list_to_set. tauto.
  - intros v Hg Hin Heq.
    assert (Hv : v ∈ e0 ∖ list_to_set Env.groupedVars) by (rewrite Heq; exact Hin).
    apply elem_of_difference in Hv as [_ Hv]. apply Hv.
    now apply elem_of_list_to_set.
Qed.

Lemma C10_generateEnvExample_mutates_set_witness :
  (Env.generateEnvExample {[ "STRIPE_SECRET_KEY"; "MY_FLAG" ]}).2
  <> {[ "STRIPE_SECRET_KEY"; "MY_FLAG" ]}.
Proof.
  apply (proj2 (C10_generateEnvExample_mutates_set
                  {[ "STRIPE_SECRET_KEY"; "MY_FLAG" ]}) "STRIPE_SECRET_KEY").
  - unfold Env.groupedVars. vm_compute. repeat first [left; reflexivity | right].
  - set_solver.
Defined.

(** ** Scanning with a global pattern *)

Section Scanning.
Import Re.

Lemma mre_star_zero {R} p s cs (k : string -> captures -> option R) x :
  Js.stopsAt p s = true -> k s cs = Some x -> mre (Star p) s cs k = Some x.
Proof. intros Hs Hk. now apply (mre_star_run p "" s cs k x). Qed.

(** A continuation is safe against [Z] when a match that goes on from any
    point before [Z] ends before [Z]. *)
Definition safe (Z : string)
    (k : string -> captures -> option (captures * string)) : Prop :=
  forall u cs x, k (u +:+ Z) cs = Some x -> exists t, x.2 = t +:+ Z.

Lemma safe_final Z : safe Z (fun rest cs => Some (cs, rest)).
Proof. intros u cs x [= <-]. now exists u. Qed.

Lemma safe_class Z' z0 p k :
  p z0 = false -> safe (String z0 Z') k ->
  safe (String z0 Z') (fun s cs => mre (Class p) s cs k).
Proof.
  intros Hz Hk [|c u] cs x; cbn [append mre].
  - now rewrite Hz.
  - destruct (p c); [apply (Hk u) | discriminate].
Qed.

Lemma safe_lit1 Z' z0 a k :
  Ascii.eqb a z0 = false -> safe (String z0 Z') k ->
  safe (String z0 Z') (fun s cs => mre (Lit (String a "")) s cs k).
Proof.
  intros Hz Hk [|c u] cs x; cbn [append mre strip].
  - now rewrite Hz.
  - destruct (Ascii.eqb a c); [apply (Hk u) | discriminate].
Qed.

Lemma safe_star Z' z0 p k :
  p z0 = false -> safe (String z0 Z') k ->
  safe (String z0 Z') (fun s cs => mre (Star p) s cs k).
Proof.
  intros Hz Hk u cs x. cbn [mre].
  induction u as [|c u IH]; cbn [append mstar].
  - rewrite Hz. apply (Hk "").
  - destruct (p c).
    + destruct (mstar p (u +:+ String z0 Z') _) as [r|] eqn:E.
      * intros [= <-]. now apply IH.
      * apply (Hk (String c u)).
    + apply (Hk (String c u)).
Qed.

(** A greedy run fails when the continuation fails at each of its stops. *)
Lemma mstar_fail_run {R} p w s (k : string -> option R) :
  Js.allChars p w = true -> Js.stopsAt p s = true ->
  (forall c r, p c = true -> k (String c r) = None) -> k s = None ->
  mstar p (w +:+ s) k = None.
Proof.
  intros Hw Hs Hk Hks. induction w as [|c w IH]; cbn [append mstar].
  - destruct s as [|c r]; cbn [mstar]; [assumption |].
    simpl in Hs. destruct (p c); [discriminate | assumption].
  - simpl in Hw. apply andb_true_iff in Hw as [Hc Hw].
    rewrite Hc, (IH Hw). now apply Hk.
Qed.

(** The captured run may extend into [Z]; it is safe all the same when
    the continuation refuses every stop the run can make inside [Z]. *)
Lemma safe_group_plus Z w s n p k :
  Z = w +:+ s -> Js.allChars p w = true -> Js.stopsAt p s = true ->
  (forall c r cs, p c = true -> k (String c r) cs = None) ->
  (forall cs, k s cs = None) ->
  safe Z k ->
  safe Z (fun s0 cs => mre (Group n (Plus p)) s0 cs k).
Proof.
  intros -> Hw Hs Hk Hks Hsafe u cs x. rewrite mre_group. cbn [mre].
  set (k3 := fun s0 rest => k rest ((n, consumed s0 rest) :: cs)).
  assert (Hfail : forall s0 v, Js.allChars p v = true ->
                    mstar p (v +:+ s) (k3 s0) = None).
  { intros s0 v Hv. apply mstar_fail_run; try assumption.
    - intros c r Hc. now apply Hk.
    - apply Hks. }
  assert (Hgo : forall s0 v, mstar p (v +:+ w +:+ s) (k3 s0) = Some x ->
                  exists t, x.2 = t +:+ w +:+ s).
  { intros s0 v. induction v as [|c v IH]; cbn [append mstar].
    - now rewrite Hfail.
    - destruct (p c).
      + destruct (mstar p (v +:+ w +:+ s) (k3 s0)) as [r|] eqn:E.
        * intros [= <-]. now apply IH.
        * apply (Hsafe (String c v)).
      + apply (Hsafe (String c v)). }
  destruct u as [|c u]; cbn [append].
  - destruct w as [|c w]; cbn [append].
    + destruct s as [|c r]; [discriminate |].
      simpl in Hs. destruct (p c); [discriminate Hs | discriminate].
    + simpl in Hw. apply andb_true_iff in Hw as [Hc Hw]. rewrite Hc.
      fold (k3 (String c (w +:+ s))). now rewrite Hfail.
  - destruct (p c); [| discriminate].
    apply (Hgo (String c (u +:+ w +:+ s)) u).
Qed.

(** A literal that starts before [Z] either ends before [Z] or has a
    proper suffix that is a prefix of [Z]. *)
Lemma strip_cross l : forall u Z r,
  strip l (u +:+ Z) = Some r ->
  (exists u', r = u' +:+ Z) \/
  (exists l1 l2, l = l1 +:+ l2 /\ String.length l1 = String.length u
                 /\ l2 <> "" /\ strip l2 Z = Some r).
Proof.
  induction l as [|a l IH]; intros u Z r H.
  - left. exists u. simpl in H. congruence.
  - destruct u as [|c u]; cbn [append] in H.
    + right. exists "", (String a l). repeat split; [discriminate | assumption].
    + cbn [strip] in H. destruct (Ascii.eqb a c); [| discriminate].
      apply IH in H as [H | (l1 & l2 & -> & Hlen & Hne & Hs)]; [now left |].
      right. exists (String a l1), l2. repeat split; simpl; auto.
Qed.

Lemma allChars_suffix p l1 l2 :
  Js.allChars p (l1 +:+ l2) = true -> Js.allChars p l2 = true.
Proof.
  induction l1 as [|c l1 IH]; simpl; [trivial |].
  intros H. apply andb_true_iff in H as [_ H]. now apply IH.
Qed.

(** The leading literal of a pattern, started at least one character
    before [Z], where no later character of the literal is the first
    character of [Z]. *)
Lemma safe_lit_start Z' z0 a l k c u cs x :
  Js.allChars (fun b => negb (Ascii.eqb b z0)) l = true ->
  safe (String z0 Z') k ->
  mre (Lit (String a l)) (String c u +:+ String z0 Z') cs k = Some x ->
  exists t, x.2 = t +:+ String z0 Z'.
Proof.
  intros Hl Hk. cbn [mre].
  destruct (strip (String a l) (String c u +:+ String z0 Z')) as [r|] eqn:E;
    [| discriminate].
  apply strip_cross in E as [[u' ->] | (l1 & l2 & Hsplit & Hlen & Hne & Hs)].
  - apply (Hk u').
  - exfalso. destruct l1 as [|a1 l1]; [discriminate Hlen |].
    cbn [append] in Hsplit. injection Hsplit as -> ->.
    apply allChars_suffix in Hl.
    destruct l2 as [|b l2]; [congruence |].
    simpl in Hl. apply andb_true_iff in Hl as [Hb _].
    cbn [strip] in Hs. rewrite eqb_sym in Hs.
    destruct (Ascii.eqb z0 b) eqn:Hzb; [| discriminate].
    rewrite eqb_sym, Hzb in Hb. discriminate.
Qed.

(** The scan loop reaches a match at [Z] when every match that starts
    earlier ends before [Z]. *)
Lemma scanAll_finds (G : regex) (Z : string) cs rest :
  matchHere G Z = Some (cs, rest) ->
  (forall c u x, matchHere G (String c u +:+ Z) = Some x ->
                 exists t, x.2 = t +:+ Z) ->
  forall pre skip, skip <= String.length pre ->
  In cs (scanAll G skip (pre +:+ Z)).
Proof.
  intros Hm Hsafe pre. induction pre as [|c pre IH]; intros skip Hskip.
  - simpl in Hskip. assert (skip = 0) as -> by lia. cbn [append].
    destruct Z; cbn [scanAll]; rewrite Hm; now left.
  - destruct skip as [|n].
    + cbn [append scanAll].
      destruct (matchHere G (String c (pre +:+ Z))) as [[cs' rest']|] eqn:E.
      * right. apply IH.
        destruct (Hsafe c pre (cs', rest') E) as [t Ht]. cbn [snd] in Ht.
        subst rest'. cbn [String.length]. rewrite !length_app. lia.
      * apply IH. lia.
    + cbn [append scanAll]. apply IH. simpl in Hskip. lia.
Qed.

End Scanning.

(** ** The [Deno.env.get] call patterns *)

Section GetCall.
Import Re.

Variable qc : ascii -> bool.
Hypothesis qc_literal :
  Js.allChars (fun c => negb (qc c)) "Deno.env.get(" = true.
Hypothesis qc_not_space : forall c, qc c = true -> Js.isSpace c = false.

(** Both call patterns, over the class of the delimiter. *)
Definition getCall : regex :=
  cat [ Lit "Deno.env.get"; Star Js.isSpace; Lit "("; Star Js.isSpace;
        Class qc; Group 1 (Plus (fun c => negb (qc c)));
        Class qc; Star Js.isSpace; Lit ")" ].

Definition k9 : string -> captures -> option (captures * string) :=
  fun rest cs => Some (cs, rest).
Definition k8 := fun s cs => mre (Lit ")") s cs k9.
Definition k7 := fun s cs => mre (Star Js.isSpace) s cs k8.
Definition k6 := fun s cs => mre (Class qc) s cs k7.
Definition k5 := fun s cs => mre (Group 1 (Plus (fun c => negb (qc c)))) s cs k6.
Definition k4 := fun s cs => mre (Class qc) s cs k5.
Definition k3 := fun s cs => mre (Star Js.isSpace) s cs k4.
Definition k2 := fun s cs => mre (Lit "(") s cs k3.
Definition k1 := fun s cs => mre (Star Js.isSpace) s cs k2.

Lemma getCall_unfold s :
  matchHere getCall s = mre (Lit "Deno.env.get") s [] k1.
Proof. reflexivity. Qed.

Variables (q1 q2 k0 : ascii) (K' post : string).
Hypothesis q1_delim : qc q1 = true.
Hypothesis q2_delim : qc q2 = true.
Hypothesis K_plain : Js.allChars (fun c => negb (qc c)) (String k0 K') = true.
Hypothesis k0_not_space : Js.isSpace k0 = false.
Hypothesis k0_not_paren : Ascii.eqb ")" k0 = false.

(** The call text [Deno.env.get(qKq)] followed by [post]. *)
Definition callText : string :=
  "Deno.env.get" +:+ "(" +:+ String q1 (String k0 K' +:+ String q2 (")" +:+ post)).

Lemma callText_head :
  callText = String "D" ("eno.env.get(" +:+
               String q1 (String k0 K' +:+ String q2 (")" +:+ post))).
Proof. reflexivity. Qed.

Lemma qc_D : qc "D" = false.
Proof.
  pose proof qc_literal as H. cbn [Js.allChars] in H.
  apply andb_true_iff in H as [H _]. now destruct (qc "D").
Qed.

Lemma getCall_here :
  matchHere getCall callText = Some ([(1, String k0 K')], post).
Proof.
  rewrite getCall_unfold. unfold callText. rewrite mre_lit.
  unfold k1. apply mre_star_zero; [reflexivity |].
  unfold k2. rewrite mre_lit.
  unfold k3. apply mre_star_zero.
  { cbn [Js.stopsAt]. now rewrite (qc_not_space _ q1_delim). }
  unfold k4. rewrite (mre_class _ _ _ _ _ q1_delim).
  unfold k5. rewrite mre_group.
  apply mplus_run; [discriminate | exact K_plain | |].
  { cbn [Js.stopsAt]. now rewrite q2_delim. }
  unfold k6. rewrite (mre_class _ _ _ _ _ q2_delim).
  unfold k7. apply mre_star_zero; [reflexivity |].
  unfold k8. rewrite mre_lit. unfold k9.
  now rewrite consumed_app.
Qed.

Lemma getCall_safe c u x :
  matchHere getCall (String c u +:+ callText) = Some x ->
  exists t, x.2 = t +:+ callText.
Proof.
  rewrite getCall_unfold, callText_head.
  apply safe_lit_start; [reflexivity |].
  apply safe_star; [reflexivity |].
  apply safe_lit1; [reflexivity |].
  apply safe_star; [reflexivity |].
  apply safe_class; [exact qc_D |].
  eapply (safe_group_plus _ "Deno.env.get("
            (String q1 (String k0 K' +:+ String q2 (")" +:+ post)))).
  - reflexivity.
  - exact qc_literal.
  - cbn [Js.stopsAt]. now rewrite q1_delim.
  - intros a r cs Ha. unfold k6. cbn [mre].
    now destruct (qc a).
  - intros cs. unfold k6. rewrite (mre_class _ _ _ _ _ q1_delim).
    unfold k7. cbn [append mre mstar]. rewrite k0_not_space.
    unfold k8. cbn [mre strip]. now rewrite k0_not_paren.
  - apply safe_class; [exact qc_D |].
    apply safe_star; [reflexivity |].
    apply safe_lit1; [reflexivity |].
    apply safe_final.
Qed.

(** Wherever the call text stands, the scan loop captures its name. *)
Lemma getCall_scanned pre :
  In [(1, String k0 K')] (scanAll getCall 0 (pre +:+ callText)).
Proof.
  apply (scanAll_finds getCall callText _ post getCall_here getCall_safe).
  lia.
Qed.

End GetCall.

Section EnvExtraction.
Import Re Env.

Lemma quote_cases c : Deps.quote c = true -> c = "'"%char \/ c = "034"%char.
Proof.
  unfold Deps.quote. intros H. apply orb_true_iff in H as [H | H];
    apply Ascii.eqb_eq in H; auto.
Qed.

Lemma quote_not_space c : Deps.quote c = true -> Js.isSpace c = false.
Proof. intros H. destruct (quote_cases c H) as [-> | ->]; reflexivity. Qed.

Lemma backtick_not_space c : backtick c = true -> Js.isSpace c = false.
Proof. unfold backtick. intros H. apply Ascii.eqb_eq in H as ->. reflexivity. Qed.

Lemma fold_add_mono {A} (f : gset string -> A -> gset string) l e x :
  (forall acc a, acc ⊆ f acc a) -> x ∈ e -> x ∈ fold_left f l e.
Proof.
  intros Hf. revert e. induction l as [|a l IH]; intros e Hx; simpl.
  - assumption.
  - apply IH. now apply (Hf e a).
Qed.

Lemma fold_add_in {A} (f : gset string -> A -> gset string) l e a x :
  (forall acc a, acc ⊆ f acc a) -> (forall acc, x ∈ f acc a) -> In a l ->
  x ∈ fold_left f l e.
Proof.
  intros Hf Hx. revert e. induction l as [|b l IH]; intros e Hin; simpl.
  - destruct Hin.
  - destruct Hin as [-> | Hin].
    + apply fold_add_mono; [assumption | apply Hx].
    + now apply IH.
Qed.

Lemma addMatches_mono p s e x : x ∈ e -> x ∈ addMatches p s e.
Proof. apply fold_add_mono. intros acc a. apply union_subseteq_l. Qed.

Lemma addMatches_in p s e cs x :
  In cs (scanAll p 0 s) -> cap 1 cs = Some x -> x ∈ addMatches p s e.
Proof.
  intros Hin Hc. eapply fold_add_in; [| | exact Hin].
  - intros acc a. apply union_subseteq_l.
  - intros acc. rewrite Hc. simpl. set_solver.
Qed.

Lemma addTemplateMatches_mono p s e x : x ∈ e -> x ∈ addTemplateMatches p s e.
Proof.
  apply fold_add_mono. intros acc a. cbv zeta.
  destruct (negb _); [apply union_subseteq_l | reflexivity].
Qed.

Lemma addTemplateMatches_in p s e cs x :
  In cs (scanAll p 0 s) -> cap 1 cs = Some x -> Js.includes x "$" = false ->
  x ∈ addTemplateMatches p s e.
Proof.
  intros Hin Hc Hd. eapply fold_add_in; [| | exact Hin].
  - intros acc a. cbv zeta.
    destruct (negb _); [apply union_subseteq_l | reflexivity].
  - intros acc. rewrite Hc. simpl. rewrite Hd. simpl. set_solver.
Qed.

Lemma addCommon_mono s e x : x ∈ e -> x ∈ addCommon s e.
Proof.
  apply fold_add_mono. intros acc a.
  destruct (Js.includes s a); [apply union_subseteq_l | reflexivity].
Qed.

Lemma addCommon_in s e x :
  In x commonEnvVars -> Js.includes s x = true -> x ∈ addCommon s e.
Proof.
  intros Hin Hs. eapply fold_add_in; [| | exact Hin].
  - intros acc a.
    destruct (Js.includes s a); [apply union_subseteq_l | reflexivity].
  - intros acc. rewrite Hs. set_solver.
Qed.

Lemma includes_app a v b : Js.includes (a +:+ v +:+ b) v = true.
Proof.
  induction a as [|c a IH]; cbn [append].
  - destruct (v +:+ b) eqn:E; cbn [Js.includes]; rewrite <- ?E;
      now rewrite startsWith_app.
  - cbn [Js.includes]. rewrite IH. now destruct (Js.startsWith _ _).
Qed.

End EnvExtraction.

Example env_scenario5 :
  Env.extractEnvVariables "Deno.env.get('FOO') + process.env.BAR + 'npm:stripe@14'"
  = {[ "FOO"; "BAR" ]}.
Proof. apply set_eq. intros x. vm_compute. set_solver. Qed.

Section EnvSuperset.
Import Re Env.

Lemma denoEnvPattern_getCall : denoEnvPattern = getCall Deps.quote.
Proof. reflexivity. Qed.

Lemma denoEnvPattern2_getCall : denoEnvPattern2 = getCall backtick.
Proof. reflexivity. Qed.

Lemma quoted_call_found pre post q k0 K' :
  Deps.quote q = true ->
  Js.allChars (fun c => negb (Deps.quote c)) (String k0 K') = true ->
  Js.isSpace k0 = false -> Ascii.eqb ")" k0 = false ->
  String k0 K' ∈ extractEnvVariables
    (pre +:+ "Deno.env.get(" +:+ String q (String k0 K' +:+ String q (")" +:+ post))).
Proof.
  intros Hq HK Hs Hp. unfold extractEnvVariables.
  apply addCommon_mono. do 3 apply addMatches_mono.
  apply addTemplateMatches_mono.
  apply (addMatches_in _ _ _ [(1, String k0 K')]); [| reflexivity].
  rewrite denoEnvPattern_getCall.
  apply (getCall_scanned Deps.quote eq_refl quote_not_space q q k0 K' post);
    assumption.
Qed.

Lemma template_call_found pre post k0 K' :
  Js.allChars (fun c => negb (backtick c)) (String k0 K') = true ->
  Js.includes (String k0 K') "$" = false ->
  Js.isSpace k0 = false -> Ascii.eqb ")" k0 = false ->
  String k0 K' ∈ extractEnvVariables
    (pre +:+ "Deno.env.get(" +:+ String "`" (String k0 K' +:+ String "`" (")" +:+ post))).
Proof.
  intros HK Hd Hs Hp. unfold extractEnvVariables.
  apply addCommon_mono. do 3 apply addMatches_mono.
  apply (addTemplateMatches_in _ _ _ [(1, String k0 K')]);
    [| reflexivity | exact Hd].
  rewrite denoEnvPattern2_getCall.
  apply (getCall_scanned backtick eq_refl backtick_not_space "`" "`" k0 K' post);
    auto.
Qed.

Lemma common_name_found a b v :
  In v commonEnvVars -> v ∈ extractEnvVariables (a +:+ v +:+ b).
Proof.
  intros Hv. unfold extractEnvVariables.
  apply addCommon_in; [assumption | apply includes_app].
Qed.

End EnvSuperset.

(** Names the scan misses: a name that holds the other quote character,
    and a call whose name begins with white space and a parenthesis when
    an earlier match runs over it. *)
Definition dq : string := String "034" "".

Example env_quote_in_name_missed :
  Env.extractEnvVariables ("Deno.env.get(" +:+ dq +:+ "it's" +:+ dq +:+ ")") = ∅.
Proof. apply set_eq. intros x. vm_compute. set_solver. Qed.

Example env_call_swallowed :
  Env.extractEnvVariables
    ("Deno.env.get('Deno.env.get(" +:+ dq +:+ " )" +:+ dq +:+ ")")
  = {[ "Deno.env.get(" ]}.
Proof. apply set_eq. intros x. vm_compute. set_solver. Qed.




(** ** Dependency extraction *)

Section Dependencies.
Import Re Deps.

(** The guarded loop of the [deno.land] scan never adds the empty name. *)
Lemma addAllMapped_no_empty p s (d : gset string) :
  "" ∉ d -> "" ∉ addAllMapped p s d.
Proof.
  unfold addAllMapped. generalize (scanAll p 0 s) as l. intros l. revert d.
  induction l as [|cs l IH]; intros d Hd; simpl; [assumption |].
  apply IH. destruct (Js.truthy _) eqn:Ht; [| assumption].
  intros Hin. apply elem_of_union in Hin as [Hin | Hin]; [now apply Hd |].
  apply elem_of_singleton in Hin. rewrite <- Hin in Ht. discriminate Ht.
Qed.

Lemma mapPackage_std : mapPackage "std/path" = "".
Proof. reflexivity. Qed.

End Dependencies.

Example deps_scenario5 :
  Deps.extractDependencies "const s = new X('npm:stripe@14')" = {[ "stripe" ]}.
Proof. apply set_eq. intros x. vm_compute. set_solver. Qed.

Example deps_deno_land_std_guarded :
  Deps.extractDependencies "import { x } from 'https://deno.land/x/std/y.ts'"
  = {[ "std" ]}.
Proof. apply set_eq. intros x. vm_compute. set_solver. Qed.

(** C8 (the code at the failing input).  The [npm:] scan adds what
    [mapPackage] returns without looking at it, so a standard-library
    path imported through [npm:] puts the empty string into the set,
    while the [deno.land] scan does test the mapped name. *)
Theorem C8_npm_scan_adds_empty_name :
  "" ∈ Deps.extractDependencies "import { join } from 'npm:std/path'".
Proof.
  apply elem_of_elements. vm_compute. apply list_elem_of_here.
Qed.

(** ** The rewrite pipeline on the scenarios of the specification *)

Section Scenarios.
Import Ast Transform.

(** [serve((req) => new Response('ok'))] *)
Example scenario3 :
  transform
    [ ExpressionStatement
        (CallExpression (Identifier "serve")
           [ArrowFunctionExpression [req] (ExpressionBody (newResponse "ok")) false]) ]
  = [ FunctionDeclaration "handler" [req]
        (BlockStatement [ReturnStatement (Some (newResponse "ok"))]) false;
      ExportDefaultDeclaration (Identifier "handler") ].
Proof. reflexivity. Qed.

(** [Deno.serve({ port: 1, handler: async (req) => { return await f(req); } })] *)
Example scenario4 :
  let body := BlockStatement
                [ReturnStatement
                   (Some (AwaitExpression
                            (CallExpression (Identifier "f") [Identifier "req"])))] in
  transform
    [ ExpressionStatement
        (CallExpression
           (MemberExpression (Identifier "Deno") (Identifier "serve") false)
           [ObjectExpression
              [ ObjectProperty (Identifier "port") (StringLiteral "1");
                ObjectProperty (Identifier "handler")
                  (ArrowFunctionExpression [req] (BlockBody body) true) ]]) ]
  = [ FunctionDeclaration "handler" [req] body true;
      ExportDefaultDeclaration (Identifier "handler") ].
Proof. reflexivity. Qed.

(** [import { serve } from 'https://deno.land/std@0.168.0/http/server.ts';
     import { createClient } from 'npm:@supabase/supabase-js@2';
     const key = Deno.env.get('API_KEY');
     serve(handler);] *)
Example scenario_file :
  transform
    [ ImportDeclaration [ImportSpecifier "serve" "serve"]
        "https://deno.land/std@0.168.0/http/server.ts";
      ImportDeclaration [ImportSpecifier "createClient" "createClient"]
        "npm:@supabase/supabase-js@2";
      VariableDeclaration "const"
        [VariableDeclarator (PIdentifier "key" (Some (TSTypeReference
             (TSQualifiedName (TSIdentifier "Deno") "Env") [])))
           (Some (CallExpression
                    (MemberExpression
                       (MemberExpression (Identifier "Deno") (Identifier "env") false)
                       (Identifier "get") false)
                    [StringLiteral "API_KEY"]))];
      ExpressionStatement (CallExpression (Identifier "serve") [Identifier "handler"]) ]
  = [ ImportDeclaration [ImportSpecifier "createClient" "createClient"]
        "@supabase/supabase-js";
      VariableDeclaration "const"
        [VariableDeclarator
           (PIdentifier "key" (Some (TSTypeReference (TSIdentifier "any") [])))
           (Some (LogicalExpression "??"
                    (MemberExpression processEnv (StringLiteral "API_KEY") true)
                    (StringLiteral "")))];
      ExportDefaultDeclaration (Identifier "handler") ].
Proof. vm_compute. reflexivity. Qed.

End Scenarios.

(** ** Traversals of the syntax tree *)

Section TreeFacts.
Import Ast.

Lemma list_all_Forall {A} (P : A -> Prop) (l : list A) :
  list_all A P l -> Forall P l.
Proof. induction 1; constructor; assumption. Qed.

Lemma map_fixed {A} (f : A -> A) (q : A -> bool) (l : list A) :
  Forall (fun x => q x = true -> f x = x) l ->
  forallb q l = true -> map f l = l.
Proof.
  induction 1 as [|x l Hx _ IH]; simpl; [reflexivity |].
  intros H. apply andb_true_iff in H as [H1 H2].
  now rewrite (Hx H1), (IH H2).
Qed.

Lemma flat_map_fixed {A} (f : A -> list A) (q : A -> bool) (l : list A) :
  Forall (fun x => q x = true -> f x = [x]) l ->
  forallb q l = true -> flat_map f l = l.
Proof.
  induction 1 as [|x l Hx _ IH]; simpl; [reflexivity |].
  intros H. apply andb_true_iff in H as [H1 H2].
  now rewrite (Hx H1), (IH H2).
Qed.

End TreeFacts.

Ltac split_andb :=
  repeat match goal with
         | H : _ && _ = true |- _ => apply andb_true_iff in H as [? ?]
         end.

Ltac use_lists :=
  repeat match goal with
         | H : Ast.list_all _ _ _ |- _ => apply list_all_Forall in H
         end.

Ltac use_options :=
  repeat match goal with
         | H : Ast.option_all _ _ _ |- _ => destruct H
         end.

Section WalkFixed.
Import Ast Transform.

Variables (fe : expr -> option expr)
          (fs : stmt -> option (list stmt))
          (ft : tsType -> option tsType).
Variables (pe : expr -> bool) (ps : stmt -> bool) (pt : tsType -> bool).
Hypothesis fe_quiet : forall e, pe e = true -> fe e = None.
Hypothesis fs_quiet : forall s, ps s = true -> fs s = None \/ fs s = Some [s].
Hypothesis ft_quiet : forall t, pt t = true -> ft t = None.

Lemma walkT_fixed t : allT pt t = true -> walkT ft t = t.
Proof.
  induction t as [n ps' IH | k ps' IH]; cbn [allT walkT]; intros H;
    split_andb; use_lists; rewrite ft_quiet by assumption;
    f_equal; now apply (map_fixed _ (allT pt)).
Qed.

Lemma walkPat_fixed p : allPat pt p = true -> walkPat ft p = p.
Proof.
  destruct p as [n [t|] | k [t|]]; simpl; intros H;
    rewrite ?walkT_fixed by assumption; reflexivity.
Qed.

Lemma walkPats_fixed l : forallb (allPat pt) l = true -> map (walkPat ft) l = l.
Proof.
  intros H. apply (map_fixed _ (allPat pt)); [| assumption].
  apply Forall_forall. intros p _. apply walkPat_fixed.
Qed.

Lemma walk_fixed_all :
  (forall e, allE pe ps pt e = true -> walkE fe fs ft e = e) /\
  (forall p, allP pe ps pt p = true -> walkP fe fs ft p = p) /\
  (forall a, allA pe ps pt a = true -> walkA fe fs ft a = a) /\
  (forall b, allB pe ps pt b = true -> walkB fe fs ft b = b) /\
  (forall s, allS pe ps pt s = true -> walkS fe fs ft s = [s]) /\
  (forall d, allD pe ps pt d = true -> walkD fe fs ft d = d).
Proof.
  apply ast_mutind; intros; use_options; simpl in *; split_andb; use_lists;
    rewrite ?fe_quiet by assumption.
  all: try match goal with
           | Hs : ps ?s = true |- context [fs ?s] =>
               destruct (fs_quiet s Hs) as [-> | ->]; [| reflexivity]
           end.
  all: repeat match goal with
         | H : ?q = true -> _, H' : ?q = true |- _ => specialize (H H')
         end.
  all: try congruence.
  all: rewrite ?walkPats_fixed, ?walkPat_fixed by assumption.
  all: repeat match goal with
         | H : Forall _ ?l |- context [map _ ?l] =>
             rewrite (map_fixed _ _ l H) by assumption
         | H : Forall _ ?l |- context [flat_map _ ?l] =>
             rewrite (flat_map_fixed _ _ l H) by assumption
         end.
  all: congruence.
Qed.

End WalkFixed.

Section RegisterFacts.
Import Ast Transform.

Lemma mapAccum_true {A} (f : A -> bool -> A * bool) l :
  Forall (fun x => f x true = (x, true)) l -> mapAccum f l true = (l, true).
Proof.
  induction 1 as [|x l Hx _ IH]; simpl; [reflexivity |].
  now rewrite Hx, IH.
Qed.

Lemma flatMapAccum_true {A} (f : A -> bool -> list A * bool) l :
  Forall (fun x => f x true = ([x], true)) l ->
  flatMapAccum f l true = (l, true).
Proof.
  induction 1 as [|x l Hx _ IH]; simpl; [reflexivity |].
  now rewrite Hx, IH.
Qed.

Lemma mapAccum_quiet {A} (f : A -> bool -> A * bool) (q : A -> bool) l :
  Forall (fun x => q x = true -> f x false = (x, false)) l ->
  forallb q l = true -> mapAccum f l false = (l, false).
Proof.
  induction 1 as [|x l Hx _ IH]; simpl; [reflexivity |].
  intros H. apply andb_true_iff in H as [H1 H2].
  now rewrite (Hx H1), (IH H2).
Qed.

Lemma flatMapAccum_quiet {A} (f : A -> bool -> list A * bool) (q : A -> bool) l :
  Forall (fun x => q x = true -> f x false = ([x], false)) l ->
  forallb q l = true -> flatMapAccum f l false = (l, false).
Proof.
  induction 1 as [|x l Hx _ IH]; simpl; [reflexivity |].
  intros H. apply andb_true_iff in H as [H1 H2].
  now rewrite (Hx H1), (IH H2).
Qed.

Variable rule : stmt -> option (list stmt).

(** Once [handlerExported] is set, a registration pass changes nothing. *)
Lemma reg_exported_all :
  (forall e, regE rule e true = (e, true)) /\
  (forall p, regP rule p true = (p, true)) /\
  (forall a, regA rule a true = (a, true)) /\
  (forall b, regB rule b true = (b, true)) /\
  (forall s, regS rule s true = ([s], true)) /\
  (forall d, regD rule d true = (d, true)).
Proof.
  apply ast_mutind; intros; use_options; simpl in *; use_lists;
    repeat match goal with
           | H : regE _ _ _ = _ |- _ => rewrite H; clear H
           | H : regA _ _ _ = _ |- _ => rewrite H; clear H
           | H : regB _ _ _ = _ |- _ => rewrite H; clear H
           | H : Forall _ ?l |- context [mapAccum _ ?l true] =>
               rewrite (mapAccum_true _ l H); clear H
           | H : Forall _ ?l |- context [flatMapAccum _ ?l true] =>
               rewrite (flatMapAccum_true _ l H); clear H
           end; reflexivity.
Qed.

Lemma register_exported p : register rule p true = (p, true).
Proof.
  unfold register. apply flatMapAccum_true, Forall_forall. intros s _.
  apply reg_exported_all.
Qed.

Variables (pe : expr -> bool) (ps : stmt -> bool) (pt : tsType -> bool).
Hypothesis rule_quiet : forall s, ps s = true -> rule s = None.

(** A pass that meets no registration call leaves the tree and the flag
    as they are. *)
Lemma reg_quiet_all :
  (forall e, allE pe ps pt e = true -> regE rule e false = (e, false)) /\
  (forall p, allP pe ps pt p = true -> regP rule p false = (p, false)) /\
  (forall a, allA pe ps pt a = true -> regA rule a false = (a, false)) /\
  (forall b, allB pe ps pt b = true -> regB rule b false = (b, false)) /\
  (forall s, allS pe ps pt s = true -> regS rule s false = ([s], false)) /\
  (forall d, allD pe ps pt d = true -> regD rule d false = (d, false)).
Proof.
  apply ast_mutind; intros; use_options; simpl in *; split_andb; use_lists;
    rewrite ?rule_quiet by assumption;
    repeat match goal with
           | H : ?q = true -> _, H' : ?q = true |- _ => specialize (H H')
           end;
    repeat match goal with
           | H : regE _ _ _ = _ |- _ => rewrite H; clear H
           | H : regA _ _ _ = _ |- _ => rewrite H; clear H
           | H : regB _ _ _ = _ |- _ => rewrite H; clear H
           | H : Forall _ ?l |- context [mapAccum _ ?l false] =>
               rewrite (mapAccum_quiet _ _ l H) by assumption; clear H
           | H : Forall _ ?l |- context [flatMapAccum _ ?l false] =>
               rewrite (flatMapAccum_quiet _ _ l H) by assumption; clear H
           end; reflexivity.
Qed.

Lemma register_quiet p :
  allNodes pe ps pt p = true -> register rule p false = (p, false).
Proof.
  unfold register, allNodes. apply flatMapAccum_quiet, Forall_forall.
  intros s _. apply reg_quiet_all.
Qed.

End RegisterFacts.

Section AsyncFixed.
Import Ast Transform Normal.

Variables (decls vars : bool).
Variables (pe : expr -> bool) (ps : stmt -> bool) (pt : tsType -> bool).
Hypothesis ps_async : forall s, ps s = true -> asyncFree s = true.

Lemma forallb_both {A} (p q : A -> bool) l :
  forallb p l = true -> forallb q l = true ->
  forallb (fun x => p x && q x) l = true.
Proof.
  induction l as [|x l IH]; simpl; [trivial |].
  intros H1 H2. apply andb_true_iff in H1 as [Hp Hps].
  apply andb_true_iff in H2 as [Hq Hqs].
  now rewrite Hp, Hq, (IH Hps Hqs).
Qed.

Lemma markInit_fixed id e :
  negb (isHandlerId id && needsAsync e) = true -> markInit vars id e e = e.
Proof.
  unfold markInit. intros H.
  destruct vars; [| reflexivity]. simpl.
  destruct (isHandlerId id); [| reflexivity]. simpl in H.
  destruct e as [| | | |ps' body [|]|ps' body [|]| | | | |]; try reflexivity;
    simpl in H; apply negb_true_iff in H; now rewrite H.
Qed.

Lemma async_fixed_all :
  (forall e, allE pe ps pt e = true -> asyncE decls vars e = e) /\
  (forall p, allP pe ps pt p = true -> asyncP decls vars p = p) /\
  (forall a, allA pe ps pt a = true -> asyncA decls vars a = a) /\
  (forall b, allB pe ps pt b = true -> asyncB decls vars b = b) /\
  (forall s, allS pe ps pt s = true -> asyncS decls vars s = s) /\
  (forall d, allD pe ps pt d = true -> declFree d = true ->
             asyncD decls vars d = d).
Proof.
  apply ast_mutind; intros; use_options; simpl in *; split_andb; use_lists.
  all: repeat match goal with
         | H : ?q = true -> _, H' : ?q = true |- _ => specialize (H H')
         end.
  all: repeat match goal with
         | H : Forall _ ?l |- context [map _ ?l] =>
             rewrite (map_fixed _ _ l H) by assumption
         end.
  all: try congruence.
  - (* FunctionDeclaration *)
    match goal with H : asyncB _ _ _ = _ |- _ => rewrite H end.
    match goal with H : ps _ = true |- _ => apply ps_async in H; simpl in H;
      apply negb_true_iff in H; rename H into Hfree end.
    f_equal.
    destruct decls, (String.eqb id "handler"), async; simpl in *;
      congruence.
  - (* VariableDeclaration *)
    match goal with H : ps _ = true |- _ =>
      apply ps_async in H; simpl in H; rename H into Hfree end.
    f_equal. apply (map_fixed _ (fun d => allD pe ps pt d && declFree d)).
    + eapply Forall_impl; [eassumption |]. intros d Hd Hq.
      apply andb_true_iff in Hq as [? ?]. now apply Hd.
    + now apply forallb_both.
  - (* VariableDeclarator with an initialiser *)
    match goal with H : asyncE _ _ _ = _ |- _ => rewrite H end.
    now rewrite markInit_fixed.
Qed.

Lemma asyncWalk_fixed p :
  allNodes pe ps pt p = true -> asyncWalk decls vars p = p.
Proof.
  unfold asyncWalk, allNodes. intros H.
  apply (map_fixed _ (allS pe ps pt)); [| assumption].
  apply Forall_forall. intros s _. apply async_fixed_all.
Qed.

End AsyncFixed.

Section NormalForms.
Import Ast Transform Normal.

Lemma walk_fixed fe fs ft pe ps pt :
  (forall e, pe e = true -> fe e = None) ->
  (forall s, ps s = true -> fs s = None \/ fs s = Some [s]) ->
  (forall t, pt t = true -> ft t = None) ->
  forall p, allNodes pe ps pt p = true -> walk fe fs ft p = p.
Proof.
  intros He Hs Ht p H. unfold walk, allNodes in *.
  apply (flat_map_fixed _ (allS pe ps pt)); [| assumption].
  apply Forall_forall. intros s _.
  now apply (walk_fixed_all fe fs ft pe ps pt He Hs Ht).
Qed.

Lemma isNone_true {A} (o : option A) : isNone o = true -> o = None.
Proof. now destruct o. Qed.

Lemma exprFree_envGet e : exprFree e = true -> envGetRule e = None.
Proof. unfold exprFree. intros H. split_andb. now apply isNone_true. Qed.

Lemma exprFree_envToObject e : exprFree e = true -> envToObjectRule e = None.
Proof. unfold exprFree. intros H. split_andb. now apply isNone_true. Qed.

Lemma exprFree_dynamicImport e : exprFree e = true -> dynamicImportRule e = None.
Proof. unfold exprFree. intros H. split_andb. now apply isNone_true. Qed.

Lemma typeFree_denoType t : typeFree t = true -> denoTypeRule t = None.
Proof. apply isNone_true. Qed.

Lemma stmtFree_serve s : stmtFree s = true -> serveRule s = None.
Proof.
  unfold stmtFree, noTrigger. intros H. split_andb. now apply isNone_true.
Qed.

Lemma stmtFree_denoServe s : stmtFree s = true -> denoServeRule s = None.
Proof.
  unfold stmtFree, noTrigger. intros H. split_andb. now apply isNone_true.
Qed.

Lemma stmtFree_async s : stmtFree s = true -> asyncFree s = true.
Proof. unfold stmtFree. intros H. now split_andb. Qed.

Lemma stmtFree_importSource s :
  stmtFree s = true ->
  importSourceRule s = None \/ importSourceRule s = Some [s].
Proof.
  unfold stmtFree. intros H. split_andb.
  destruct s; simpl in *; auto. split_andb.
  right. repeat f_equal. now apply String.eqb_eq.
Qed.

Lemma stmtFree_relativeImport s :
  stmtFree s = true ->
  relativeImportRule s = None \/ relativeImportRule s = Some [s].
Proof.
  unfold stmtFree. intros H. split_andb.
  destruct s; simpl in *; auto. split_andb.
  right. repeat f_equal. now apply String.eqb_eq.
Qed.

Lemma filter_all {A} (q : A -> bool) l :
  forallb q l = true -> List.filter q l = l.
Proof.
  induction l as [|x l IH]; simpl; [reflexivity |].
  intros H. apply andb_true_iff in H as [Hx Hl]. now rewrite Hx, IH.
Qed.

Lemma stmtFree_serveImport s :
  stmtFree s = true ->
  serveImportRule s = None \/ serveImportRule s = Some [s].
Proof.
  unfold stmtFree. intros H. split_andb.
  destruct s as [specs source| | | | | | |]; try (now left).
  right. unfold importFree in *. unfold serveImportRule.
  destruct (existsb (fun x => Js.includes source x) serveImportSources);
    [| reflexivity].
  split_andb. simpl in *. split_andb. rewrite filter_all by assumption.
  destruct specs; [discriminate | reflexivity].
Qed.

(** The pipeline is the identity on a rewrite-free program. *)
Lemma transform_fixed p : rewriteFree p = true -> transform p = p.
Proof.
  unfold rewriteFree. intros H.
  assert (Hno_e : forall e, exprFree e = true -> noE e = None) by reflexivity.
  assert (Hno_s : forall s, stmtFree s = true ->
                            noS s = None \/ noS s = Some [s]) by (now left).
  assert (Hno_t : forall t, typeFree t = true -> noT t = None) by reflexivity.
  unfold transform, beforeRegistration, registration, afterRegistration.
  rewrite (walk_fixed noE importSourceRule noT _ _ _ Hno_e
             stmtFree_importSource Hno_t p H).
  rewrite (walk_fixed envGetRule noS noT _ _ _ exprFree_envGet Hno_s Hno_t p H).
  rewrite (walk_fixed envToObjectRule noS noT _ _ _ exprFree_envToObject
             Hno_s Hno_t p H).
  rewrite (walk_fixed noE serveImportRule noT _ _ _ Hno_e
             stmtFree_serveImport Hno_t p H).
  rewrite (register_quiet serveRule _ _ _ stmtFree_serve p H).
  rewrite (register_quiet denoServeRule _ _ _ stmtFree_denoServe p H).
  cbn [fst].
  rewrite (walk_fixed noE noS denoTypeRule _ _ _ Hno_e Hno_s
             typeFree_denoType p H).
  rewrite (walk_fixed noE relativeImportRule noT _ _ _ Hno_e
             stmtFree_relativeImport Hno_t p H).
  rewrite (walk_fixed dynamicImportRule noS noT _ _ _ exprFree_dynamicImport
             Hno_s Hno_t p H).
  rewrite (asyncWalk_fixed true false _ _ _ stmtFree_async p H).
  now rewrite (asyncWalk_fixed false true _ _ _ stmtFree_async p H).
Qed.

End NormalForms.

Section Idempotence.
Import Ast Transform Normal.

Example twoRegistrations_once :
  transform twoRegistrations
  = [ExportDefaultDeclaration (Identifier "first"); denoServeCall "second"].
Proof. reflexivity. Qed.

Example twoRegistrations_twice :
  transform (transform twoRegistrations)
  = [ ExportDefaultDeclaration (Identifier "first");
      ExportDefaultDeclaration (Identifier "second") ].
Proof. reflexivity. Qed.

Example stacked_prefix_twice :
  transform (transform [ImportDeclaration [ImportDefaultSpecifier "x"] "npm:npm:lodash"])
  <> transform [ImportDeclaration [ImportDefaultSpecifier "x"] "npm:npm:lodash"].
Proof. vm_compute. discriminate. Qed.

End Idempotence.




(** ** Counting default exports through the passes *)

Section WalkExports.
Import Ast Transform.

Variables (fe : expr -> option expr)
          (fs : stmt -> option (list stmt))
          (ft : tsType -> option tsType).

(** [R] is [<=] for a rule that may drop sub-trees and [=] for a rule
    that keeps them. *)
Variable R : nat -> nat -> Prop.
Hypothesis R_refl : forall n, R n n.
Hypothesis R_plus : forall a b c d, R a b -> R c d -> R (a + c) (b + d).
Hypothesis fe_exports : forall e e', fe e = Some e' -> R (exportsE e') (exportsE e).
Hypothesis fs_exports :
  forall s nodes, fs s = Some nodes ->
                  R (list_sum (map exportsS nodes)) (exportsS s).

Lemma R_sum {A} (f : A -> A) (ex : A -> nat) l :
  Forall (fun x => R (ex (f x)) (ex x)) l ->
  R (list_sum (map ex (map f l))) (list_sum (map ex l)).
Proof.
  induction 1 as [|x l Hx _ IH]; simpl; [apply R_refl | now apply R_plus].
Qed.

Lemma R_flat_sum {A} (f : A -> list A) (ex : A -> nat) l :
  Forall (fun x => R (list_sum (map ex (f x))) (ex x)) l ->
  R (list_sum (map ex (flat_map f l))) (list_sum (map ex l)).
Proof.
  induction 1 as [|x l Hx _ IH]; simpl; [apply R_refl |].
  rewrite map_app, list_sum_app. now apply R_plus.
Qed.

Lemma walk_exports_all :
  (forall e, R (exportsE (walkE fe fs ft e)) (exportsE e)) /\
  (forall p, R (exportsP (walkP fe fs ft p)) (exportsP p)) /\
  (forall a, R (exportsA (walkA fe fs ft a)) (exportsA a)) /\
  (forall b, R (exportsB (walkB fe fs ft b)) (exportsB b)) /\
  (forall s, R (list_sum (map exportsS (walkS fe fs ft s))) (exportsS s)) /\
  (forall d, R (exportsD (walkD fe fs ft d)) (exportsD d)).
Proof.
  apply ast_mutind; intros; use_options; use_lists; simpl.
  all: try match goal with
           | |- context [fe ?e] =>
               destruct (fe e) as [e'|] eqn:Hfe;
               [now apply (fe_exports _ _ Hfe) |]
           | |- context [fs ?s] =>
               destruct (fs s) as [nodes|] eqn:Hfs;
               [now apply (fs_exports _ _ Hfs) |]
           end.
  all: simpl; rewrite ?Nat.add_0_r.
  all: repeat first [ apply R_refl | assumption
                    | apply R_plus | apply R_sum | apply R_flat_sum ].
  now apply (R_plus 1 1), H.
Qed.

Lemma walk_exports p :
  R (countDefaultExports (walk fe fs ft p)) (countDefaultExports p).
Proof.
  unfold countDefaultExports, walk. apply R_flat_sum, Forall_forall.
  intros s _. apply walk_exports_all.
Qed.

End WalkExports.

Section AsyncExports.
Import Ast Transform.
Variables (decls vars : bool).

Lemma sum_map_eq {A} (f : A -> A) (ex : A -> nat) l :
  Forall (fun x => ex (f x) = ex x) l ->
  list_sum (map ex (map f l)) = list_sum (map ex l).
Proof.
  induction 1 as [|x l Hx _ IH]; simpl; [reflexivity | now rewrite Hx, IH].
Qed.

Lemma markInit_exports id e e' :
  exportsE (markInit vars id e e') = exportsE e'.
Proof.
  unfold markInit. destruct (vars && isHandlerId id); [| reflexivity].
  destruct e as [| | | |? ? [|]|? ? [|]| | | | |]; try reflexivity;
    destruct e'; reflexivity.
Qed.

Lemma async_exports_all :
  (forall e, exportsE (asyncE decls vars e) = exportsE e) /\
  (forall p, exportsP (asyncP decls vars p) = exportsP p) /\
  (forall a, exportsA (asyncA decls vars a) = exportsA a) /\
  (forall b, exportsB (asyncB decls vars b) = exportsB b) /\
  (forall s, exportsS (asyncS decls vars s) = exportsS s) /\
  (forall d, exportsD (asyncD decls vars d) = exportsD d).
Proof.
  apply ast_mutind; intros; use_options; use_lists; simpl;
    rewrite ?markInit_exports;
    repeat match goal with
           | H : Forall _ ?l |- context [map _ (map _ ?l)] =>
               rewrite (sum_map_eq _ _ l H); clear H
           end;
    congruence.
Qed.

Lemma asyncWalk_exports p :
  countDefaultExports (asyncWalk decls vars p) = countDefaultExports p.
Proof.
  unfold countDefaultExports, asyncWalk. apply sum_map_eq, Forall_forall.
  intros s _. apply async_exports_all.
Qed.

End AsyncExports.

Section RegisterInvariants.
Import Ast Transform.

Variable rule : stmt -> option (list stmt).

(** What a pass does to the flag and to a node: the flag only rises, and
    a node is touched only by a pass that raises it. *)
Definition steady {A B} (inj : A -> B) (f : A -> bool -> B * bool) (x : A) : Prop :=
  forall b x' b', f x b = (x', b') ->
    (b = true -> b' = true) /\ (b' = false -> x' = inj x).

Lemma mapAccum_steady {A} (f : A -> bool -> A * bool) l :
  Forall (steady (fun x => x) f) l -> steady (fun l => l) (mapAccum f) l.
Proof.
  induction 1 as [|x l Hx _ IH]; intros b l' b'; simpl.
  - intros [= <- <-]. auto.
  - destruct (f x b) as [x1 b1] eqn:E1.
    destruct (mapAccum f l b1) as [l1 b2] eqn:E2.
    intros [= <- <-].
    destruct (Hx _ _ _ E1) as [Hx1 Hx2], (IH _ _ _ E2) as [Hl1 Hl2].
    split; [auto |]. intros ->.
    destruct b1; [discriminate (Hl1 eq_refl) |].
    now rewrite Hx2, Hl2.
Qed.

Lemma flatMapAccum_steady {A} (f : A -> bool -> list A * bool) l :
  Forall (steady (fun x => [x]) f) l -> steady (fun l => l) (flatMapAccum f) l.
Proof.
  induction 1 as [|x l Hx _ IH]; intros b l' b'; simpl.
  - intros [= <- <-]. auto.
  - destruct (f x b) as [x1 b1] eqn:E1.
    destruct (flatMapAccum f l b1) as [l1 b2] eqn:E2.
    intros [= <- <-].
    destruct (Hx _ _ _ E1) as [Hx1 Hx2], (IH _ _ _ E2) as [Hl1 Hl2].
    split; [auto |]. intros ->.
    destruct b1; [discriminate (Hl1 eq_refl) |].
    now rewrite Hx2, Hl2.
Qed.

Ltac open_pairs :=
  repeat match goal with
         | |- context [let '(_, _) := ?c in _] =>
             let E := fresh "E" in destruct c as [? ?] eqn:E
         end.

Ltac use_steady :=
  repeat match goal with
         | H : steady _ ?f ?x, E : ?f ?x _ = _ |- _ =>
             apply H in E; destruct E as [? ?]
         | H : Forall (steady _ ?f) ?l, E : mapAccum ?f ?l _ = _ |- _ =>
             apply (mapAccum_steady f l H) in E; destruct E as [? ?]
         | H : Forall (steady _ ?f) ?l, E : flatMapAccum ?f ?l _ = _ |- _ =>
             apply (flatMapAccum_steady f l H) in E; destruct E as [? ?]
         end.

Ltac settle_flags :=
  repeat match goal with
         | b : bool |- _ => destruct b
         end;
  repeat match goal with
         | H : true = true -> _ |- _ => specialize (H eq_refl)
         | H : false = false -> _ |- _ => specialize (H eq_refl)
         | H : true = false -> _ |- _ => clear H
         | H : false = true -> _ |- _ => clear H
         end;
  subst; try discriminate; try (split; [congruence | congruence]).

Lemma reg_steady_all :
  (forall e, steady (fun x => x) (regE rule) e) /\
  (forall p, steady (fun x => x) (regP rule) p) /\
  (forall a, steady (fun x => x) (regA rule) a) /\
  (forall b, steady (fun x => x) (regB rule) b) /\
  (forall s, steady (fun x => [x]) (regS rule) s) /\
  (forall d, steady (fun x => x) (regD rule) d).
Proof.
  apply ast_mutind; intros; use_options; use_lists;
    intros b0 x' b'; simpl.
  all: try (destruct b0; [intros [= <- <-]; split; [auto | discriminate] |];
            destruct (rule _); [intros [= <- <-]; split; [auto | discriminate] |]).
  all: open_pairs; intros [= <- <-]; use_steady; settle_flags.
Qed.

End RegisterInvariants.

Section RegisterExports.
Import Ast Transform.

Variable rule : stmt -> option (list stmt).
Hypothesis rule_exports :
  forall s nodes, rule s = Some nodes ->
    1 <= list_sum (map exportsS nodes) <= exportsS s + 1.

(** One more default export when the flag rises, none otherwise. *)
Definition bump (b b' : bool) : nat := if negb b && b' then 1 else 0.

Definition counted {A B} (ex : A -> nat) (ex' : B -> nat)
    (f : A -> bool -> B * bool) (x : A) : Prop :=
  forall b x' b', f x b = (x', b') ->
    (b = true -> b' = true) /\
    ex' x' <= ex x + bump b b' /\ (bump b b' = 1 -> 1 <= ex' x').

Lemma mapAccum_counted {A} (ex : A -> nat) (f : A -> bool -> A * bool) l :
  Forall (counted ex ex f) l ->
  counted (fun l => list_sum (map ex l)) (fun l => list_sum (map ex l))
          (mapAccum f) l.
Proof.
  induction 1 as [|x l Hx _ IH]; intros b l' b'; simpl.
  - intros [= <- <-]. unfold bump. destruct b; simpl; repeat split; auto; lia.
  - destruct (f x b) as [x1 b1] eqn:E1.
    destruct (mapAccum f l b1) as [l1 b2] eqn:E2.
    intros [= <- <-].
    destruct (Hx _ _ _ E1) as (Hx1 & Hx2 & Hx3), (IH _ _ _ E2) as (Hl1 & Hl2 & Hl3).
    unfold bump in *. simpl.
    destruct b, b1, b2; simpl in *;
      try discriminate (Hx1 eq_refl); try discriminate (Hl1 eq_refl);
      repeat split; auto; try lia;
      intros _; try specialize (Hx3 eq_refl); try specialize (Hl3 eq_refl); lia.
Qed.

Lemma flatMapAccum_counted {A} (ex : A -> nat) (f : A -> bool -> list A * bool) l :
  Forall (counted ex (fun l => list_sum (map ex l)) f) l ->
  counted (fun l => list_sum (map ex l)) (fun l => list_sum (map ex l))
          (flatMapAccum f) l.
Proof.
  induction 1 as [|x l Hx _ IH]; intros b l' b'; simpl.
  - intros [= <- <-]. unfold bump. destruct b; simpl; repeat split; auto; lia.
  - destruct (f x b) as [x1 b1] eqn:E1.
    destruct (flatMapAccum f l b1) as [l1 b2] eqn:E2.
    intros [= <- <-]. rewrite map_app, list_sum_app.
    destruct (Hx _ _ _ E1) as (Hx1 & Hx2 & Hx3), (IH _ _ _ E2) as (Hl1 & Hl2 & Hl3).
    unfold bump in *. simpl.
    destruct b, b1, b2; simpl in *;
      try discriminate (Hx1 eq_refl); try discriminate (Hl1 eq_refl);
      repeat split; auto; try lia;
      intros _; try specialize (Hx3 eq_refl); try specialize (Hl3 eq_refl); lia.
Qed.

Ltac open_pairs :=
  repeat match goal with
         | |- context [let '(_, _) := ?c in _] =>
             let E := fresh "E" in destruct c as [? ?] eqn:E
         end.

Ltac use_counted :=
  repeat match goal with
         | H : counted _ _ ?f ?x, E : ?f ?x _ = _ |- _ =>
             apply H in E; destruct E as (? & ? & ?)
         | H : Forall (counted _ _ ?f) ?l, E : mapAccum ?f ?l _ = _ |- _ =>
             apply (mapAccum_counted _ f l H) in E; destruct E as (? & ? & ?)
         | H : Forall (counted _ _ ?f) ?l, E : flatMapAccum ?f ?l _ = _ |- _ =>
             apply (flatMapAccum_counted _ f l H) in E; destruct E as (? & ? & ?)
         end.

Ltac settle_counts :=
  unfold bump in *;
  repeat match goal with
         | b : bool |- _ => destruct b
         end;
  simpl in *;
  repeat match goal with
         | H : true = true -> _ |- _ => specialize (H eq_refl)
         | H : 1 = 1 -> _ |- _ => specialize (H eq_refl)
         | H : false = true -> _ |- _ => clear H
         | H : 0 = 1 -> _ |- _ => clear H
         end;
  try discriminate; repeat split; intros; try reflexivity; try lia.

Lemma reg_counted_all :
  (forall e, counted exportsE exportsE (regE rule) e) /\
  (forall p, counted exportsP exportsP (regP rule) p) /\
  (forall a, counted exportsA exportsA (regA rule) a) /\
  (forall b, counted exportsB exportsB (regB rule) b) /\
  (forall s, counted exportsS (fun l => list_sum (map exportsS l)) (regS rule) s) /\
  (forall d, counted exportsD exportsD (regD rule) d).
Proof.
  apply ast_mutind; intros; use_options; use_lists;
    intros b0 x' b'; simpl.
  all: try (destruct b0;
            [intros [= <- <-]; unfold bump; simpl; repeat split; auto; lia |];
            destruct (rule _) as [nodes|] eqn:Hrule;
            [intros [= <- <-]; apply rule_exports in Hrule; simpl in Hrule;
             unfold bump; simpl; repeat split; auto; lia |]).
  all: open_pairs; intros [= <- <-]; use_counted; settle_counts.
Qed.

Lemma register_counted p : forall b p' b',
  register rule p b = (p', b') ->
  (b = true -> b' = true) /\
  countDefaultExports p' <= countDefaultExports p + bump b b' /\
  (bump b b' = 1 -> 1 <= countDefaultExports p').
Proof.
  unfold register, countDefaultExports.
  apply (flatMapAccum_counted exportsS (regS rule) p), Forall_forall.
  intros s _. apply reg_counted_all.
Qed.

End RegisterExports.

(** ** The two registration rules *)

Section RegistrationRules.
Import Ast Transform Normal.

Lemma emitHandler_exports arg nodes :
  emitHandler arg = Some nodes ->
  list_sum (map exportsS nodes) = exportsE arg + 1.
Proof.
  destruct arg as [name| | | |ps body a|ps body a| | | | |];
    try discriminate; intros [= <-]; simpl; try lia.
  destruct body; simpl; lia.
Qed.

Lemma findHandlerProp_exports props v :
  findHandlerProp props = Some v ->
  exportsE v <= list_sum (map exportsP props).
Proof.
  induction props as [|[k w] props IH]; simpl; [discriminate |].
  destruct k; try (intros H; specialize (IH H); lia).
  destruct (String.eqb name "handler").
  - intros [= ->]. lia.
  - intros H. specialize (IH H). lia.
Qed.

Lemma denoHandlerArg_exports args h :
  denoHandlerArg args = Some h ->
  exportsE h <= list_sum (map exportsE args).
Proof.
  unfold denoHandlerArg.
  destruct args as [|a [|b rest]]; [discriminate | |].
  - destruct a; try (intros [= <-]; simpl; lia).
    destruct (findHandlerProp properties) as [v|] eqn:E.
    + intros [= <-]. apply findHandlerProp_exports in E. simpl. lia.
    + intros [= <-]. simpl. lia.
  - destruct b; try (intros [= <-]; simpl; lia).
    destruct (findHandlerProp properties) as [v|] eqn:E.
    + intros [= <-]. apply findHandlerProp_exports in E. simpl. lia.
    + intros [= <-]. simpl. lia.
Qed.

Lemma serveRule_statement s nodes :
  serveRule s = Some nodes -> exists e, s = ExpressionStatement e.
Proof. destruct s; try discriminate. eauto. Qed.

Lemma denoServeRule_statement s nodes :
  denoServeRule s = Some nodes -> exists e, s = ExpressionStatement e.
Proof. destruct s; try discriminate. eauto. Qed.

Lemma serveRule_exports s nodes :
  serveRule s = Some nodes ->
  1 <= list_sum (map exportsS nodes) <= exportsS s + 1.
Proof.
  destruct s as [|e| | | | | |]; try discriminate.
  destruct e as [| | |c args| | | | | | |]; try discriminate.
  destruct c as [callee| | | | | | | | | |]; try discriminate.
  unfold serveRule. destruct (String.eqb callee "serve"); [| discriminate].
  destruct args as [|arg rest]; [discriminate |].
  intros H. apply emitHandler_exports in H. simpl. lia.
Qed.

Lemma denoServeRule_exports s nodes :
  denoServeRule s = Some nodes ->
  1 <= list_sum (map exportsS nodes) <= exportsS s + 1.
Proof.
  destruct s as [|e| | | | | |]; try discriminate.
  destruct e as [| | |c args| | | | | | |]; try discriminate.
  destruct c as [| |o p cc| | | | | | | |]; try discriminate.
  destruct o as [o| | | | | | | | | |]; try discriminate.
  destruct p as [p| | | | | | | | | |]; try discriminate.
  unfold denoServeRule.
  destruct (String.eqb o "Deno" && String.eqb p "serve"); [| discriminate].
  destruct (denoHandlerArg args) as [h|] eqn:E; [| discriminate].
  intros H. apply emitHandler_exports in H.
  apply denoHandlerArg_exports in E. simpl. lia.
Qed.

End RegistrationRules.

Section FirstMatch.
Import Ast Transform Normal.

Variable rule : stmt -> option (list stmt).
Hypothesis rule_statement :
  forall s nodes, rule s = Some nodes -> exists e, s = ExpressionStatement e.

Lemma regS_fires s nodes :
  rule s = Some nodes -> regS rule s false = (nodes, true).
Proof.
  intros H. destruct (rule_statement _ _ H) as [e ->].
  simpl. now rewrite H.
Qed.

Lemma flatMapAccum_app {A} (f : A -> bool -> list A * bool) l1 l2 b :
  flatMapAccum f (l1 ++ l2)%list b
  = let '(r1, b1) := flatMapAccum f l1 b in
    let '(r2, b2) := flatMapAccum f l2 b1 in
    ((r1 ++ r2)%list, b2).
Proof.
  revert b. induction l1 as [|x l1 IH]; intros b; simpl.
  - now destruct (flatMapAccum f l2 b).
  - destruct (f x b) as [xs b1]. rewrite IH.
    destruct (flatMapAccum f l1 b1) as [r1 b2].
    destruct (flatMapAccum f l2 b2) as [r2 b3].
    now rewrite <- List.app_assoc.
Qed.

(** The pass rewrites the first registration call it meets: with none in
    the statements before [s], at any depth, [s] is the one replaced and
    everything after it is kept. *)
Lemma register_first pre s post nodes :
  allNodes (fun _ => true) (fun x => isNone (rule x)) (fun _ => true) pre = true ->
  rule s = Some nodes ->
  register rule (pre ++ s :: post)%list false
  = ((pre ++ nodes ++ post)%list, true).
Proof.
  intros Hpre Hs. unfold register. rewrite flatMapAccum_app.
  fold (register rule pre false).
  rewrite (register_quiet rule _ _ _ (fun x => isNone_true (rule x)) pre Hpre).
  simpl. rewrite (regS_fires _ _ Hs).
  fold (register rule post true). now rewrite register_exported.
Qed.

(** A registration call among the statements of the program raises the
    flag. *)
Lemma register_raises p :
  existsb (fun s => negb (isNone (rule s))) p = true ->
  (register rule p false).2 = true.
Proof.
  unfold register. induction p as [|x p IH]; simpl; [discriminate |].
  intros H. destruct (regS rule x false) as [xs b1] eqn:E1.
  destruct b1.
  - fold (register rule p true). now rewrite register_exported.
  - apply orb_true_iff in H as [H | H].
    + destruct (rule x) as [nodes|] eqn:Hx; [| discriminate].
      rewrite (regS_fires _ _ Hx) in E1. discriminate.
    + specialize (IH H). now destruct (flatMapAccum (regS rule) p false).
Qed.

End FirstMatch.

Section RegistrationOrder.
Import Ast Transform Normal.

Lemma registration_exported_bound p :
  countDefaultExports (registration p).1 <= countDefaultExports p + 1.
Proof.
  unfold registration.
  destruct (register serveRule p false) as [p5 b5] eqn:E5.
  destruct (register denoServeRule p5 b5) as [p6 b6] eqn:E6.
  apply (register_counted _ serveRule_exports) in E5 as (_ & H5 & _).
  apply (register_counted _ denoServeRule_exports) in E6 as (H6a & H6 & _).
  unfold bump in *. simpl. destruct b5, b6; simpl in *; lia.
Qed.

Lemma registration_serve_first pre s post nodes :
  serveFree pre = true -> serveRule s = Some nodes ->
  registration (pre ++ s :: post)%list = ((pre ++ nodes ++ post)%list, true).
Proof.
  intros Hpre Hs. unfold registration.
  rewrite (register_first serveRule serveRule_statement _ _ _ _ Hpre Hs).
  apply register_exported.
Qed.

Lemma registration_deno_first pre s post nodes :
  serveFree (pre ++ s :: post)%list = true -> denoServeFree pre = true ->
  denoServeRule s = Some nodes ->
  registration (pre ++ s :: post)%list = ((pre ++ nodes ++ post)%list, true).
Proof.
  intros Hall Hpre Hs. unfold registration.
  rewrite (register_quiet serveRule _ _ _ (fun x => isNone_true (serveRule x))
             _ Hall).
  now apply (register_first denoServeRule denoServeRule_statement).
Qed.

End RegistrationOrder.




(** ** Registration calls through the earlier rules *)

Section CalmHooks.
Import Ast Transform Normal.

(** The nodes an expression hook of the pipeline can replace, and what it
    puts in their place. *)
Definition firesOn (e : expr) : bool :=
  match e with
  | CallExpression (MemberExpression (MemberExpression _ _ _) _ _) _ => true
  | ImportExpression _ => true
  | _ => false
  end.

Definition inert (e : expr) : bool :=
  match e with
  | LogicalExpression _ _ _ | ImportExpression _ => true
  | MemberExpression (Identifier o) _ _ => negb (String.eqb o "Deno")
  | _ => false
  end.

Definition calm (fe : expr -> option expr) : Prop :=
  forall e e', fe e = Some e' -> firesOn e = true /\ inert e' = true.

Lemma calm_noE : calm noE.
Proof. intros e e' H. discriminate H. Qed.

Lemma isDenoEnvCallee_fires m callee args :
  isDenoEnvCallee m callee = true -> firesOn (CallExpression callee args) = true.
Proof.
  destruct callee as [| |o p c| | | | | | | |]; try discriminate.
  destruct o; try discriminate. reflexivity.
Qed.

Lemma calm_envGet : calm envGetRule.
Proof.
  intros e e'. destruct e; try discriminate. simpl.
  destruct (isDenoEnvCallee "get" e) eqn:E; [| discriminate].
  intros [= <-]. split; [| reflexivity].
  now apply (isDenoEnvCallee_fires "get" e arguments).
Qed.

Lemma calm_envToObject : calm envToObjectRule.
Proof.
  intros e e'. destruct e; try discriminate. simpl.
  destruct (isDenoEnvCallee "toObject" e) eqn:E; [| discriminate].
  intros [= <-]. split; [| reflexivity].
  now apply (isDenoEnvCallee_fires "toObject" e arguments).
Qed.

Variables (fe : expr -> option expr)
          (fs : stmt -> option (list stmt))
          (ft : tsType -> option tsType).
Hypothesis fe_calm : calm fe.

Lemma calm_quiet e : firesOn e = false -> fe e = None.
Proof.
  intros H. destruct (fe e) as [e'|] eqn:E; [| reflexivity].
  apply fe_calm in E as [E _]. congruence.
Qed.

Lemma inert_emitHandler e : inert e = true -> emitHandler e = None.
Proof. destruct e; try discriminate; reflexivity. Qed.

Lemma fires_emitHandler e : firesOn e = true -> emitHandler e = None.
Proof. destruct e; try discriminate; reflexivity. Qed.

(** A hook neither makes nor unmakes a handler argument. *)
Lemma walkE_emitHandler e :
  isNone (emitHandler (walkE fe fs ft e)) = isNone (emitHandler e).
Proof.
  destruct (fe e) as [e'|] eqn:E.
  - destruct (fe_calm _ _ E) as [Hf Hi].
    rewrite (fires_emitHandler _ Hf).
    destruct e; simpl; rewrite E; now rewrite inert_emitHandler.
  - destruct e; simpl; rewrite E; reflexivity.
Qed.

Lemma walkE_identifier e n :
  walkE fe fs ft e = Identifier n <-> e = Identifier n.
Proof.
  split.
  - destruct (fe e) as [e'|] eqn:E.
    + destruct (fe_calm _ _ E) as [_ Hi].
      destruct e; simpl; rewrite E; intros ->; discriminate Hi.
    + destruct e; simpl; rewrite E; try discriminate. trivial.
  - intros ->. simpl. now rewrite calm_quiet.
Qed.

Lemma walkE_object e props' :
  walkE fe fs ft e = ObjectExpression props' ->
  exists props, e = ObjectExpression props
                /\ props' = map (walkP fe fs ft) props.
Proof.
  destruct (fe e) as [e'|] eqn:E.
  - destruct (fe_calm _ _ E) as [_ Hi].
    destruct e; simpl; rewrite E; intros ->; discriminate Hi.
  - destruct e; simpl; rewrite E; try discriminate.
    intros [= <-]. eauto.
Qed.

Lemma walkE_object_fwd props :
  walkE fe fs ft (ObjectExpression props)
  = ObjectExpression (map (walkP fe fs ft) props).
Proof. simpl. now rewrite calm_quiet. Qed.

(** The result of the [handler] property search, as far as the rule
    looks at it. *)
Definition propFires (props : list property) : option bool :=
  match findHandlerProp props with
  | Some v => Some (isNone (emitHandler v))
  | None => None
  end.

Lemma findHandlerProp_other k v rest :
  (forall n, k <> Identifier n) ->
  findHandlerProp (ObjectProperty k v :: rest) = findHandlerProp rest.
Proof. intros H. destruct k; try reflexivity. now destruct (H name). Qed.

Lemma walkP_findHandlerProp props :
  findHandlerProp (map (walkP fe fs ft) props)
  = option_map (walkE fe fs ft) (findHandlerProp props).
Proof.
  induction props as [|[k v] props IH]; [reflexivity |].
  change (map (walkP fe fs ft) (ObjectProperty k v :: props))
    with (ObjectProperty (walkE fe fs ft k) (walkE fe fs ft v)
            :: map (walkP fe fs ft) props).
  destruct (walkE fe fs ft k) as [n| | | | | | | | | |] eqn:Ek.
  1:{ apply walkE_identifier in Ek as ->. cbn [findHandlerProp].
      destruct (String.eqb n "handler"); [reflexivity | exact IH]. }
  all: rewrite findHandlerProp_other by discriminate;
    rewrite (findHandlerProp_other k);
    [exact IH | intros n ->; rewrite (proj2 (walkE_identifier _ n) eq_refl) in Ek;
                discriminate Ek].
Qed.

Lemma walkP_propFires props :
  propFires (map (walkP fe fs ft) props) = propFires props.
Proof.
  unfold propFires. rewrite walkP_findHandlerProp.
  destruct (findHandlerProp props); [| reflexivity].
  cbn [option_map]. now rewrite walkE_emitHandler.
Qed.

(** Whether the handler argument of [Deno.serve] makes the rule fire. *)
Definition handlerFires (args : list expr) : bool :=
  match denoHandlerArg args with
  | Some h => negb (isNone (emitHandler h))
  | None => false
  end.

Lemma positional_fires (x : expr) :
  match
    match walkE fe fs ft x with
    | ObjectExpression props =>
        match findHandlerProp props with
        | Some v => Some v
        | None => Some (walkE fe fs ft x)
        end
    | _ => Some (walkE fe fs ft x)
    end
  with
  | Some h => negb (isNone (emitHandler h))
  | None => false
  end
  = match
      match x with
      | ObjectExpression props =>
          match findHandlerProp props with
          | Some v => Some v
          | None => Some x
          end
      | _ => Some x
      end
    with
    | Some h => negb (isNone (emitHandler h))
    | None => false
    end.
Proof.
  destruct x as [| | | | | |props| | | |];
    try (destruct (walkE fe fs ft _) eqn:Ew;
         try (apply walkE_object in Ew as (? & ? & _); discriminate);
         rewrite <- Ew, walkE_emitHandler; reflexivity).
  rewrite walkE_object_fwd.
  pose proof (walkP_propFires props) as Hp. unfold propFires in Hp.
  destruct (findHandlerProp (map (walkP fe fs ft) props)),
           (findHandlerProp props); try discriminate Hp; [| reflexivity].
  injection Hp as Hp. now rewrite Hp.
Qed.

Lemma walkE_handlerFires args :
  handlerFires (map (walkE fe fs ft) args) = handlerFires args.
Proof.
  unfold handlerFires, denoHandlerArg.
  destruct args as [|a [|b rest]]; [reflexivity | |]; cbn [map];
    apply positional_fires.
Qed.

End CalmHooks.

Section TriggerInvariance.
Import Ast Transform Normal.

Variables (fe : expr -> option expr)
          (fs : stmt -> option (list stmt))
          (ft : tsType -> option tsType).
Hypothesis fe_calm : calm fe.

Definition calleeIsServe (c : expr) : bool :=
  match c with
  | Identifier n => String.eqb n "serve"
  | _ => false
  end.

(** [c] is the member expression [Deno.prop] of two identifiers. *)
Definition isDenoMember (prop : string) (c : expr) : bool :=
  match c with
  | MemberExpression (Identifier o) (Identifier p) _ =>
      String.eqb o "Deno" && String.eqb p prop
  | _ => false
  end.

Definition calleeIsDenoServe (c : expr) : bool := isDenoMember "serve" c.

Definition argFires (args : list expr) : bool :=
  match args with
  | arg :: _ => negb (isNone (emitHandler arg))
  | [] => false
  end.

(** Whether an expression statement is a registration call, read off
    its expression. *)
Definition exprTriggers (e : expr) : bool :=
  match e with
  | CallExpression c args =>
      (calleeIsServe c && argFires args)
      || (calleeIsDenoServe c && handlerFires args)
  | _ => false
  end.

Lemma serveRule_isNone e :
  isNone (serveRule (ExpressionStatement e))
  = match e with
    | CallExpression c args => negb (calleeIsServe c && argFires args)
    | _ => true
    end.
Proof.
  destruct e as [| | |c args| | | | | | |]; try reflexivity.
  destruct c as [n| | | | | | | | | |]; try reflexivity.
  simpl. destruct (String.eqb n "serve"); [| reflexivity].
  destruct args as [|arg rest]; [reflexivity |]. simpl.
  now destruct (emitHandler arg).
Qed.

Lemma denoServeRule_isNone e :
  isNone (denoServeRule (ExpressionStatement e))
  = match e with
    | CallExpression c args => negb (calleeIsDenoServe c && handlerFires args)
    | _ => true
    end.
Proof.
  destruct e as [| | |c args| | | | | | |]; try reflexivity.
  destruct c as [| |o p cc| | | | | | | |]; try reflexivity.
  destruct o as [o| | | | | | | | | |]; try reflexivity.
  destruct p as [p| | | | | | | | | |];
    try (simpl; rewrite ?andb_false_r; reflexivity).
  unfold denoServeRule, calleeIsDenoServe, isDenoMember, handlerFires.
  destruct (String.eqb o "Deno" && String.eqb p "serve"); [| reflexivity].
  simpl. destruct (denoHandlerArg args) as [h|]; [| reflexivity].
  now destruct (emitHandler h).
Qed.

Lemma noTrigger_statement e :
  noTrigger (ExpressionStatement e) = negb (exprTriggers e).
Proof.
  unfold noTrigger. rewrite serveRule_isNone, denoServeRule_isNone.
  destruct e; try reflexivity. simpl. now rewrite negb_orb.
Qed.

Lemma noTrigger_other s :
  (forall e, s <> ExpressionStatement e) -> noTrigger s = true.
Proof. intros H. destruct s; try reflexivity. now destruct (H expression). Qed.

Lemma walkE_fired e e' : fe e = Some e' -> walkE fe fs ft e = e'.
Proof. intros E. destruct e; simpl; now rewrite E. Qed.

Lemma walkE_calleeIsServe c :
  calleeIsServe (walkE fe fs ft c) = calleeIsServe c.
Proof.
  destruct (walkE fe fs ft c) as [n| | | | | | | | | |] eqn:Ec.
  1:{ now apply walkE_identifier in Ec as ->. }
  all: destruct c; try reflexivity;
    rewrite (proj2 (walkE_identifier fe fs ft fe_calm _ name) eq_refl) in Ec;
    discriminate Ec.
Qed.

Lemma inert_not_denoMember prop e :
  inert e = true -> isDenoMember prop e = false.
Proof.
  destruct e as [| |o p c| | | | | | | |]; try reflexivity.
  destruct o as [o| | | | | | | | | |]; try reflexivity.
  simpl. intros H. apply negb_true_iff in H. rewrite H.
  now destruct p.
Qed.

Lemma fires_not_denoMember prop e :
  firesOn e = true -> isDenoMember prop e = false.
Proof. destruct e; try discriminate; reflexivity. Qed.

Lemma walkE_isDenoMember prop c :
  isDenoMember prop (walkE fe fs ft c) = isDenoMember prop c.
Proof.
  destruct (fe c) as [e'|] eqn:E.
  - destruct (fe_calm _ _ E) as [Hf Hi].
    rewrite (walkE_fired _ _ E), (inert_not_denoMember _ _ Hi).
    now rewrite (fires_not_denoMember _ _ Hf).
  - destruct c as [| |o p cc| | | | | | | |]; simpl; rewrite E; try reflexivity.
    destruct (walkE fe fs ft o) as [n| | | | | | | | | |] eqn:Eo.
    1:{ apply walkE_identifier in Eo as ->; [| assumption].
        destruct (walkE fe fs ft p) as [m| | | | | | | | | |] eqn:Ep.
        1:{ apply walkE_identifier in Ep as ->; [reflexivity | assumption]. }
        all: destruct p; try reflexivity;
          rewrite (proj2 (walkE_identifier fe fs ft fe_calm _ name) eq_refl) in Ep;
          discriminate Ep. }
    all: destruct o; try reflexivity;
      rewrite (proj2 (walkE_identifier fe fs ft fe_calm _ name) eq_refl) in Eo;
      discriminate Eo.
Qed.

Lemma walkE_calleeIsDenoServe c :
  calleeIsDenoServe (walkE fe fs ft c) = calleeIsDenoServe c.
Proof. apply walkE_isDenoMember. Qed.

Lemma walkE_argFires args :
  argFires (map (walkE fe fs ft) args) = argFires args.
Proof.
  destruct args as [|arg rest]; [reflexivity |]. simpl.
  now rewrite walkE_emitHandler.
Qed.

Lemma inert_not_call e : inert e = true -> exprTriggers e = false.
Proof. destruct e; try discriminate; reflexivity. Qed.

Lemma fires_not_trigger e : firesOn e = true -> exprTriggers e = false.
Proof.
  destruct e as [| | |c args| | | | | | |]; try discriminate; try reflexivity.
  destruct c as [| |o p cc| | | | | | | |]; try discriminate.
  destruct o; try discriminate. reflexivity.
Qed.

(** A registration call stays one, and nothing becomes one. *)
Lemma walkE_exprTriggers e :
  exprTriggers (walkE fe fs ft e) = exprTriggers e.
Proof.
  destruct (fe e) as [e'|] eqn:E.
  - destruct (fe_calm _ _ E) as [Hf Hi].
    now rewrite (walkE_fired _ _ E), (inert_not_call _ Hi), (fires_not_trigger _ Hf).
  - destruct e as [| | |c args| | | | | | |]; simpl; rewrite E; try reflexivity.
    fold (walkE fe fs ft c).
    change (exprTriggers (CallExpression (walkE fe fs ft c)
                            (map (walkE fe fs ft) args))
            = exprTriggers (CallExpression c args)).
    unfold exprTriggers.
    now rewrite walkE_calleeIsServe, walkE_calleeIsDenoServe,
      walkE_argFires, (walkE_handlerFires fe fs ft fe_calm).
Qed.

End TriggerInvariance.

Section TriggerFreeWalk.
Import Ast Transform Normal.

Variables (fe : expr -> option expr)
          (fs : stmt -> option (list stmt))
          (ft : tsType -> option tsType).

Abbreviation yes := (fun _ => true).
Abbreviation tfE := (allE yes noTrigger yes).
Abbreviation tfP := (allP yes noTrigger yes).
Abbreviation tfA := (allA yes noTrigger yes).
Abbreviation tfB := (allB yes noTrigger yes).
Abbreviation tfS := (allS yes noTrigger yes).
Abbreviation tfD := (allD yes noTrigger yes).

Hypothesis fe_calm : calm fe.
Hypothesis fe_keeps : forall e e', tfE e = true -> fe e = Some e' -> tfE e' = true.
Hypothesis fs_keeps :
  forall s nodes, fs s = Some nodes -> forallb tfS nodes = true.
Hypothesis fs_statement : forall e, fs (ExpressionStatement e) = None.

Lemma allT_yes t : allT yes t = true.
Proof.
  induction t as [n ps IH | k ps IH]; simpl; use_lists;
    apply forallb_forall; intros x Hx;
    now apply (proj1 (Forall_forall _ _) IH), list_elem_of_In.
Qed.

Lemma allPat_yes p : allPat yes p = true.
Proof. destruct p as [n [t|] | k [t|]]; simpl; auto using allT_yes. Qed.

Lemma allPats_yes l : forallb (allPat yes) l = true.
Proof. apply forallb_forall. intros p _. apply allPat_yes. Qed.

Lemma forallb_map {A} (f : A -> A) (q : A -> bool) l :
  Forall (fun x => q x = true -> q (f x) = true) l ->
  forallb q l = true -> forallb q (map f l) = true.
Proof.
  induction 1 as [|x l Hx _ IH]; simpl; [trivial |].
  intros H. apply andb_true_iff in H as [H1 H2].
  now rewrite (Hx H1), (IH H2).
Qed.

Lemma forallb_flat_map {A} (f : A -> list A) (q : A -> bool) l :
  Forall (fun x => q x = true -> forallb q (f x) = true) l ->
  forallb q l = true -> forallb q (flat_map f l) = true.
Proof.
  induction 1 as [|x l Hx _ IH]; simpl; [trivial |].
  intros H. apply andb_true_iff in H as [H1 H2].
  rewrite forallb_app. now rewrite (Hx H1), (IH H2).
Qed.

Lemma forallb_map2 {A} (f : A -> A) (q r : A -> bool) l :
  Forall (fun x => q x = true -> r (f x) = true) l ->
  forallb q l = true -> forallb r (map f l) = true.
Proof.
  induction 1 as [|x l Hx _ IH]; simpl; [trivial |].
  intros H. apply andb_true_iff in H as [H1 H2].
  now rewrite (Hx H1), (IH H2).
Qed.

Lemma forallb_flat_map2 {A} (f : A -> list A) (q r : A -> bool) l :
  Forall (fun x => q x = true -> forallb r (f x) = true) l ->
  forallb q l = true -> forallb r (flat_map f l) = true.
Proof.
  induction 1 as [|x l Hx _ IH]; simpl; [trivial |].
  intros H. apply andb_true_iff in H as [H1 H2].
  rewrite forallb_app. now rewrite (Hx H1), (IH H2).
Qed.

Lemma walk_triggerFree_all :
  (forall e, tfE e = true -> tfE (walkE fe fs ft e) = true) /\
  (forall p, tfP p = true -> tfP (walkP fe fs ft p) = true) /\
  (forall a, tfA a = true -> tfA (walkA fe fs ft a) = true) /\
  (forall b, tfB b = true -> tfB (walkB fe fs ft b) = true) /\
  (forall s, tfS s = true -> forallb tfS (walkS fe fs ft s) = true) /\
  (forall d, tfD d = true -> tfD (walkD fe fs ft d) = true).
Proof.
  apply ast_mutind; intros; use_options; use_lists.
  all: try match goal with
           | H : tfE ?e = true |- tfE (walkE _ _ _ ?e) = true =>
               destruct (fe e) as [e'|] eqn:Hfe;
               [ rewrite (walkE_fired _ _ _ _ _ Hfe);
                 now apply (fe_keeps _ _ H Hfe) | ]
           | H : tfS ?s = true |- forallb tfS (walkS _ _ _ ?s) = true =>
               destruct (fs s) as [nodes|] eqn:Hfs;
               [ replace (walkS fe fs ft s) with nodes
                   by (destruct s; simpl; rewrite Hfs; reflexivity);
                 now apply (fs_keeps _ _ Hfs) | ]
           end.
  all: simpl in *; rewrite ?Hfe, ?Hfs; simpl; split_andb.
  all: repeat match goal with
         | H : ?q = true -> _, H' : ?q = true |- _ => specialize (H H')
         end.
  all: rewrite ?allPats_yes, ?allPat_yes; simpl.
  all: repeat match goal with
         | H : Forall _ ?l |- context [forallb _ (map _ ?l)] =>
             rewrite (forallb_map _ _ l H) by assumption
         | H : Forall _ ?l |- context [forallb _ (flat_map _ ?l)] =>
             rewrite (forallb_flat_map _ _ l H) by assumption
         end.
  all: repeat match goal with
         | H : ?x = true |- context [?x] => rewrite H
         end; simpl; try reflexivity.
  rewrite noTrigger_statement, (walkE_exprTriggers _ _ _ fe_calm),
    <- noTrigger_statement.
  match goal with H : noTrigger _ = true |- _ => now rewrite H end.
Qed.

Lemma walk_triggerFree p :
  triggerFree p = true -> triggerFree (walk fe fs ft p) = true.
Proof.
  unfold triggerFree, allNodes, walk. apply forallb_flat_map, Forall_forall.
  intros s _. apply walk_triggerFree_all.
Qed.

(** A registration call among the statements of the program is still
    there, and still a registration call, after the walk. *)
Lemma walk_topLevelTrigger p :
  hasTopLevelTrigger p = true -> hasTopLevelTrigger (walk fe fs ft p) = true.
Proof.
  unfold hasTopLevelTrigger, walk. induction p as [|s p IH]; simpl; [trivial |].
  intros H. rewrite existsb_app. apply orb_true_iff in H as [H | H].
  - apply orb_true_iff. left.
    destruct s as [|e| | | | | |]; try discriminate H.
    simpl. rewrite fs_statement. simpl.
    rewrite noTrigger_statement, (walkE_exprTriggers _ _ _ fe_calm),
      <- noTrigger_statement.
    now rewrite H.
  - apply orb_true_iff. right. now apply IH.
Qed.

End TriggerFreeWalk.

Section DefaultExports.
Import Ast Transform Normal.

Lemma le_plus a b c d : a <= b -> c <= d -> a + c <= b + d.
Proof. lia. Qed.

Lemma eq_plus (a b c d : nat) : a = b -> c = d -> a + c = b + d.
Proof. lia. Qed.

Lemma noE_exports (R : nat -> nat -> Prop) e e' :
  noE e = Some e' -> R (exportsE e') (exportsE e).
Proof. discriminate. Qed.

Lemma noS_exports (R : nat -> nat -> Prop) s nodes :
  noS s = Some nodes -> R (list_sum (map exportsS nodes)) (exportsS s).
Proof. discriminate. Qed.

Lemma importSourceRule_exports s nodes :
  importSourceRule s = Some nodes -> list_sum (map exportsS nodes) = exportsS s.
Proof. destruct s; try discriminate. now intros [= <-]. Qed.

Lemma relativeImportRule_exports s nodes :
  relativeImportRule s = Some nodes -> list_sum (map exportsS nodes) = exportsS s.
Proof. destruct s; try discriminate. now intros [= <-]. Qed.

Lemma serveImportRule_exports s nodes :
  serveImportRule s = Some nodes -> list_sum (map exportsS nodes) = exportsS s.
Proof.
  destruct s as [specs source| | | | | | |]; try discriminate.
  unfold serveImportRule.
  destruct (existsb _ _); [| now intros [= <-]].
  destruct (List.filter keepSpecifier specs); now intros [= <-].
Qed.

Lemma hd_exports args :
  exportsE match args with a :: _ => a | [] => StringLiteral "" end
  <= list_sum (map exportsE args).
Proof. destruct args; simpl; lia. Qed.

Lemma envGetRule_exports e e' :
  envGetRule e = Some e' -> exportsE e' <= exportsE e.
Proof.
  destruct e as [| | |c args| | | | | | |]; try discriminate. simpl.
  destruct (isDenoEnvCallee "get" c); [| discriminate].
  intros [= <-]. pose proof (hd_exports args). simpl. lia.
Qed.

Lemma envToObjectRule_exports e e' :
  envToObjectRule e = Some e' -> exportsE e' <= exportsE e.
Proof.
  destruct e as [| | |c args| | | | | | |]; try discriminate. simpl.
  destruct (isDenoEnvCallee "toObject" c); [| discriminate].
  intros [= <-]. simpl. lia.
Qed.

Lemma dynamicImportRule_exports e e' :
  dynamicImportRule e = Some e' -> exportsE e' = exportsE e.
Proof.
  destruct e as [| | | | | | | | |src|]; try discriminate.
  destruct src; try discriminate. simpl.
  destruct (Specifier.rewriteDynamicImport value); [| discriminate].
  now intros [= <-].
Qed.

Lemma beforeRegistration_exports p :
  countDefaultExports (beforeRegistration p) <= countDefaultExports p.
Proof.
  unfold beforeRegistration.
  etransitivity; [apply (walk_exports _ _ _ le); auto using le_plus |].
  { exact (noE_exports le). }
  { intros s nodes H. now rewrite (serveImportRule_exports _ _ H). }
  etransitivity; [apply (walk_exports _ _ _ le); auto using le_plus |].
  { exact envToObjectRule_exports. }
  { exact (noS_exports le). }
  etransitivity; [apply (walk_exports _ _ _ le); auto using le_plus |].
  { exact envGetRule_exports. }
  { exact (noS_exports le). }
  apply (walk_exports _ _ _ le); auto using le_plus.
  - exact (noE_exports le).
  - intros s nodes H. now rewrite (importSourceRule_exports _ _ H).
Qed.

Lemma afterRegistration_exports p :
  countDefaultExports (afterRegistration p) = countDefaultExports p.
Proof.
  unfold afterRegistration. rewrite !asyncWalk_exports.
  etransitivity; [apply (walk_exports _ _ _ eq); auto using eq_plus |].
  { exact dynamicImportRule_exports. }
  { exact (noS_exports eq). }
  etransitivity; [apply (walk_exports _ _ _ eq); auto using eq_plus |].
  { exact (noE_exports eq). }
  { exact relativeImportRule_exports. }
  apply (walk_exports _ _ _ eq); auto using eq_plus.
  - exact (noE_exports eq).
  - exact (noS_exports eq).
Qed.

End DefaultExports.

Section EntryPoint.
Import Ast Transform Normal.

Abbreviation yes := (fun _ => true).

Lemma noE_keeps e e' :
  allE yes noTrigger yes e = true -> noE e = Some e' ->
  allE yes noTrigger yes e' = true.
Proof. discriminate. Qed.

Lemma noS_keeps s nodes :
  noS s = Some nodes -> forallb (allS yes noTrigger yes) nodes = true.
Proof. discriminate. Qed.

Lemma importSourceRule_keeps s nodes :
  importSourceRule s = Some nodes ->
  forallb (allS yes noTrigger yes) nodes = true.
Proof. destruct s; try discriminate. now intros [= <-]. Qed.

Lemma serveImportRule_keeps s nodes :
  serveImportRule s = Some nodes ->
  forallb (allS yes noTrigger yes) nodes = true.
Proof.
  destruct s as [specs source| | | | | | |]; try discriminate.
  unfold serveImportRule.
  destruct (existsb _ _); [| now intros [= <-]].
  destruct (List.filter keepSpecifier specs); now intros [= <-].
Qed.

Lemma envGetRule_keeps e e' :
  allE yes noTrigger yes e = true -> envGetRule e = Some e' ->
  allE yes noTrigger yes e' = true.
Proof.
  destruct e as [| | |c args| | | | | | |]; try discriminate. simpl.
  destruct (isDenoEnvCallee "get" c); [| discriminate].
  intros H [= <-]. split_andb. simpl.
  destruct args as [|a rest]; [reflexivity |].
  simpl in *. split_andb.
  match goal with H : allE _ _ _ a = true |- _ => now rewrite H end.
Qed.

Lemma envToObjectRule_keeps e e' :
  allE yes noTrigger yes e = true -> envToObjectRule e = Some e' ->
  allE yes noTrigger yes e' = true.
Proof.
  destruct e as [| | |c args| | | | | | |]; try discriminate. simpl.
  destruct (isDenoEnvCallee "toObject" c); [| discriminate].
  now intros _ [= <-].
Qed.

Lemma beforeRegistration_triggerFree p :
  triggerFree p = true -> triggerFree (beforeRegistration p) = true.
Proof.
  intros H. unfold beforeRegistration.
  apply walk_triggerFree;
    [exact calm_noE | exact noE_keeps | exact serveImportRule_keeps |].
  apply walk_triggerFree;
    [exact calm_envToObject | exact envToObjectRule_keeps | exact noS_keeps |].
  apply walk_triggerFree;
    [exact calm_envGet | exact envGetRule_keeps | exact noS_keeps |].
  apply walk_triggerFree;
    [exact calm_noE | exact noE_keeps | exact importSourceRule_keeps |].
  exact H.
Qed.

Lemma beforeRegistration_topLevelTrigger p :
  hasTopLevelTrigger p = true ->
  hasTopLevelTrigger (beforeRegistration p) = true.
Proof.
  intros H. unfold beforeRegistration.
  apply walk_topLevelTrigger; [exact calm_noE | reflexivity |].
  apply walk_topLevelTrigger; [exact calm_envToObject | reflexivity |].
  apply walk_topLevelTrigger; [exact calm_envGet | reflexivity |].
  apply walk_topLevelTrigger; [exact calm_noE | reflexivity |].
  exact H.
Qed.

Lemma register_steady rule p b p' b' :
  register rule p b = (p', b') ->
  (b = true -> b' = true) /\ (b' = false -> p' = p).
Proof.
  unfold register.
  apply (flatMapAccum_steady (regS rule) p), Forall_forall.
  intros s _. apply reg_steady_all.
Qed.

Lemma topLevelTrigger_cases p :
  hasTopLevelTrigger p = true ->
  existsb (fun s => negb (isNone (serveRule s))) p = true
  \/ existsb (fun s => negb (isNone (denoServeRule s))) p = true.
Proof.
  unfold hasTopLevelTrigger, noTrigger.
  induction p as [|s p IH]; simpl; [discriminate |].
  intros H. apply orb_true_iff in H as [H | H].
  - rewrite negb_andb in H. apply orb_true_iff in H as [H | H];
      rewrite H; auto.
  - destruct (IH H) as [H' | H']; rewrite H', ?orb_true_r; auto.
Qed.

(** With a registration call among the statements of the program, the
    two passes raise the flag and leave exactly one more default export
    than the rewritten call already held. *)
Lemma registration_topLevelTrigger q :
  hasTopLevelTrigger q = true ->
  let r := (registration q).1 in
  1 <= countDefaultExports r <= countDefaultExports q + 1.
Proof.
  intros H. unfold registration.
  destruct (register serveRule q false) as [p5 b5] eqn:E5.
  pose proof (register_counted _ serveRule_exports _ _ _ _ E5) as (_ & H5 & H5').
  pose proof (register_steady _ _ _ _ _ E5) as (_ & Hsame).
  destruct b5.
  - rewrite register_exported. cbn [fst]. unfold bump in *. simpl in *.
    specialize (H5' eq_refl). lia.
  - specialize (Hsame eq_refl). subst p5.
    destruct (topLevelTrigger_cases _ H) as [Hs | Hd].
    + pose proof (register_raises serveRule serveRule_statement _ Hs) as Hr.
      rewrite E5 in Hr. discriminate Hr.
    + pose proof (register_raises denoServeRule denoServeRule_statement _ Hd) as Hr.
      destruct (register denoServeRule q false) as [p6 b6] eqn:E6.
      cbn [snd] in Hr. subst b6. cbn [fst].
      pose proof (register_counted _ denoServeRule_exports _ _ _ _ E6)
        as (_ & H6 & H6').
      unfold bump in *. simpl in *. specialize (H6' eq_refl). lia.
Qed.

Lemma registration_triggerFree q :
  triggerFree q = true -> registration q = (q, false).
Proof.
  intros H. unfold registration.
  rewrite (register_quiet serveRule yes noTrigger yes); [| | exact H].
  - apply (register_quiet denoServeRule yes noTrigger yes); [| exact H].
    intros s Hs. unfold noTrigger in Hs. split_andb. now apply isNone_true.
  - intros s Hs. unfold noTrigger in Hs. split_andb. now apply isNone_true.
Qed.

Lemma transform_one_export p :
  countDefaultExports p = 0 -> hasTopLevelTrigger p = true ->
  countDefaultExports (transform p) = 1.
Proof.
  intros H0 Ht. unfold transform. rewrite afterRegistration_exports.
  pose proof (beforeRegistration_exports p) as Hle.
  pose proof (registration_topLevelTrigger _
                (beforeRegistration_topLevelTrigger _ Ht)) as Hr.
  cbv zeta in Hr. lia.
Qed.

Lemma transform_no_export_added p :
  triggerFree p = true ->
  countDefaultExports (transform p) <= countDefaultExports p.
Proof.
  intros H. unfold transform. rewrite afterRegistration_exports.
  rewrite (registration_triggerFree _ (beforeRegistration_triggerFree _ H)).
  apply beforeRegistration_exports.
Qed.

End EntryPoint.




Section ReplacedEverywhere.
Import Ast Transform Normal.

Abbreviation yes := (fun _ => true).

Variables (fe : expr -> option expr) (pre : expr -> bool).
Hypothesis fe_done :
  forall e e', allE pre yes yes e = true -> fe e = Some e' ->
               allE (fun x => isNone (fe x)) yes yes e' = true.
Hypothesis fe_stable : forall e, fe e = None -> fe (walkE fe noS noT e) = None.


(** When a node the hook replaces is replaced by a tree the hook no
    longer matches, the walk leaves no node that the hook matches. *)
Lemma walk_replaces_all :
  (forall e, allE pre yes yes e = true ->
             allE (fun x => isNone (fe x)) yes yes (walkE fe noS noT e) = true) /\
  (forall p, allP pre yes yes p = true ->
             allP (fun x => isNone (fe x)) yes yes (walkP fe noS noT p) = true) /\
  (forall a, allA pre yes yes a = true ->
             allA (fun x => isNone (fe x)) yes yes (walkA fe noS noT a) = true) /\
  (forall b, allB pre yes yes b = true ->
             allB (fun x => isNone (fe x)) yes yes (walkB fe noS noT b) = true) /\
  (forall s, allS pre yes yes s = true ->
             forallb (allS (fun x => isNone (fe x)) yes yes)
                     (walkS fe noS noT s) = true) /\
  (forall d, allD pre yes yes d = true ->
             allD (fun x => isNone (fe x)) yes yes (walkD fe noS noT d) = true).
Proof.
  apply ast_mutind; intros; use_options; use_lists.
  all: try match goal with
           | H : allE pre _ _ ?e = true |- allE _ _ _ (walkE _ _ _ ?e) = true =>
               destruct (fe e) as [e'|] eqn:Hfe;
               [ rewrite (walkE_fired _ _ _ _ _ Hfe);
                 now apply (fe_done _ _ H Hfe)
               | pose proof (fe_stable _ Hfe) as Hst;
                 simpl in Hst; rewrite Hfe in Hst ]
           end.
  all: simpl in *; rewrite ?Hfe, ?Hst; simpl; split_andb.
  all: repeat match goal with
         | H : ?q = true -> _, H' : ?q = true |- _ => specialize (H H')
         end.
  all: rewrite ?allPats_yes, ?allPat_yes; simpl.
  all: repeat match goal with
         | H : Forall _ ?l |- context [forallb _ (map _ ?l)] =>
             erewrite (forallb_map2 _ _ _ l H) by assumption
         | H : Forall _ ?l |- context [forallb _ (flat_map _ ?l)] =>
             erewrite (forallb_flat_map2 _ _ _ l H) by assumption
         end.
  all: repeat match goal with
         | H : ?x = true |- context [?x] => rewrite H
         end; simpl; try reflexivity.
  all: rewrite ?Hst, ?Hfe; reflexivity.
Qed.

Lemma walk_replaces p :
  allNodes pre yes yes p = true ->
  allNodes (fun x => isNone (fe x)) yes yes (walk fe noS noT p) = true.
Proof.
  unfold allNodes, walk. apply forallb_flat_map2, Forall_forall.
  intros s _. apply walk_replaces_all.
Qed.

End ReplacedEverywhere.

Section EnvCallsGone.
Import Ast Transform Normal.

Lemma isDenoEnvCallee_member m c :
  isDenoEnvCallee m c
  = match c with
    | MemberExpression o (Identifier m') _ =>
        isDenoMember "env" o && String.eqb m' m
    | _ => false
    end.
Proof.
  destruct c as [| |o p cc| | | | | | | |]; try reflexivity.
  destruct o as [| |oo op oc| | | | | | | |]; try (now destruct p).
  destruct oo, op, p; reflexivity.
Qed.

Lemma walkE_isDenoEnvCallee fe m c :
  calm fe ->
  isDenoEnvCallee m (walkE fe noS noT c) = isDenoEnvCallee m c.
Proof.
  intros Hcalm. destruct (fe c) as [e'|] eqn:E.
  - destruct (Hcalm _ _ E) as [Hf Hi].
    rewrite (walkE_fired _ _ _ _ _ E).
    transitivity false; [| symmetry].
    + destruct e' as [| |o p cc| | | | | | | |]; try reflexivity.
      destruct o; try discriminate Hi; reflexivity.
    + destruct c as [| | |cc args| | | | | | |]; try discriminate Hf;
        reflexivity.
  - rewrite !isDenoEnvCallee_member.
    destruct c as [| |o p cc| | | | | | | |]; simpl; rewrite E; try reflexivity.
    rewrite (walkE_isDenoMember fe noS noT Hcalm).
    destruct (walkE fe noS noT p) as [n| | | | | | | | | |] eqn:Ep.
    1:{ now apply walkE_identifier in Ep as ->. }
    all: destruct p; try reflexivity;
      rewrite (proj2 (walkE_identifier fe noS noT Hcalm _ name) eq_refl) in Ep;
      discriminate Ep.
Qed.

Lemma envGetRule_stable e :
  envGetRule e = None -> envGetRule (walkE envGetRule noS noT e) = None.
Proof.
  intros H. destruct e as [| | |c args| | | | | | |];
    try (simpl; rewrite ?H; reflexivity).
  change (walkE envGetRule noS noT (CallExpression c args))
    with (match envGetRule (CallExpression c args) with
          | Some e' => e'
          | None => CallExpression (walkE envGetRule noS noT c)
                      (map (walkE envGetRule noS noT) args)
          end).
  rewrite H. simpl in *.
  rewrite (walkE_isDenoEnvCallee _ _ _ calm_envGet).
  now destruct (isDenoEnvCallee "get" c).
Qed.

Lemma envToObjectRule_stable e :
  envToObjectRule e = None ->
  envToObjectRule (walkE envToObjectRule noS noT e) = None.
Proof.
  intros H. destruct e as [| | |c args| | | | | | |];
    try (simpl; rewrite ?H; reflexivity).
  change (walkE envToObjectRule noS noT (CallExpression c args))
    with (match envToObjectRule (CallExpression c args) with
          | Some e' => e'
          | None => CallExpression (walkE envToObjectRule noS noT c)
                      (map (walkE envToObjectRule noS noT) args)
          end).
  rewrite H. simpl in *.
  rewrite (walkE_isDenoEnvCallee _ _ _ calm_envToObject).
  now destruct (isDenoEnvCallee "toObject" c).
Qed.

Lemma envGetRule_done e e' :
  allE plainKey (fun _ => true) (fun _ => true) e = true ->
  envGetRule e = Some e' -> envGetFreeE e' = true.
Proof.
  destruct e as [| | |c args| | | | | | |]; try discriminate.
  simpl. destruct (isDenoEnvCallee "get" c); [| discriminate].
  intros H [= <-]. unfold envGetFreeE. simpl.
  destruct args as [|key rest]; [reflexivity |].
  simpl in H. split_andb. unfold envGetFreeE in *.
  match goal with H : allE _ _ _ key = true |- _ => now rewrite H end.
Qed.

Lemma envToObjectRule_done e e' :
  allE (fun _ => true) (fun _ => true) (fun _ => true) e = true ->
  envToObjectRule e = Some e' ->
  allE (fun x => isNone (envToObjectRule x)) (fun _ => true) (fun _ => true) e'
  = true.
Proof.
  destruct e as [| | |c args| | | | | | |]; try discriminate.
  simpl. destruct (isDenoEnvCallee "toObject" c); [| discriminate].
  now intros _ [= <-].
Qed.

Lemma all_yes_all :
  (forall e, allE (fun _ => true) (fun _ => true) (fun _ => true) e = true) /\
  (forall p, allP (fun _ => true) (fun _ => true) (fun _ => true) p = true) /\
  (forall a, allA (fun _ => true) (fun _ => true) (fun _ => true) a = true) /\
  (forall b, allB (fun _ => true) (fun _ => true) (fun _ => true) b = true) /\
  (forall s, allS (fun _ => true) (fun _ => true) (fun _ => true) s = true) /\
  (forall d, allD (fun _ => true) (fun _ => true) (fun _ => true) d = true).
Proof.
  apply ast_mutind; intros; use_options; use_lists; simpl;
    rewrite ?allPats_yes, ?allPat_yes;
    repeat match goal with
           | H : Forall _ ?l |- context [forallb _ ?l] =>
               rewrite (proj2 (forallb_forall _ l))
                 by (intros x Hx; apply (proj1 (Forall_forall _ _) H);
                     now apply list_elem_of_In); clear H
           | H : ?x = true |- context [?x] => rewrite H
           end; reflexivity.
Qed.

(** After the [Deno.env.get] rule no such call is left, provided none
    sat inside the key of another. *)
Lemma envGet_all_replaced p :
  envGetUnnested p = true ->
  envGetFree (walk envGetRule noS noT p) = true.
Proof.
  apply (walk_replaces envGetRule plainKey envGetRule_done envGetRule_stable).
Qed.

(** After the [Deno.env.toObject] rule no such call is left. *)
Lemma envToObject_all_replaced p :
  envToObjectFree (walk envToObjectRule noS noT p) = true.
Proof.
  apply (walk_replaces envToObjectRule (fun _ => true)
           envToObjectRule_done envToObjectRule_stable).
  unfold allNodes. apply forallb_forall. intros s _. apply all_yes_all.
Qed.

End EnvCallsGone.

(** ** Environment calls *)

Example env_scenario2 :
  Transform.transform
    [ Ast.ExpressionStatement
        (Ast.CallExpression
           (Ast.MemberExpression
              (Ast.MemberExpression (Ast.Identifier "Deno") (Ast.Identifier "env") false)
              (Ast.Identifier "get") false)
           [Ast.StringLiteral "API_KEY"]) ]
  = [ Ast.ExpressionStatement
        (Ast.LogicalExpression "??"
           (Ast.MemberExpression Transform.processEnv (Ast.StringLiteral "API_KEY") true)
           (Ast.StringLiteral "")) ].
Proof. reflexivity. Qed.

(** The key is kept as it stands, also when it is itself such a call:
    the path of the inner call stays attached to the call that was
    replaced. *)
Example env_nested_key :
  let get key :=
    Ast.CallExpression
      (Ast.MemberExpression
         (Ast.MemberExpression (Ast.Identifier "Deno") (Ast.Identifier "env") false)
         (Ast.Identifier "get") false) [key] in
  Transform.walkE Transform.envGetRule Transform.noS Transform.noT
    (get (get (Ast.StringLiteral "A")))
  = Ast.LogicalExpression "??"
      (Ast.MemberExpression Transform.processEnv
         (get (Ast.StringLiteral "A")) true)
      (Ast.StringLiteral "").
Proof. reflexivity. Qed.



(** ** [applyTransform] *)

(** C5.  Whatever the transform function does with a path and a text, and
    so for a text outside the grammar and for a rule that throws,
    [applyTransform] returns a string and throws nothing; when the
    transform throws, the string is the source text it was given; a parse
    failure is one way for the transform to throw. *)
Theorem C5_applyTransform_fails_open
    (transformFn : string -> string -> Convert.outcome Convert.jsValue)
    (parse : Convert.parserName -> string -> option Ast.program)
    (toSource : Ast.program -> string)
    (filePath source : string) :
  (exists out, Convert.applyTransformWith transformFn filePath source
               = Convert.Returned out)
  /\ (transformFn filePath source = Convert.Thrown ->
      Convert.applyTransformWith transformFn filePath source
      = Convert.Returned source)
  /\ (exists out, Convert.applyTransform parse toSource filePath source
                  = Convert.Returned out)
  /\ (parse (Convert.selectParser filePath) source = None ->
      Convert.applyTransform parse toSource filePath source
      = Convert.Returned source).
Proof.
  unfold Convert.applyTransform, Convert.applyTransformWith, Convert.callTransform.
  repeat split.
  - destruct (transformFn filePath source) as [[out|]|]; eauto.
  - now intros ->.
  - destruct (parse _ source); eauto.
  - now intros ->.
Qed.

Lemma C5_applyTransform_fails_open_witness :
  Convert.applyTransformWith (fun _ _ => Convert.Thrown) "index.ts" "serve(("
  = Convert.Returned "serve(("
  /\ Convert.applyTransform (fun _ _ => None) (fun _ => "") "index.ts" "serve(("
     = Convert.Returned "serve((".
Proof.
  pose proof (C5_applyTransform_fails_open
                (fun _ _ => Convert.Thrown) (fun _ _ => None) (fun _ => "")
                "index.ts" "serve((") as (_ & H2 & _ & H4).
  split; [apply H2 | apply H4]; reflexivity.
Defined.

Example selectParser_examples :
  Convert.selectParser "src/handlers/hello/index.ts" = Convert.Tsx
  /\ Convert.selectParser "component.tsx" = Convert.Tsx
  /\ Convert.selectParser "legacy.js" = Convert.Babel.
Proof. repeat split. Qed.

(** ** Imports that the pipeline keeps *)

Section KeptImports.
Import Ast Transform.

Lemma walk_keeps fe fs ft s p :
  walkS fe fs ft s = [s] -> In s p -> In s (walk fe fs ft p).
Proof.
  intros Hs Hin. unfold walk. apply in_flat_map. exists s.
  split; [assumption |]. rewrite Hs. now left.
Qed.

Lemma flatMapAccum_keeps {A} (f : A -> bool -> list A * bool) s l :
  (forall b, f s b = ([s], b)) ->
  In s l -> forall b, In s (flatMapAccum f l b).1.
Proof.
  intros Hs. induction l as [|x l IH]; intros Hin b; [destruct Hin |].
  simpl. destruct (f x b) as [xs b1] eqn:E1.
  destruct (flatMapAccum f l b1) as [l' b2] eqn:E2. cbn [fst].
  apply in_or_app. destruct Hin as [-> | Hin].
  - left. rewrite Hs in E1. injection E1 as <- _. now left.
  - right. specialize (IH Hin b1). now rewrite E2 in IH.
Qed.

Lemma register_keeps_import rule specs source p b :
  In (ImportDeclaration specs source) p ->
  In (ImportDeclaration specs source) (register rule p b).1.
Proof.
  intros H. apply flatMapAccum_keeps; [reflexivity | exact H].
Qed.

Lemma asyncWalk_keeps_import decls vars specs source p :
  In (ImportDeclaration specs source) p ->
  In (ImportDeclaration specs source) (asyncWalk decls vars p).
Proof.
  intros H. unfold asyncWalk.
  change (ImportDeclaration specs source)
    with (asyncS decls vars (ImportDeclaration specs source)).
  now apply in_map.
Qed.

Lemma walkS_hooked fe fs ft s :
  fs s = Some [s] -> walkS fe fs ft s = [s].
Proof. intros H. destruct s; simpl; now rewrite H. Qed.

(** An import that the three import rules leave as it is stays in the
    output of the pipeline. *)
Lemma transform_keeps_import specs source p :
  Specifier.rewriteImportSource source = source ->
  existsb (fun x => Js.includes source x) serveImportSources = false ->
  Specifier.rewriteRelativeSource source = source ->
  In (ImportDeclaration specs source) p ->
  In (ImportDeclaration specs source) (transform p).
Proof.
  intros Hsource Hserve Hrel Hin.
  unfold transform, afterRegistration, registration, beforeRegistration.
  do 2 apply asyncWalk_keeps_import.
  apply walk_keeps; [reflexivity |].
  apply walk_keeps;
    [apply walkS_hooked; unfold relativeImportRule; now rewrite Hrel |].
  apply walk_keeps; [reflexivity |].
  destruct (register serveRule _ false) as [p5 b5] eqn:E5.
  apply register_keeps_import.
  replace p5 with (register serveRule
                     (walk noE serveImportRule noT
                        (walk envToObjectRule noS noT
                           (walk envGetRule noS noT
                              (walk noE importSourceRule noT p)))) false).1
    by now rewrite E5.
  apply register_keeps_import.
  apply walk_keeps;
    [apply walkS_hooked; unfold serveImportRule; now rewrite Hserve |].
  apply walk_keeps; [reflexivity |].
  apply walk_keeps; [reflexivity |].
  apply walk_keeps;
    [apply walkS_hooked; unfold importSourceRule; now rewrite Hsource |].
  exact Hin.
Qed.

(** A [deno.land/x] specifier whose package the table maps to [null] is
    not changed by the specifier rule. *)
Lemma denoLand_null_unchanged source cs :
  Js.startsWith source "npm:" = false ->
  Js.startsWith source "jsr:" = false ->
  Js.includes source "deno.land" = true ->
  Re.matchFirst Specifier.reDenoLand source = Some cs ->
  Specifier.mapping (default "" (Re.cap 1 cs)) = Some Specifier.Null ->
  Specifier.rewriteImportSource source = source.
Proof.
  intros Hn Hj Hd Hm Hnull. unfold Specifier.rewriteImportSource.
  rewrite Hn, Hj, Hd. unfold Specifier.denoLandSource.
  rewrite Hm. cbv zeta. now rewrite Hnull.
Qed.

End KeptImports.

(** C7 (as stated, refuted).  The import of a package that the table maps
    to [null] is still in the output, with its specifier untouched. *)
Lemma C7_null_mapping_import_kept :
  Transform.transform
    [ Ast.ImportDeclaration [Ast.ImportSpecifier "crypto" "crypto"]
        "https://deno.land/x/std@0.168.0/crypto/mod.ts" ]
  = [ Ast.ImportDeclaration [Ast.ImportSpecifier "crypto" "crypto"]
        "https://deno.land/x/std@0.168.0/crypto/mod.ts" ].
Proof. vm_compute. reflexivity. Qed.

(** C7 (amended).  For an import whose specifier is a [deno.land/x]
    reference to a package that the table maps to [null], the specifier
    rule leaves the specifier as it is, and the import is present in the
    output with the same specifiers and the same source, provided the
    [serve]-import rule and the relative-import rule do not apply to it
    (the source holds none of the [serve] import spellings and does not
    begin with a dot). *)
Theorem C7_null_mapping_keeps_import
    (p : Ast.program) (specs : list Ast.importSpecifier)
    (source : string) (cs : Re.captures) :
  Js.startsWith source "npm:" = false ->
  Js.startsWith source "jsr:" = false ->
  Js.includes source "deno.land" = true ->
  Re.matchFirst Specifier.reDenoLand source = Some cs ->
  Specifier.mapping (default "" (Re.cap 1 cs)) = Some Specifier.Null ->
  existsb (fun x => Js.includes source x) Transform.serveImportSources = false ->
  Js.startsWith source "." = false ->
  In (Ast.ImportDeclaration specs source) p ->
  Specifier.rewriteImportSource source = source
  /\ In (Ast.ImportDeclaration specs source) (Transform.transform p).
Proof.
  intros Hn Hj Hd Hm Hnull Hserve Hdot Hin.
  assert (Hsrc : Specifier.rewriteImportSource source = source)
    by now apply (denoLand_null_unchanged source cs).
  split; [exact Hsrc |].
  apply transform_keeps_import; try assumption.
  unfold Specifier.rewriteRelativeSource. now rewrite Hdot.
Qed.

Lemma C7_null_mapping_keeps_import_witness :
  In (Ast.ImportDeclaration [Ast.ImportNamespaceSpecifier "path"]
        "https://deno.land/x/std/path/mod.ts")
     (Transform.transform
        [ serveCall "handler";
          Ast.ImportDeclaration [Ast.ImportNamespaceSpecifier "path"]
            "https://deno.land/x/std/path/mod.ts" ]).
Proof.
  apply (C7_null_mapping_keeps_import
           [ serveCall "handler";
             Ast.ImportDeclaration [Ast.ImportNamespaceSpecifier "path"]
               "https://deno.land/x/std/path/mod.ts" ]
           [Ast.ImportNamespaceSpecifier "path"]
           "https://deno.land/x/std/path/mod.ts"
           [(2, "path/mod.ts"); (1, "std")]);
    try reflexivity.
  right. now left.
Defined.

(* ===================================================================== *)
(** * Further properties of the code *)
(* ===================================================================== *)

(** ** Patterns anchored at the end *)

Section AnchoredPatterns.
Import Re.

Lemma allChars_app p (a b : string) :
  Js.allChars p (a +:+ b) = Js.allChars p a && Js.allChars p b.
Proof.
  induction a as [|c a IH]; cbn [append Js.allChars]; [reflexivity |].
  now rewrite IH, andb_assoc.
Qed.

Lemma replaceFirst_unfold r repl s :
  replaceFirst r repl s
  = match matchHere r s with
    | Some (_, rest) => repl +:+ rest
    | None => match s with
              | EmptyString => EmptyString
              | String c s' => String c (replaceFirst r repl s')
              end
    end.
Proof. destruct s; reflexivity. Qed.

Lemma matchFirst_unfold r s :
  matchFirst r s
  = match matchHere r s with
    | Some (cs, _) => Some cs
    | None => match s with
              | EmptyString => None
              | String _ s' => matchFirst r s'
              end
    end.
Proof. destruct s; reflexivity. Qed.

Lemma endsWith_unfold s suf :
  Js.endsWith s suf
  = if String.eqb s suf then true
    else match s with
         | EmptyString => false
         | String _ s' => Js.endsWith s' suf
         end.
Proof. destruct s; reflexivity. Qed.

Lemma matchHere_anchored l s x :
  matchHere (cat [Lit l; Eos]) s = Some x -> s = l /\ x = ([], "").
Proof.
  unfold matchHere. cbn [cat fold_right mre].
  destruct (strip l s) as [rest|] eqn:E; [| discriminate].
  apply strip_inv in E. destruct rest; [| discriminate].
  cbn [strip]. intros [= <-]. rewrite app_nil_r in E. now split.
Qed.

Lemma matchHere_anchored_refl l :
  matchHere (cat [Lit l; Eos]) l = Some ([], "").
Proof.
  unfold matchHere. cbn [cat fold_right mre].
  rewrite <- (app_nil_r l) at 2. now rewrite strip_app.
Qed.

(** A literal anchored at the end is replaced where the text ends with
    it, and only there. *)
Lemma replaceFirst_anchored l repl w :
  replaceFirst (cat [Lit l; Eos]) repl (w +:+ l) = w +:+ repl.
Proof.
  induction w as [|c w IH]; cbn [append]; rewrite replaceFirst_unfold.
  - rewrite matchHere_anchored_refl. apply app_nil_r.
  - destruct (matchHere _ (String c (w +:+ l))) as [[cs rest]|] eqn:E.
    + apply matchHere_anchored in E as [E _]. exfalso.
      apply (f_equal String.length) in E. cbn [String.length] in E.
      rewrite length_app in E. lia.
    + now rewrite IH.
Qed.

Lemma endsWith_refl l : Js.endsWith l l = true.
Proof. rewrite endsWith_unfold. now rewrite String.eqb_refl. Qed.

Lemma replaceFirst_anchored_none l repl s :
  Js.endsWith s l = false -> replaceFirst (cat [Lit l; Eos]) repl s = s.
Proof.
  assert (Hno : forall t, Js.endsWith t l = false ->
                          matchHere (cat [Lit l; Eos]) t = None).
  { intros t H. destruct (matchHere _ t) as [x|] eqn:E; [| reflexivity].
    apply matchHere_anchored in E as [-> _]. now rewrite endsWith_refl in H. }
  induction s as [|c s IH]; intros H; rewrite replaceFirst_unfold, (Hno _ H).
  - reflexivity.
  - rewrite endsWith_unfold in H.
    destruct (String.eqb (String c s) l); [discriminate H |].
    now rewrite (IH H).
Qed.

Lemma endsWith_inv s l : Js.endsWith s l = true -> exists w, s = w +:+ l.
Proof.
  induction s as [|c s IH]; intros H; rewrite endsWith_unfold in H.
  - destruct (String.eqb_spec "" l) as [E | Hne]; [| discriminate].
    exists "". now rewrite <- E.
  - destruct (String.eqb_spec (String c s) l) as [E | Hne].
    + exists "". now rewrite <- E.
    + destruct (IH H) as [w ->]. now exists (String c w).
Qed.

(** Only the end of the text decides. *)
Lemma endsWith_app_r w l l' :
  String.length l' <= String.length l ->
  Js.endsWith (w +:+ l) l' = Js.endsWith l l'.
Proof.
  intros Hlen. induction w as [|c w IH]; cbn [append]; [reflexivity |].
  rewrite endsWith_unfold.
  destruct (String.eqb_spec (String c (w +:+ l)) l') as [E | _]; [| exact IH].
  exfalso. apply (f_equal String.length) in E. cbn [String.length] in E.
  rewrite length_app in E. lia.
Qed.

Lemma endsWith_plain c s :
  Js.allChars (fun x => negb (Ascii.eqb x c)) s = true ->
  Js.endsWith s (String c "") = false.
Proof.
  induction s as [|a s IH]; intros H; rewrite endsWith_unfold.
  - reflexivity.
  - cbn [Js.allChars] in H. apply andb_true_iff in H as [Ha Hs].
    destruct (String.eqb_spec (String a s) (String c "")) as [E | _].
    + injection E as -> _. rewrite Ascii.eqb_refl in Ha. discriminate.
    + now apply IH.
Qed.

Lemma includes_plain c s :
  Js.allChars (fun x => negb (Ascii.eqb x c)) s = true ->
  Js.includes s (String c "") = false.
Proof.
  induction s as [|a s IH]; intros H; [reflexivity |].
  cbn [Js.allChars] in H. apply andb_true_iff in H as [Ha Hs].
  cbn [Js.includes Js.startsWith]. rewrite (eqb_sym c a).
  apply negb_true_iff in Ha. rewrite Ha. cbn [andb]. now apply IH.
Qed.

End AnchoredPatterns.

(** ** The repository name *)

Section RepoName.
Import Re Subst Repo.

Abbreviation notSlash := (fun x : ascii => negb (Ascii.eqb x "/")).

Lemma split_nonempty sep s : split sep s <> [].
Proof.
  destruct s as [|c s]; cbn [split]; [discriminate |].
  destruct (Ascii.eqb c sep); [discriminate |].
  destruct (split sep s); discriminate.
Qed.

Lemma split_pieces sep s :
  Forall (fun p => Js.allChars (fun x => negb (Ascii.eqb x sep)) p = true)
         (split sep s).
Proof.
  induction s as [|c s IH]; cbn [split].
  - now constructor.
  - destruct (Ascii.eqb c sep) eqn:E; [now constructor |].
    destruct (split sep s) as [|piece rest].
    { constructor; [| constructor]. cbn [Js.allChars]. now rewrite E. }
    inversion IH as [|? ? Hp Hr]; subst. constructor; [| assumption].
    cbn [Js.allChars]. now rewrite E, Hp.
Qed.

Lemma split_plain sep s :
  Js.allChars (fun x => negb (Ascii.eqb x sep)) s = true -> split sep s = [s].
Proof.
  induction s as [|c s IH]; intros H; [reflexivity |].
  cbn [Js.allChars] in H. apply andb_true_iff in H as [Hc Hs].
  cbn [split]. apply negb_true_iff in Hc. now rewrite Hc, (IH Hs).
Qed.

Lemma pop_In l x : pop l = Some x -> In x l.
Proof.
  induction l as [|a l IH]; [discriminate |].
  destruct l as [|b l]; cbn [pop].
  - intros [= <-]. now left.
  - intros H. right. now apply IH.
Qed.

Lemma pop_app l1 l2 : l2 <> [] -> pop (l1 ++ l2)%list = pop l2.
Proof.
  intros Hne. induction l1 as [|a l1 IH]; [reflexivity |].
  cbn [app pop]. destruct (l1 ++ l2)%list eqn:E; [| exact IH].
  apply app_eq_nil in E as [_ E]. contradiction.
Qed.

Lemma split_app sep a b :
  exists first mid,
    split sep (a +:+ String sep b) = (first :: mid ++ split sep b)%list.
Proof.
  induction a as [|c a (first & mid & IH)]; cbn [append split].
  - rewrite Ascii.eqb_refl. now exists "", [].
  - rewrite IH. destruct (Ascii.eqb c sep).
    + now exists "", (first :: mid).
    + now exists (String c first), mid.
Qed.

(** What follows the last separator is the piece that [pop] yields. *)
Lemma pop_split_app sep a b :
  pop (split sep (a +:+ String sep b)) = pop (split sep b).
Proof.
  destruct (split_app sep a b) as (first & mid & ->).
  apply (pop_app (first :: mid)), split_nonempty.
Qed.

Lemma pop_split sep s :
  exists x, pop (split sep s) = Some x
            /\ Js.allChars (fun c => negb (Ascii.eqb c sep)) x = true.
Proof.
  destruct (pop (split sep s)) as [x|] eqn:E.
  - exists x. split; [reflexivity |].
    apply pop_In in E. pose proof (split_pieces sep s) as H.
    now apply (proj1 (Forall_forall _ _) H), list_elem_of_In.
  - exfalso. pose proof (split_nonempty sep s) as Hne.
    induction (split sep s) as [|a l IH]; [contradiction |].
    destruct l as [|b l]; [discriminate E |].
    apply IH; [exact E | discriminate].
Qed.

Lemma gitExt_plain x :
  Js.allChars notSlash x = true ->
  Js.allChars notSlash (replaceFirst reGitExt "" x) = true.
Proof.
  intros H. destruct (Js.endsWith x ".git") eqn:E.
  - apply endsWith_inv in E as [w ->].
    unfold reGitExt. rewrite replaceFirst_anchored, app_nil_r.
    rewrite allChars_app in H. now apply andb_true_iff in H as [H _].
  - unfold reGitExt. now rewrite replaceFirst_anchored_none.
Qed.

Lemma repoName_plain url :
  repoNameFromUrl url <> ""
  /\ Js.allChars notSlash (repoNameFromUrl url) = true.
Proof.
  unfold repoNameFromUrl.
  destruct (pop_split "/" (replaceFirst reTrailingSlash "" url)) as (x & -> & Hx).
  cbn [default]. apply gitExt_plain in Hx.
  destruct (Js.truthy _) eqn:Ht.
  - split; [| assumption]. intros E. rewrite E in Ht. discriminate Ht.
  - split; [discriminate | reflexivity].
Qed.

Lemma trimmed_kept w l :
  l <> "" -> Js.allChars notSlash l = true ->
  replaceFirst reTrailingSlash "" (w +:+ l) = w +:+ l.
Proof.
  intros Hne Hl. apply replaceFirst_anchored_none.
  rewrite endsWith_app_r.
  - now apply endsWith_plain.
  - destruct l; [congruence | cbn [String.length]; lia].
Qed.

Lemma repoName_segment base seg :
  seg <> "" -> Js.allChars notSlash seg = true ->
  repoNameFromUrl (base +:+ "/" +:+ seg)
  = (let name := replaceFirst reGitExt "" seg in
     if Js.truthy name then name else "repo").
Proof.
  intros Hne Hs. unfold repoNameFromUrl.
  replace (base +:+ "/" +:+ seg) with ((base +:+ "/") +:+ seg)
    by now rewrite app_assoc.
  rewrite (trimmed_kept _ _ Hne Hs). rewrite app_assoc. cbn [append].
  now rewrite pop_split_app, (split_plain _ _ Hs).
Qed.

Lemma repoName_trailing_slash u :
  repoNameFromUrl (u +:+ "/")
  = (let lastSegment := default "repo" (pop (split "/" u)) in
     let name := replaceFirst reGitExt "" lastSegment in
     if Js.truthy name then name else "repo").
Proof.
  unfold repoNameFromUrl, reTrailingSlash.
  now rewrite replaceFirst_anchored, app_nil_r.
Qed.

End RepoName.

(** X1.  [repoNameFromUrl] never returns the empty string and never a
    name that holds a slash, whatever the URL; so the name is usable as
    one directory name. *)
Theorem X1_repoName_is_one_segment (url : string) :
  Repo.repoNameFromUrl url <> ""
  /\ Js.includes (Repo.repoNameFromUrl url) "/" = false.
Proof.
  destruct (repoName_plain url) as [Hne Hp]. split; [exact Hne |].
  now apply includes_plain.
Qed.

(** X2.  For a URL that ends in [/name.git], in [/name.git/] or in
    [/name], where [name] is not empty and holds no slash (and, in the
    last form, does not end in [.git]), [repoNameFromUrl] returns [name]:
    one trailing slash and the [.git] suffix are dropped. *)
Theorem X2_repoName_of_clone_url (base name : string) :
  name <> "" -> Js.allChars (fun c => negb (Ascii.eqb c "/")) name = true ->
  Repo.repoNameFromUrl (base +:+ "/" +:+ name +:+ ".git") = name
  /\ Repo.repoNameFromUrl (base +:+ "/" +:+ name +:+ ".git" +:+ "/") = name
  /\ (Js.endsWith name ".git" = false ->
      Repo.repoNameFromUrl (base +:+ "/" +:+ name) = name).
Proof.
  intros Hne Hp.
  assert (Hg : name +:+ ".git" <> "") by (destruct name; discriminate).
  assert (Hgp : Js.allChars (fun c => negb (Ascii.eqb c "/")) (name +:+ ".git")
                = true) by (rewrite allChars_app, Hp; reflexivity).
  assert (Ht : Js.truthy name = true).
  { unfold Js.truthy. apply negb_true_iff. now apply String.eqb_neq. }
  assert (H1 : Repo.repoNameFromUrl (base +:+ "/" +:+ name +:+ ".git") = name).
  { rewrite (repoName_segment base _ Hg Hgp). cbv zeta. unfold Repo.reGitExt.
    now rewrite replaceFirst_anchored, app_nil_r, Ht. }
  split; [exact H1 | split].
  - replace (base +:+ "/" +:+ name +:+ ".git" +:+ "/")
      with ((base +:+ "/" +:+ name +:+ ".git") +:+ "/")
      by now rewrite !app_assoc.
    rewrite repoName_trailing_slash. cbv zeta. cbn [append].
    rewrite pop_split_app, (split_plain _ _ Hgp). cbn [Subst.pop default from_option id].
    unfold Repo.reGitExt. now rewrite replaceFirst_anchored, app_nil_r, Ht.
  - intros Hext. rewrite (repoName_segment base _ Hne Hp). cbv zeta.
    unfold Repo.reGitExt. now rewrite (replaceFirst_anchored_none _ _ _ Hext), Ht.
Qed.

Lemma X2_repoName_of_clone_url_witness :
  Repo.repoNameFromUrl "https://github.com/acme/shop.git" = "shop"
  /\ Repo.repoNameFromUrl "https://github.com/acme/shop.git/" = "shop"
  /\ Repo.repoNameFromUrl "https://github.com/acme/shop" = "shop".
Proof.
  destruct (X2_repoName_of_clone_url "https://github.com/acme" "shop")
    as (H1 & H2 & H3); [discriminate | reflexivity |].
  split; [exact H1 | split; [exact H2 | apply H3; reflexivity]].
Defined.

(** ** Route files: extensions, identifiers and the parser *)

Section RouteNames.
Import Re Subst Routes.

Abbreviation noDot := (noneOf ["."%char]).

(** A greedy run that must reach the end of the text covers all of it. *)
Lemma mstar_end {R} p s (k : string -> option R) x :
  (forall c r, k (String c r) = None) ->
  mstar p s k = Some x -> Js.allChars p s = true /\ k "" = Some x.
Proof.
  intros Hk. induction s as [|c s IH]; cbn [mstar Js.allChars].
  - now split.
  - destruct (p c).
    + destruct (mstar p s k) as [r|] eqn:E.
      * intros [= <-]. now apply IH.
      * now rewrite Hk.
    + now rewrite Hk.
Qed.

Lemma reExt_inv s x :
  matchHere reExt s = Some x ->
  exists e, s = "." +:+ e /\ e <> "" /\ Js.allChars noDot e = true
            /\ x = ([], "").
Proof.
  unfold matchHere, reExt. cbn [cat fold_right mre].
  destruct (strip "." s) as [rest|] eqn:E; [| discriminate].
  apply strip_inv in E. subst s.
  destruct rest as [|c r]; [discriminate |].
  destruct (noDot c) eqn:Hc; [| discriminate].
  intros H. apply mstar_end in H as [Hr Hx]; [| reflexivity].
  exists (String c r). repeat split.
  - discriminate.
  - cbn [Js.allChars]. now rewrite Hc, Hr.
  - cbn [strip] in Hx. now injection Hx as <-.
Qed.

Lemma reExt_here e :
  e <> "" -> Js.allChars noDot e = true ->
  matchHere reExt ("." +:+ e) = Some ([], "").
Proof.
  intros Hne He. unfold matchHere, reExt. re_steps.
  rewrite <- (app_nil_r e). apply mplus_run; try assumption; reflexivity.
Qed.

Lemma removeExt_ext base ext :
  ext <> "" -> Js.allChars noDot ext = true ->
  removeExt (base +:+ "." +:+ ext) = base.
Proof.
  intros Hne He. unfold removeExt.
  induction base as [|c base IH]; cbn [append]; rewrite replaceFirst_unfold.
  - change (String "." ext) with ("." +:+ ext). now rewrite reExt_here.
  - destruct (matchHere reExt _) as [x|] eqn:E.
    + exfalso. apply reExt_inv in E as (e & E & _ & Hall & _).
      cbn [append] in E. injection E as _ <-.
      rewrite allChars_app in Hall. apply andb_true_iff in Hall as [_ Hall].
      cbn [append Js.allChars] in Hall. discriminate Hall.
    + cbn [append] in IH. now rewrite IH.
Qed.

Lemma removeExt_plain s : Js.allChars noDot s = true -> removeExt s = s.
Proof.
  unfold removeExt. induction s as [|c s IH]; intros H;
    rewrite replaceFirst_unfold.
  - reflexivity.
  - cbn [Js.allChars] in H. apply andb_true_iff in H as [Hc Hs].
    destruct (matchHere reExt _) as [x|] eqn:E.
    + exfalso. apply reExt_inv in E as (e & E & _).
      cbn [append] in E. injection E as -> _. discriminate Hc.
    + now rewrite (IH Hs).
Qed.

Lemma removeExt_prefix s : exists t, s = removeExt s +:+ t.
Proof.
  unfold removeExt. induction s as [|c s [t IH]]; rewrite replaceFirst_unfold.
  - destruct (matchHere reExt "") as [[cs rest]|] eqn:E; [| now exists ""].
    apply reExt_inv in E as (e & E & _). discriminate E.
  - destruct (matchHere reExt (String c s)) as [[cs rest]|] eqn:E.
    + apply reExt_inv in E as (e & _ & _ & _ & [= _ ->]).
      now exists (String c s).
    + exists t. cbn [append]. now rewrite <- IH.
Qed.

(** *** [sanitizeName] *)

Abbreviation notWord := (fun c : ascii => negb (wordChar c)).
Abbreviation underscore := (fun _ : captures => "_").

Lemma replaceAll_class_step p repl c s :
  replaceAll (Class p) repl 0 (String c s)
  = if p c then repl [] +:+ replaceAll (Class p) repl 0 s
    else String c (replaceAll (Class p) repl 0 s).
Proof.
  cbn [replaceAll matchHere mre]. destruct (p c); [| reflexivity].
  replace (String.length (String c s) - String.length s - 1) with 0
    by (cbn [String.length]; lia).
  reflexivity.
Qed.

Lemma cleaned_word s :
  Js.allChars wordChar (replaceAll (Class notWord) underscore 0 s) = true.
Proof.
  induction s as [|c s IH]; [reflexivity |].
  rewrite replaceAll_class_step. destruct (wordChar c) eqn:Hc; cbn [negb].
  - cbn [Js.allChars]. now rewrite Hc, IH.
  - cbn [append Js.allChars]. now rewrite IH.
Qed.

Lemma cleaned_fixed s :
  Js.allChars wordChar s = true ->
  replaceAll (Class notWord) underscore 0 s = s.
Proof.
  induction s as [|c s IH]; intros H; [reflexivity |].
  cbn [Js.allChars] in H. apply andb_true_iff in H as [Hc Hs].
  rewrite replaceAll_class_step, Hc. cbn [negb]. now rewrite (IH Hs).
Qed.

Lemma cleaned_length s :
  String.length (replaceAll (Class notWord) underscore 0 s) = String.length s.
Proof.
  induction s as [|c s IH]; [reflexivity |].
  rewrite replaceAll_class_step. destruct (negb (wordChar c));
    cbn [append String.length]; now rewrite IH.
Qed.

Lemma wordStart_wordChar c : wordStart c = true -> wordChar c = true.
Proof.
  unfold wordStart, wordChar.
  destruct (lower c), (upper c), (digit c), (Ascii.eqb c "_"); trivial.
Qed.

Lemma isIdentifier_word s : isIdentifier s = true -> Js.allChars wordChar s = true.
Proof.
  destruct s as [|c s]; [discriminate |]. cbn [isIdentifier Js.allChars].
  intros H. apply andb_true_iff in H as [Hc Hs].
  now rewrite (wordStart_wordChar _ Hc), Hs.
Qed.

Lemma sanitizeName_identifier name : isIdentifier (sanitizeName name) = true.
Proof.
  unfold sanitizeName. pose proof (cleaned_word name) as Hw.
  destruct (replaceAll _ _ 0 name) as [|c r]; [reflexivity |].
  cbn [matchHere mre]. destruct (wordStart c) eqn:Hc.
  - cbn [Js.allChars] in Hw. apply andb_true_iff in Hw as [_ Hw].
    cbn [isIdentifier]. now rewrite Hc, Hw.
  - cbn [append isIdentifier]. exact Hw.
Qed.

Lemma sanitizeName_fixed name :
  isIdentifier name = true -> sanitizeName name = name.
Proof.
  intros H. unfold sanitizeName.
  rewrite (cleaned_fixed _ (isIdentifier_word _ H)).
  destruct name as [|c r]; [discriminate |].
  cbn [isIdentifier] in H. apply andb_true_iff in H as [Hc _].
  cbn [matchHere mre]. now rewrite Hc.
Qed.

Lemma sanitizeName_length name :
  String.length (sanitizeName name) = String.length name
  \/ String.length (sanitizeName name) = S (String.length name).
Proof.
  unfold sanitizeName. pose proof (cleaned_length name) as Hl.
  destruct (matchHere _ _); [now left | right].
  cbn [append String.length]. now rewrite Hl.
Qed.

(** *** The parser chosen for a path *)

Lemma reTsPath_here s :
  matchHere Convert.reTsPath s <> None <-> s = ".ts" \/ s = ".tsx".
Proof.
  split.
  - unfold matchHere, Convert.reTsPath. cbn [cat fold_right mre].
    destruct (strip ".ts" s) as [rest|] eqn:E; [| congruence].
    apply strip_inv in E. subst s.
    destruct rest as [|c [|d r]]; cbn [strip append]; [now left | |].
    + destruct (Ascii.eqb_spec "x" c) as [<- | _]; [now right | congruence].
    + destruct (Ascii.eqb "x" c); congruence.
  - now intros [-> | ->].
Qed.

Lemma selectParser_suffix p :
  Convert.selectParser p = Convert.Tsx
  <-> Js.endsWith p ".ts" = true \/ Js.endsWith p ".tsx" = true.
Proof.
  unfold Convert.selectParser.
  induction p as [|c p IH]; rewrite matchFirst_unfold.
  - cbn. split; [discriminate | now intros [H | H]].
  - rewrite (endsWith_unfold (String c p) ".ts"),
      (endsWith_unfold (String c p) ".tsx").
    destruct (matchHere Convert.reTsPath (String c p)) as [[cs rest]|] eqn:E.
    + assert (H : matchHere Convert.reTsPath (String c p) <> None) by congruence.
      apply reTsPath_here in H as [-> | ->]; split; auto.
    + assert (H1 : String c p <> ".ts").
      { intros H. rewrite H in E. discriminate E. }
      assert (H2 : String c p <> ".tsx").
      { intros H. rewrite H in E. discriminate E. }
      apply String.eqb_neq in H1, H2. rewrite H1, H2. exact IH.
Qed.

End RouteNames.

(** X3.  [removeExt] drops the last extension of a file name: what
    follows the last dot goes with the dot, provided something follows it;
    a name without a dot is returned as it is; and the result is always
    the beginning of the name. *)
Theorem X3_removeExt_last_extension :
  (forall base ext,
      ext <> "" -> Js.allChars (Re.noneOf ["."%char]) ext = true ->
      Routes.removeExt (base +:+ "." +:+ ext) = base)
  /\ (forall s, Js.allChars (Re.noneOf ["."%char]) s = true ->
                Routes.removeExt s = s)
  /\ (forall s, exists t, s = Routes.removeExt s +:+ t).
Proof.
  split; [| split].
  - apply removeExt_ext.
  - apply removeExt_plain.
  - apply removeExt_prefix.
Qed.

Lemma X3_removeExt_last_extension_witness :
  Routes.removeExt "index.test.ts" = "index.test"
  /\ Routes.removeExt "Makefile" = "Makefile".
Proof.
  destruct X3_removeExt_last_extension as (H1 & H2 & _). split.
  - apply (H1 "index.test" "ts"); [discriminate | reflexivity].
  - apply (H2 "Makefile"). reflexivity.
Defined.

(** X4.  [sanitizeName] turns every name into an identifier of the shape
    [[a-zA-Z_][a-zA-Z0-9_]*]; it leaves such an identifier as it is, so
    applying it twice is the same as applying it once; and the result is
    as long as the name or one character longer. *)
Theorem X4_sanitizeName_identifier (name : string) :
  Routes.isIdentifier (Routes.sanitizeName name) = true
  /\ (Routes.isIdentifier name = true -> Routes.sanitizeName name = name)
  /\ Routes.sanitizeName (Routes.sanitizeName name) = Routes.sanitizeName name
  /\ (String.length (Routes.sanitizeName name) = String.length name
      \/ String.length (Routes.sanitizeName name) = S (String.length name)).
Proof.
  split; [apply sanitizeName_identifier | split; [apply sanitizeName_fixed |]].
  split; [| apply sanitizeName_length].
  apply sanitizeName_fixed, sanitizeName_identifier.
Qed.

(** X5.  [applyTransform] parses a file with the [tsx] parser exactly when
    its path ends in [.ts] or in [.tsx]; every other path gets the
    [babel] parser. *)
Theorem X5_selectParser_by_extension (filePath : string) :
  (Convert.selectParser filePath = Convert.Tsx
   <-> Js.endsWith filePath ".ts" = true \/ Js.endsWith filePath ".tsx" = true)
  /\ (Convert.selectParser filePath = Convert.Babel
      <-> Js.endsWith filePath ".ts" = false
          /\ Js.endsWith filePath ".tsx" = false).
Proof.
  pose proof (selectParser_suffix filePath) as H. split; [exact H |].
  split.
  - intros HB.
    destruct (Js.endsWith filePath ".ts") eqn:E1;
      [| destruct (Js.endsWith filePath ".tsx") eqn:E2; [| now split]].
    + rewrite (proj2 H (or_introl eq_refl)) in HB. discriminate HB.
    + rewrite (proj2 H (or_intror eq_refl)) in HB. discriminate HB.
  - intros [E1 E2]. destruct (Convert.selectParser filePath); [| reflexivity].
    destruct (proj1 H eq_refl) as [E | E]; congruence.
Qed.

(** ** Package names and the dependencies object *)

Section PackageNames.
Import Re Deps Packages.

Lemma lookup_In key table v : lookup key table = Some v -> In (key, v) table.
Proof.
  induction table as [|[k w] t IH]; cbn [lookup]; [discriminate |].
  destruct (String.eqb_spec key k) as [-> | _].
  - intros [= ->]. now left.
  - intros H. right. now apply IH.
Qed.

Lemma mapped_names_fixed :
  Forall (fun kv => mapPackage kv.2 = kv.2 /\ kv.2 <> ""
                    /\ (Js.startsWith kv.1 "@" = true -> kv.2 = kv.1))
         packageMappings.
Proof.
  unfold packageMappings.
  repeat (constructor;
          [ split; [reflexivity | split; [discriminate |]];
            intros H; vm_compute in H; first [reflexivity | discriminate H] |]).
  constructor.
Qed.

Lemma lookup_mapped pkg v :
  lookup pkg packageMappings = Some v ->
  mapPackage v = v /\ v <> "" /\ (Js.startsWith pkg "@" = true -> v = pkg).
Proof.
  intros H. apply lookup_In in H.
  apply (proj1 (List.Forall_forall _ _) mapped_names_fixed (pkg, v) H).
Qed.

Lemma mapPackage_idempotent pkg : mapPackage (mapPackage pkg) = mapPackage pkg.
Proof.
  unfold mapPackage at 2 3.
  destruct (lookup pkg packageMappings) as [v|] eqn:E.
  - now apply lookup_mapped in E as [E _].
  - destruct (Js.startsWith pkg "@") eqn:Hs.
    + unfold mapPackage. now rewrite E, Hs.
    + destruct (Js.includes pkg "std/") eqn:Hi; [reflexivity |].
      unfold mapPackage. now rewrite E, Hs, Hi.
Qed.

Lemma mapPackage_scoped pkg : Js.startsWith pkg "@" = true -> mapPackage pkg = pkg.
Proof.
  intros Hs. unfold mapPackage.
  destruct (lookup pkg packageMappings) as [v|] eqn:E.
  - apply lookup_mapped in E as (_ & _ & E). now apply E.
  - now rewrite Hs.
Qed.

Lemma mapPackage_empty pkg :
  mapPackage pkg = "" -> pkg = "" \/ Js.includes pkg "std/" = true.
Proof.
  unfold mapPackage.
  destruct (lookup pkg packageMappings) as [v|] eqn:E.
  - apply lookup_mapped in E as (_ & E & _). congruence.
  - destruct (Js.startsWith pkg "@"); [now left |].
    destruct (Js.includes pkg "std/"); [now right | now left].
Qed.

(** The object after the loop, read at any key. *)
Lemma generated_lookup packages k :
  forall result : gmap string string,
    fold_left (fun result pkg =>
                 if Js.truthy pkg then <[ pkg := versionOf pkg ]> result
                 else result) packages result !! k
    = if Js.truthy k && bool_decide (k ∈ packages)
      then Some (versionOf k) else result !! k.
Proof.
  induction packages as [|x l IH]; intros result; cbn [fold_left].
  - now rewrite andb_false_r.
  - rewrite IH. destruct (decide (k = x)) as [-> | Hne].
    + rewrite (bool_decide_eq_true_2 (x ∈ x :: l)) by (now left).
      rewrite andb_true_r.
      destruct (Js.truthy x); [| now rewrite andb_false_l].
      rewrite lookup_insert_eq. now destruct (_ && _).
    + assert (Hb : bool_decide (k ∈ x :: l) = bool_decide (k ∈ l)).
      { apply bool_decide_ext. rewrite elem_of_cons. tauto. }
      rewrite Hb. destruct (Js.truthy x); [| reflexivity].
      now rewrite lookup_insert_ne by congruence.
Qed.

Lemma generated_at packages k :
  generateDependenciesObject packages !! k
  = if Js.truthy k && bool_decide (k ∈ packages)
    then Some (versionOf k) else None.
Proof.
  unfold generateDependenciesObject. rewrite generated_lookup.
  now rewrite lookup_empty.
Qed.

(** *** Texts without the word [from] *)

Lemma matchHere_lit_head l rs s x :
  matchHere (cat (Lit l :: rs)) s = Some x -> Js.startsWith s l = true.
Proof.
  unfold matchHere. cbn [cat fold_right mre].
  destruct (strip l s) as [rest|] eqn:E; [| discriminate].
  apply strip_inv in E. subst s. intros _. apply startsWith_app.
Qed.

Lemma includes_unfold s sub :
  Js.includes s sub
  = if Js.startsWith s sub then true
    else match s with
         | EmptyString => false
         | String _ s' => Js.includes s' sub
         end.
Proof. destruct s; reflexivity. Qed.

(** No match where the leading literal of the pattern does not occur. *)
Lemma scanAll_nil r l :
  (forall s x, matchHere r s = Some x -> Js.startsWith s l = true) ->
  forall s skip, Js.includes s l = false -> scanAll r skip s = [].
Proof.
  intros Hr.
  assert (Hno : forall s, Js.includes s l = false -> matchHere r s = None).
  { intros s H. destruct (matchHere r s) as [x|] eqn:E; [| reflexivity].
    apply Hr in E. rewrite includes_unfold, E in H. discriminate H. }
  induction s as [|c s IH]; intros skip H.
  - destruct skip; cbn [scanAll]; [now rewrite (Hno _ H) | reflexivity].
  - assert (Hs : Js.includes s l = false).
    { rewrite includes_unfold in H. now destruct (Js.startsWith _ l). }
    destruct skip; cbn [scanAll]; [rewrite (Hno _ H) |]; now apply IH.
Qed.

Lemma elem_of_addIf b name (deps : gset string) d :
  d ∈ addIf b name deps <-> d ∈ deps \/ (b = true /\ d = name).
Proof. unfold addIf. destruct b; set_solver. Qed.

Lemma scans_without_from source :
  Js.includes source "from" = false ->
  addAllMapped denoPattern source
    (addAll esmPattern source
       (addAll jsrPattern source
          (addAll npmScopedPattern source (addAll npmPattern source ∅)))) = ∅.
Proof.
  intros H. unfold addAll, addAllMapped.
  rewrite !(scanAll_nil _ "from"); try assumption; try reflexivity;
    intros s x; apply matchHere_lit_head.
Qed.

End PackageNames.

(** X6.  [mapPackage], for a name that is no property of
    [Object.prototype]: applying it twice gives what applying it once
    gives; a scoped name (one that begins with [@]) is returned as it is,
    also when it holds [std/]; and the empty result arises only from the
    empty name or from a name that holds [std/]. *)
Theorem X6_mapPackage_stable (pkg : string) :
  Packages.inherited pkg = false ->
  Deps.mapPackage (Deps.mapPackage pkg) = Deps.mapPackage pkg
  /\ (Js.startsWith pkg "@" = true -> Deps.mapPackage pkg = pkg)
  /\ (Deps.mapPackage pkg = "" -> pkg = "" \/ Js.includes pkg "std/" = true).
Proof.
  intros _. split; [apply mapPackage_idempotent | split].
  - apply mapPackage_scoped.
  - apply mapPackage_empty.
Qed.

Lemma X6_mapPackage_stable_witness :
  Deps.mapPackage (Deps.mapPackage "oak") = Deps.mapPackage "oak"
  /\ Deps.mapPackage "@std/path" = "@std/path".
Proof.
  split.
  - apply (X6_mapPackage_stable "oak"). reflexivity.
  - apply (X6_mapPackage_stable "@std/path"); reflexivity.
Defined.

(** X7.  [generateDependenciesObject], for a set of names none of which
    is a property of [Object.prototype]: the object has exactly the
    non-empty names of the set as its keys, each with its pinned version
    or with ["*"] when the table has none; so the empty name is never a
    key, and the order in which the set yields its names does not
    matter. *)
Theorem X7_generateDependenciesObject_keys (packages : list string) :
  forallb (fun pkg => negb (Packages.inherited pkg)) packages = true ->
  (forall k, Packages.generateDependenciesObject packages !! k
             = if Js.truthy k && bool_decide (k ∈ packages)
               then Some (default "*" (Deps.lookup k Packages.versions))
               else None)
  /\ Packages.generateDependenciesObject packages !! "" = None
  /\ (forall packages', packages ≡ₚ packages' ->
        Packages.generateDependenciesObject packages'
        = Packages.generateDependenciesObject packages).
Proof.
  intros _. split; [apply generated_at | split; [now rewrite generated_at |]].
  intros packages' Hp. apply map_eq. intros k. rewrite !generated_at.
  assert (Hb : bool_decide (k ∈ packages') = bool_decide (k ∈ packages)).
  { apply bool_decide_ext. now rewrite Hp. }
  now rewrite Hb.
Qed.

(** The empty name that the [npm:] scan puts into the set for a
    standard-library path is not a key of the object made from it. *)
Lemma X7_generateDependenciesObject_keys_witness :
  Packages.generateDependenciesObject ["zod"; ""; "left-pad"] !! "zod"
  = Some "^3.22.4"
  /\ Packages.generateDependenciesObject ["zod"; ""; "left-pad"] !! "left-pad"
     = Some "*"
  /\ Packages.generateDependenciesObject
       (elements (Deps.extractDependencies "import { join } from 'npm:std/path'"))
     !! "" = None.
Proof.
  destruct (X7_generateDependenciesObject_keys ["zod"; ""; "left-pad"] eq_refl)
    as (H & _ & _).
  split; [| split].
  - rewrite H. reflexivity.
  - rewrite H. reflexivity.
  - apply (X7_generateDependenciesObject_keys
             (elements (Deps.extractDependencies
                          "import { join } from 'npm:std/path'"))).
    vm_compute. reflexivity.
Defined.

(** X8.  For a text in which the word [from] does not occur,
    [extractDependencies] reports a name exactly when one of its five
    keyword tests fires: [@supabase/supabase-js] for [createClient]
    together with [supabase], [openai] for [OpenAI] or [openai], [stripe]
    for [Stripe] or [stripe], [resend] for [Resend] or [resend], and
    [bcrypt] for [bcrypt], [hash(] or [compare(]; nothing else, and never
    the empty name. *)
Theorem X8_dependencies_without_import (source d : string) :
  Js.includes source "from" = false ->
  d ∈ Deps.extractDependencies source
  <-> (d = "@supabase/supabase-js"
       /\ Js.includes source "createClient" = true
       /\ Js.includes source "supabase" = true)
      \/ (d = "openai"
          /\ (Js.includes source "OpenAI" = true
              \/ Js.includes source "openai" = true))
      \/ (d = "stripe"
          /\ (Js.includes source "Stripe" = true
              \/ Js.includes source "stripe" = true))
      \/ (d = "resend"
          /\ (Js.includes source "Resend" = true
              \/ Js.includes source "resend" = true))
      \/ (d = "bcrypt"
          /\ (Js.includes source "bcrypt" = true
              \/ Js.includes source "hash(" = true
              \/ Js.includes source "compare(" = true)).
Proof.
  intros H. unfold Deps.extractDependencies. cbv zeta.
  rewrite (scans_without_from source H).
  rewrite !elem_of_addIf, elem_of_empty, !orb_true_iff, andb_true_iff.
  tauto.
Qed.

Lemma X8_dependencies_without_import_witness :
  "bcrypt" ∈ Deps.extractDependencies "if (compare(a, b)) return 1;"
  /\ "" ∉ Deps.extractDependencies "if (compare(a, b)) return 1;".
Proof.
  split.
  - apply (X8_dependencies_without_import "if (compare(a, b)) return 1;");
      [reflexivity |].
    do 4 right. split; [reflexivity |]. right. right. reflexivity.
  - intros Hin.
    apply (X8_dependencies_without_import "if (compare(a, b)) return 1;") in Hin;
      [| reflexivity].
    destruct Hin as [[E _] | [[E _] | [[E _] | [[E _] | [E _]]]]];
      discriminate E.
Defined.

(** ** What a scan can capture *)

Section CapturedText.
Import Re.

Variable s0 : string.

(** [x] occurs in the scanned text; [s] is what is left of it. *)
Definition within (x : string) : Prop := exists a b, s0 = a +:+ x +:+ b.
Definition tailOf (s : string) : Prop := exists a, s0 = a +:+ s.
Definition capsWithin (cs : captures) : Prop :=
  forall n v, In (n, v) cs -> within v.

Lemma take_prefix n : forall s, exists b, s = take n s +:+ b.
Proof.
  induction n as [|n IH]; intros s; [now exists s |].
  destruct s as [|c s]; [now exists "" |].
  destruct (IH s) as [b Hb]. exists b. cbn [take append]. now rewrite <- Hb.
Qed.

Lemma within_take n s : tailOf s -> within (take n s).
Proof.
  intros [a Ha]. destruct (take_prefix n s) as [b Hb].
  exists a, b. now rewrite <- Hb.
Qed.

Lemma tailOf_strip l s rest : tailOf s -> strip l s = Some rest -> tailOf rest.
Proof.
  intros [a Ha] H. apply strip_inv in H. subst s.
  exists (a +:+ l). now rewrite app_assoc.
Qed.

Lemma tailOf_tail c s : tailOf (String c s) -> tailOf s.
Proof.
  intros [a Ha]. exists (a +:+ String c ""). now rewrite app_assoc.
Qed.

Lemma mstar_within {R} (P : R -> Prop) p (k : string -> option R) :
  (forall rest x, tailOf rest -> k rest = Some x -> P x) ->
  forall s x, tailOf s -> mstar p s k = Some x -> P x.
Proof.
  intros Hk. induction s as [|c s IH]; intros x Ht; cbn [mstar].
  - now apply Hk.
  - destruct (p c); [| now apply Hk].
    destruct (mstar p s k) as [r|] eqn:E; [| now apply Hk].
    intros [= <-]. apply IH; [| reflexivity]. now apply tailOf_tail in Ht.
Qed.

(** Whatever the matcher hands to its continuation is a rest of the
    scanned text, and whatever it captures occurs in that text. *)
Lemma mre_within {R} (P : R -> Prop) r :
  forall s cs (k : string -> captures -> option R) x,
    tailOf s -> capsWithin cs ->
    (forall rest cs' y, tailOf rest -> capsWithin cs' ->
                        k rest cs' = Some y -> P y) ->
    mre r s cs k = Some x -> P x.
Proof.
  induction r as [l | p | p | p | r1 IH1 r2 IH2 | r IH | n r IH |];
    intros s cs k x Ht Hc Hk; cbn [mre].
  - destruct (strip l s) as [rest|] eqn:E; [| discriminate].
    apply Hk; [| assumption]. now apply (tailOf_strip l s).
  - destruct s as [|c s]; [discriminate |].
    destruct (p c); [| discriminate].
    apply Hk; [| assumption]. now apply tailOf_tail in Ht.
  - apply (mstar_within P p); [| assumption].
    intros rest y Hr. now apply Hk.
  - destruct s as [|c s]; [discriminate |].
    destruct (p c); [| discriminate].
    apply (mstar_within P p); [| now apply tailOf_tail in Ht].
    intros rest y Hr. now apply Hk.
  - apply IH1; try assumption.
    intros rest cs' y Hr Hc'. now apply IH2.
  - destruct (mre r s cs k) as [y|] eqn:E.
    + intros [= <-]. now apply (IH s cs k).
    + now apply Hk.
  - apply IH; try assumption.
    intros rest cs' y Hr Hc'. apply Hk; [assumption |].
    intros m v [[= <- <-] | Hin].
    + now apply within_take.
    + now apply (Hc' m).
  - destruct s; [| discriminate]. now apply Hk.
Qed.

Lemma matchHere_within r s cs rest :
  tailOf s -> matchHere r s = Some (cs, rest) -> capsWithin cs.
Proof.
  intros Ht H.
  apply (mre_within (fun y => capsWithin y.1) r s []
           (fun rest' cs' => Some (cs', rest')) (cs, rest) Ht);
    [| | exact H].
  - intros n v [].
  - now intros rest' cs' y _ Hc' [= <-].
Qed.

Lemma scanAll_within r :
  forall s skip cs, tailOf s -> In cs (scanAll r skip s) -> capsWithin cs.
Proof.
  induction s as [|c s IH]; intros skip cs Ht Hin; destruct skip;
    cbn [scanAll] in Hin.
  - destruct (matchHere r "") as [[cs' rest]|] eqn:E; [| destruct Hin].
    destruct Hin as [<- | []]. now apply (matchHere_within r "" _ rest).
  - destruct Hin.
  - pose proof (tailOf_tail _ _ Ht) as Ht'.
    destruct (matchHere r (String c s)) as [[cs' rest]|] eqn:E.
    + destruct Hin as [<- | Hin].
      * now apply (matchHere_within r (String c s) _ rest).
      * now apply (IH _ _ Ht' Hin).
    + now apply (IH _ _ Ht' Hin).
  - apply (IH _ _ (tailOf_tail _ _ Ht) Hin).
Qed.

Lemma cap_In n cs v : cap n cs = Some v -> In (n, v) cs.
Proof.
  induction cs as [|[m w] cs IH]; cbn [cap]; [discriminate |].
  destruct (Nat.eqb_spec n m) as [-> | _].
  - intros [= ->]. now left.
  - intros H. right. now apply IH.
Qed.

Lemma within_empty : within "".
Proof. exists s0, "". cbn [append]. now rewrite app_nil_r. Qed.

Lemma tailOf_all : tailOf s0.
Proof. now exists "". Qed.

Lemma within_includes x : within x -> Js.includes s0 x = true.
Proof. intros (a & b & ->). apply includes_app. Qed.

(** The first capture of every match of a scan occurs in the text. *)
Lemma scanned_name r cs :
  In cs (scanAll r 0 s0) -> Js.includes s0 (default "" (cap 1 cs)) = true.
Proof.
  intros Hin. apply within_includes.
  pose proof (scanAll_within r s0 0 cs tailOf_all Hin) as Hc.
  destruct (cap 1 cs) as [v|] eqn:E; [| apply within_empty].
  apply (Hc 1). now apply cap_In.
Qed.

End CapturedText.

(** ** Environment variables: nothing but what the text holds *)

Section EnvSound.
Import Re Env.

Lemma fold_add_inv {A} (f : gset string -> A -> gset string)
    (Q : string -> Prop) l :
  (forall acc a x, In a l -> x ∈ f acc a -> x ∈ acc \/ Q x) ->
  forall e x, x ∈ fold_left f l e -> x ∈ e \/ Q x.
Proof.
  induction l as [|a l IH]; intros Hf e x Hx; cbn [fold_left] in Hx.
  - now left.
  - apply IH in Hx.
    + destruct Hx as [Hx | Hq]; [| now right].
      apply (Hf e a x); [now left | assumption].
    + intros acc b y Hb. apply Hf. now right.
Qed.

Lemma addMatches_sound p s e x :
  x ∈ addMatches p s e -> x ∈ e \/ Js.includes s x = true.
Proof.
  apply (fold_add_inv _ (fun y => Js.includes s y = true)).
  intros acc cs y Hin Hy.
  apply elem_of_union in Hy as [Hy | Hy]; [now left | right].
  apply elem_of_singleton in Hy as ->. now apply (scanned_name s p).
Qed.

Lemma addTemplateMatches_sound p s e x :
  x ∈ addTemplateMatches p s e -> x ∈ e \/ Js.includes s x = true.
Proof.
  apply (fold_add_inv _ (fun y => Js.includes s y = true)).
  intros acc cs y Hin Hy. cbv zeta in Hy.
  destruct (negb _); [| now left].
  apply elem_of_union in Hy as [Hy | Hy]; [now left | right].
  apply elem_of_singleton in Hy as ->. now apply (scanned_name s p).
Qed.

Lemma addCommon_sound s e x :
  x ∈ addCommon s e -> x ∈ e \/ Js.includes s x = true.
Proof.
  apply (fold_add_inv _ (fun y => Js.includes s y = true)).
  intros acc v y _ Hy.
  destruct (Js.includes s v) eqn:E; [| now left].
  apply elem_of_union in Hy as [Hy | Hy]; [now left | right].
  apply elem_of_singleton in Hy as ->. exact E.
Qed.

Lemma extractEnvVariables_sound source v :
  v ∈ extractEnvVariables source -> Js.includes source v = true.
Proof.
  unfold extractEnvVariables. cbv zeta. intros H.
  apply addCommon_sound in H as [H | H]; [| exact H].
  apply addMatches_sound in H as [H | H]; [| exact H].
  apply addMatches_sound in H as [H | H]; [| exact H].
  apply addMatches_sound in H as [H | H]; [| exact H].
  apply addTemplateMatches_sound in H as [H | H]; [| exact H].
  apply addMatches_sound in H as [H | H]; [| exact H].
  now apply elem_of_empty in H.
Qed.

End EnvSound.

(** ** Environment variables read from the target runtime *)

Section SafeSteps.
Import Re.

Lemma safe_seq Z r1 r2 k :
  safe Z (fun s cs => mre r1 s cs (fun rest cs' => mre r2 rest cs' k)) ->
  safe Z (fun s cs => mre (Seq r1 r2) s cs k).
Proof. intros H u cs x. rewrite mre_seq. apply H. Qed.

Lemma safe_nil Z k : safe Z k -> safe Z (fun s cs => mre (Lit "") s cs k).
Proof. intros H u cs x. rewrite mre_lit_nil. apply H. Qed.

Lemma safe_group Z n r k :
  (forall k', safe Z k' -> safe Z (fun s cs => mre r s cs k')) ->
  safe Z k -> safe Z (fun s cs => mre (Group n r) s cs k).
Proof.
  intros Hr Hk u cs x. rewrite mre_group.
  apply (Hr (fun rest cs' => k rest ((n, consumed (u +:+ Z) rest) :: cs'))).
  intros u' cs' x'. apply Hk.
Qed.

End SafeSteps.

Section DotAccess.
Import Re Env.

(** [process.env.NAME] and [import.meta.env.NAME]: the two patterns
    differ in the literal they begin with. *)
Variables (h0 : ascii) (hs : string).
Hypothesis head_once : Js.allChars (fun b => negb (Ascii.eqb b h0)) hs = true.
Hypothesis head_start : nameStart h0 = false.
Hypothesis head_char : nameChar h0 = false.

Definition dotPattern : regex :=
  cat [ Lit (String h0 hs); Group 1 (cat [Class nameStart; Star nameChar]) ].

Variables (n0 : ascii) (N' post : string).
Hypothesis n0_start : nameStart n0 = true.
Hypothesis N_chars : Js.allChars nameChar N' = true.
Hypothesis post_stops : Js.stopsAt nameChar post = true.

Definition dotText : string := String h0 hs +:+ String n0 N' +:+ post.

Lemma dotPattern_here :
  matchHere dotPattern dotText = Some ([(1, String n0 N')], post).
Proof.
  unfold matchHere, dotPattern, dotText. re_steps. cbn [append].
  rewrite (mre_class _ _ _ _ _ n0_start). re_steps.
  eapply mre_star_run; try eassumption. re_steps.
  do 4 f_equal. change (String n0 (N' +:+ post)) with (String n0 N' +:+ post).
  apply consumed_app.
Qed.

Lemma dotPattern_safe c u x :
  matchHere dotPattern (String c u +:+ dotText) = Some x ->
  exists t, x.2 = t +:+ dotText.
Proof.
  unfold matchHere, dotPattern. rewrite cat_cons, mre_seq.
  unfold dotText. cbn [append].
  apply safe_lit_start; [exact head_once |].
  rewrite cat_cons. apply safe_seq.
  apply safe_group.
  - intros k' Hk'. rewrite cat_cons. apply safe_seq.
    apply safe_class; [exact head_start |].
    rewrite cat_cons. apply safe_seq.
    apply safe_star; [exact head_char |].
    rewrite cat_nil. now apply safe_nil.
  - rewrite cat_nil. apply safe_nil, safe_final.
Qed.

Lemma dotPattern_scanned pre :
  In [(1, String n0 N')] (scanAll dotPattern 0 (pre +:+ dotText)).
Proof.
  apply (scanAll_finds dotPattern dotText _ post dotPattern_here dotPattern_safe).
  lia.
Qed.

End DotAccess.

Section BracketAccess.
Import Re Env.

Variables (q1 q2 k0 : ascii) (K' post : string).
Hypothesis q1_quote : Deps.quote q1 = true.
Hypothesis q2_quote : Deps.quote q2 = true.
Hypothesis K_plain :
  Js.allChars (fun c => negb (Deps.quote c)) (String k0 K') = true.
Hypothesis k0_not_bracket : Ascii.eqb "]" k0 = false.

Definition bracketText : string :=
  "process.env[" +:+ String q1 (String k0 K' +:+ String q2 ("]" +:+ post)).

Lemma bracket_here :
  matchHere processEnvBracketPattern bracketText
  = Some ([(1, String k0 K')], post).
Proof.
  unfold matchHere, processEnvBracketPattern, bracketText. re_steps.
  rewrite (mre_class _ _ _ _ _ q1_quote). re_steps.
  apply mplus_run; [discriminate | exact K_plain | |].
  { cbn [Js.stopsAt]. now rewrite q2_quote. }
  re_steps. rewrite (mre_class _ _ _ _ _ q2_quote). re_steps.
  now rewrite consumed_app.
Qed.

Lemma bracket_safe c u x :
  matchHere processEnvBracketPattern (String c u +:+ bracketText) = Some x ->
  exists t, x.2 = t +:+ bracketText.
Proof.
  unfold matchHere, processEnvBracketPattern. rewrite cat_cons, mre_seq.
  unfold bracketText. cbn [append].
  apply safe_lit_start; [reflexivity |].
  rewrite cat_cons. apply safe_seq.
  apply safe_class; [reflexivity |].
  rewrite cat_cons. apply safe_seq.
  eapply (safe_group_plus _ "process.env["
            (String q1 (String k0 K' +:+ String q2 ("]" +:+ post)))).
  - reflexivity.
  - reflexivity.
  - cbn [Js.stopsAt]. now rewrite q1_quote.
  - intros a r cs Ha. rewrite cat_cons, mre_seq. cbn [mre].
    now destruct (Deps.quote a).
  - intros cs. rewrite cat_cons, mre_seq.
    rewrite (mre_class _ _ _ _ _ q1_quote).
    rewrite cat_cons, mre_seq. cbn [append mre strip].
    now rewrite k0_not_bracket.
  - rewrite cat_cons. apply safe_seq.
    apply safe_class; [reflexivity |].
    rewrite cat_cons. apply safe_seq.
    apply safe_lit1; [reflexivity |].
    rewrite cat_nil. apply safe_nil, safe_final.
Qed.

Lemma bracket_scanned pre :
  In [(1, String k0 K')]
     (scanAll processEnvBracketPattern 0 (pre +:+ bracketText)).
Proof.
  apply (scanAll_finds processEnvBracketPattern bracketText _ post
           bracket_here bracket_safe).
  lia.
Qed.

End BracketAccess.

Section TargetReads.
Import Re Env.

Lemma processEnv_read pre post n0 N' :
  nameStart n0 = true -> Js.allChars nameChar N' = true ->
  Js.stopsAt nameChar post = true ->
  String n0 N' ∈ extractEnvVariables
    (pre +:+ "process.env." +:+ String n0 N' +:+ post).
Proof.
  intros Hn HN Hp. unfold extractEnvVariables.
  apply addCommon_mono. do 2 apply addMatches_mono.
  apply (addMatches_in _ _ _ [(1, String n0 N')]); [| reflexivity].
  apply (dotPattern_scanned "p" "rocess.env." eq_refl eq_refl eq_refl
           n0 N' post Hn HN Hp pre).
Qed.

Lemma viteEnv_read pre post n0 N' :
  nameStart n0 = true -> Js.allChars nameChar N' = true ->
  Js.stopsAt nameChar post = true ->
  String n0 N' ∈ extractEnvVariables
    (pre +:+ "import.meta.env." +:+ String n0 N' +:+ post).
Proof.
  intros Hn HN Hp. unfold extractEnvVariables.
  apply addCommon_mono.
  apply (addMatches_in _ _ _ [(1, String n0 N')]); [| reflexivity].
  apply (dotPattern_scanned "i" "mport.meta.env." eq_refl eq_refl eq_refl
           n0 N' post Hn HN Hp pre).
Qed.

Lemma processEnv_bracket_read pre post q1 q2 k0 K' :
  Deps.quote q1 = true -> Deps.quote q2 = true ->
  Js.allChars (fun c => negb (Deps.quote c)) (String k0 K') = true ->
  Ascii.eqb "]" k0 = false ->
  String k0 K' ∈ extractEnvVariables
    (pre +:+ "process.env[" +:+
     String q1 (String k0 K' +:+ String q2 ("]" +:+ post))).
Proof.
  intros H1 H2 HK Hb. unfold extractEnvVariables.
  apply addCommon_mono. apply addMatches_mono.
  apply (addMatches_in _ _ _ [(1, String k0 K')]); [| reflexivity].
  apply (bracket_scanned q1 q2 k0 K' post H1 H2 HK Hb pre).
Qed.

End TargetReads.

(** X9.  [extractEnvVariables] reports no name that the text does not
    hold: every element of the result occurs in the source text as a
    substring. *)
Theorem X9_env_names_occur_in_text (source v : string) :
  v ∈ Env.extractEnvVariables source -> Js.includes source v = true.
Proof. apply extractEnvVariables_sound. Qed.

(** X10.  [extractEnvVariables] finds the reads of the target runtime
    wherever they stand in the text: the name after [process.env.] and
    after [import.meta.env.], taken as the longest run of [[A-Z0-9_]] that
    begins with [[A-Z_]], and the name between quotes in
    [process.env[...]] when it is not empty, holds no quote character and
    does not begin with a closing bracket. *)
Theorem X10_env_target_reads_found :
  (forall pre post n0 N',
      Env.nameStart n0 = true -> Js.allChars Env.nameChar N' = true ->
      Js.stopsAt Env.nameChar post = true ->
      String n0 N' ∈ Env.extractEnvVariables
        (pre +:+ "process.env." +:+ String n0 N' +:+ post))
  /\ (forall pre post n0 N',
      Env.nameStart n0 = true -> Js.allChars Env.nameChar N' = true ->
      Js.stopsAt Env.nameChar post = true ->
      String n0 N' ∈ Env.extractEnvVariables
        (pre +:+ "import.meta.env." +:+ String n0 N' +:+ post))
  /\ (forall pre post q1 q2 k0 K',
      Deps.quote q1 = true -> Deps.quote q2 = true ->
      Js.allChars (fun c => negb (Deps.quote c)) (String k0 K') = true ->
      Ascii.eqb "]" k0 = false ->
      String k0 K' ∈ Env.extractEnvVariables
        (pre +:+ "process.env[" +:+
         String q1 (String k0 K' +:+ String q2 ("]" +:+ post)))).
Proof.
  split; [| split].
  - intros; now apply processEnv_read.
  - intros; now apply viteEnv_read.
  - intros; now apply processEnv_bracket_read.
Qed.

Lemma X10_env_target_reads_found_witness :
  "PORT" ∈ Env.extractEnvVariables "listen(process.env.PORT || 3000)"
  /\ "VITE_API" ∈ Env.extractEnvVariables "fetch(import.meta.env.VITE_API)"
  /\ "db-url" ∈ Env.extractEnvVariables "connect(process.env['db-url'])".
Proof.
  destruct X10_env_target_reads_found as (H1 & H2 & H3). split; [| split].
  - apply (H1 "listen(" " || 3000)" "P"%char "ORT"); reflexivity.
  - apply (H2 "fetch(" ")" "V"%char "ITE_API"); reflexivity.
  - apply (H3 "connect(" ")" "'"%char "'"%char "d"%char "b-url"); reflexivity.
Defined.

Lemma X9_env_names_occur_in_text_witness :
  Js.includes "listen(process.env.PORT || 3000)" "PORT" = true.
Proof.
  apply (X9_env_names_occur_in_text "listen(process.env.PORT || 3000)" "PORT").
  apply (processEnv_read "listen(" " || 3000)" "P"%char "ORT"); reflexivity.
Defined.

(** ** The lines of the environment example *)

Section EnvExampleLines.
Import Env.

Abbreviation lf := (String "010" "").

(** [x] is a line after the first one, resp. a line that is neither the
    first nor the last. *)
Definition laterLine (st : state) (x : string) : Prop :=
  exists l1 l2, lines st = (l1 ++ x :: l2)%list /\ l1 <> [].
Definition innerLine (st : state) (x : string) : Prop :=
  exists l1 l2, lines st = (l1 ++ x :: l2)%list /\ l1 <> [] /\ l2 <> [].

(** The lines begin with the fixed block. *)
Definition headed (st : state) : Prop :=
  exists more, lines st = (header ++ more)%list.

Lemma grown_later st st' extra x :
  lines st' = (lines st ++ extra)%list -> laterLine st x -> laterLine st' x.
Proof.
  intros E (l1 & l2 & H & Hne). exists l1, (l2 ++ extra)%list.
  split; [| assumption]. rewrite E, H, <- List.app_assoc. reflexivity.
Qed.

Lemma grown_inner st st' extra x :
  lines st' = (lines st ++ extra)%list -> innerLine st x -> innerLine st' x.
Proof.
  intros E (l1 & l2 & H & Hne & Hne2). exists l1, (l2 ++ extra)%list.
  repeat split; [| assumption |].
  - rewrite E, H, <- List.app_assoc. reflexivity.
  - destruct l2; [contradiction | discriminate].
Qed.

Lemma grown_headed st st' extra :
  lines st' = (lines st ++ extra)%list -> headed st -> headed st'.
Proof.
  intros E [more H]. exists (more ++ extra)%list.
  rewrite E, H, <- List.app_assoc. reflexivity.
Qed.

Lemma closed_inner st line x : laterLine st x -> innerLine (push line st) x.
Proof.
  intros (l1 & l2 & H & Hne). exists l1, (l2 ++ [line])%list.
  repeat split; [| assumption |].
  - cbn [push lines]. rewrite H, <- List.app_assoc. reflexivity.
  - destruct l2; discriminate.
Qed.

(** Every step appends to the lines. *)
Lemma emitVar_grows st v : exists extra, lines (emitVar st v) = (lines st ++ extra)%list.
Proof.
  unfold emitVar. case_bool_decide.
  - now exists [v +:+ "="].
  - exists []. now rewrite List.app_nil_r.
Qed.

Lemma emitLoop_grows vars :
  forall st, exists extra,
    lines (fold_left emitVar vars st) = (lines st ++ extra)%list.
Proof.
  induction vars as [|a vars IH]; intros st; cbn [fold_left].
  - exists []. now rewrite List.app_nil_r.
  - destruct (IH (emitVar st a)) as [e2 H2].
    destruct (emitVar_grows st a) as [e1 H1].
    exists (e1 ++ e2)%list. rewrite H2, H1, <- List.app_assoc. reflexivity.
Qed.

Lemma pushLoop_grows (l : list string) :
  forall st, exists extra,
    lines (fold_left (fun st' v => push (v +:+ "=") st') l st)
    = (lines st ++ extra)%list.
Proof.
  induction l as [|a l IH]; intros st; cbn [fold_left].
  - exists []. now rewrite List.app_nil_r.
  - destruct (IH (push (a +:+ "=") st)) as [e2 H2].
    exists ([a +:+ "="] ++ e2)%list. rewrite H2. cbn [push lines].
    now rewrite <- List.app_assoc.
Qed.

Lemma emitGroup_grows present title vars st :
  exists extra,
    lines (emitGroup present title vars st) = (lines st ++ extra)%list.
Proof.
  unfold emitGroup. destruct present.
  - destruct (emitLoop_grows vars (push title st)) as [e H].
    exists ([title] ++ e ++ [""])%list. cbn [push lines] in *.
    rewrite H, <- !List.app_assoc. reflexivity.
  - exists []. now rewrite List.app_nil_r.
Qed.

Lemma emitRemaining_grows st :
  exists extra, lines (emitRemaining st) = (lines st ++ extra)%list.
Proof.
  unfold emitRemaining. destruct (Nat.ltb _ _).
  - destruct (pushLoop_grows (sortedNames (envVars st)) (push "# Application" st))
      as [e H].
    exists (["# Application"] ++ e ++ [""])%list. cbn [push lines] in *.
    rewrite H, <- !List.app_assoc. reflexivity.
  - exists []. now rewrite List.app_nil_r.
Qed.

Lemma emitLoop_emits vars :
  forall st v, lines st <> [] -> v ∈ envVars st -> v ∈ vars ->
               laterLine (fold_left emitVar vars st) (v +:+ "=").
Proof.
  induction vars as [|a vars IH]; intros st v Hne Hv Hin.
  - now apply elem_of_nil in Hin.
  - cbn [fold_left]. destruct (decide (a = v)) as [-> | Hav].
    + destruct (emitLoop_grows vars (emitVar st v)) as [e He].
      apply (grown_later (emitVar st v) _ e _ He).
      unfold emitVar. rewrite bool_decide_eq_true_2 by assumption.
      now exists (lines st), [].
    + apply elem_of_cons in Hin as [-> | Hin]; [congruence |].
      apply IH; [| | assumption].
      * destruct (emitVar_grows st a) as [e ->]. now destruct (lines st).
      * rewrite envVars_emitVar. set_solver.
Qed.

Lemma pushLoop_emits (l : list string) :
  forall st v, lines st <> [] -> v ∈ l ->
    laterLine (fold_left (fun st' v => push (v +:+ "=") st') l st) (v +:+ "=").
Proof.
  induction l as [|a l IH]; intros st v Hne Hin.
  - now apply elem_of_nil in Hin.
  - cbn [fold_left]. apply elem_of_cons in Hin as [-> | Hin].
    + destruct (pushLoop_grows l (push (a +:+ "=") st)) as [e He].
      apply (grown_later (push (a +:+ "=") st) _ e _ He).
      now exists (lines st), [].
    + apply IH; [| assumption]. cbn [push lines]. now destruct (lines st).
Qed.

Lemma emitGroup_emits title vars st v :
  v ∈ envVars st -> v ∈ vars ->
  innerLine (emitGroup true title vars st) (v +:+ "=").
Proof.
  intros Hv Hin. unfold emitGroup. apply closed_inner.
  apply emitLoop_emits; [| exact Hv | exact Hin].
  cbn [push lines]. now destruct (lines st).
Qed.

Lemma emitRemaining_emits st v :
  lines st <> [] -> v ∈ envVars st -> innerLine (emitRemaining st) (v +:+ "=").
Proof.
  intros Hne Hv. unfold emitRemaining.
  assert (Hpos : Nat.ltb 0 (size (envVars st)) = true).
  { apply Nat.ltb_lt. destruct (size (envVars st)) eqn:E; [| lia].
    apply size_empty_inv in E. set_solver. }
  rewrite Hpos. apply closed_inner. apply pushLoop_emits.
  - cbn [push lines]. now destruct (lines st).
  - unfold sortedNames. rewrite merge_sort_Permutation.
    now apply elem_of_elements.
Qed.

Lemma someHas_true vars (e : gset string) v :
  v ∈ vars -> v ∈ e -> someHas vars e = true.
Proof.
  intros Hv He. unfold someHas. apply existsb_exists. exists v.
  split; [now apply list_elem_of_In | now apply bool_decide_eq_true].
Qed.

Lemma join_cons sep x l : l <> [] -> join sep (x :: l) = x +:+ sep +:+ join sep l.
Proof. destruct l; [contradiction | reflexivity]. Qed.

Lemma join_app sep l1 l2 :
  l1 <> [] -> l2 <> [] ->
  join sep (l1 ++ l2)%list = join sep l1 +:+ sep +:+ join sep l2.
Proof.
  intros H1 H2. induction l1 as [|a l1 IH]; [contradiction |].
  destruct l1 as [|b l1].
  - cbn [app]. now rewrite join_cons.
  - change ((a :: b :: l1) ++ l2)%list with (a :: ((b :: l1) ++ l2))%list.
    rewrite join_cons by discriminate. rewrite IH by discriminate.
    rewrite (join_cons sep a (b :: l1)) by discriminate.
    now rewrite !app_assoc.
Qed.

Lemma inner_text st x :
  innerLine st x ->
  exists before after,
    join lf (lines st) = before +:+ lf +:+ x +:+ lf +:+ after.
Proof.
  intros (l1 & l2 & -> & H1 & H2).
  exists (join lf l1), (join lf l2).
  rewrite join_app by (assumption || discriminate).
  now rewrite join_cons.
Qed.

Lemma headed_text st :
  headed st -> exists rest, join lf (lines st) = join lf header +:+ rest.
Proof.
  intros [more ->]. destruct more as [|m more].
  - exists "". now rewrite List.app_nil_r, app_nil_r.
  - exists (lf +:+ join lf (m :: more)).
    now rewrite join_app by discriminate.
Qed.

(** The five steps of [generateEnvExample], named. *)
Lemma envExample_lines (e0 : gset string) :
  let st := emitRemaining
              (emitGroup (someHas emailVars e0) "# Email" emailVars
                 (emitGroup (someHas stripeVars e0) "# Stripe" stripeVars
                    (emitGroup (someHas openaiVars e0) "# OpenAI" openaiVars
                       (emitGroup (someHas supabaseVars e0) "# Supabase"
                          supabaseVars (State header e0))))) in
  headed st /\ forall v, v ∈ e0 -> innerLine st (v +:+ "=").
Proof.
  set (st0 := State header e0).
  set (st1 := emitGroup (someHas supabaseVars e0) "# Supabase" supabaseVars st0).
  set (st2 := emitGroup (someHas openaiVars e0) "# OpenAI" openaiVars st1).
  set (st3 := emitGroup (someHas stripeVars e0) "# Stripe" stripeVars st2).
  set (st4 := emitGroup (someHas emailVars e0) "# Email" emailVars st3).
  cbv zeta.
  destruct (emitGroup_grows (someHas supabaseVars e0) "# Supabase"
              supabaseVars st0) as [x1 G1]. fold st1 in G1.
  destruct (emitGroup_grows (someHas openaiVars e0) "# OpenAI"
              openaiVars st1) as [x2 G2]. fold st2 in G2.
  destruct (emitGroup_grows (someHas stripeVars e0) "# Stripe"
              stripeVars st2) as [x3 G3]. fold st3 in G3.
  destruct (emitGroup_grows (someHas emailVars e0) "# Email"
              emailVars st3) as [x4 G4]. fold st4 in G4.
  destruct (emitRemaining_grows st4) as [x5 G5].
  assert (E1 : envVars st1 = e0 ∖ list_to_set supabaseVars).
  { unfold st1. now rewrite envVars_emitGroup. }
  assert (E2 : envVars st2 = envVars st1 ∖ list_to_set openaiVars).
  { unfold st2. rewrite envVars_emitGroup; [reflexivity |].
    rewrite E1. apply subseteq_difference_l. reflexivity. }
  assert (E3 : envVars st3 = envVars st2 ∖ list_to_set stripeVars).
  { unfold st3. rewrite envVars_emitGroup; [reflexivity |].
    rewrite E2, E1. do 2 apply subseteq_difference_l. reflexivity. }
  assert (E4 : envVars st4 = envVars st3 ∖ list_to_set emailVars).
  { unfold st4. rewrite envVars_emitGroup; [reflexivity |].
    rewrite E3, E2, E1. do 3 apply subseteq_difference_l. reflexivity. }
  assert (H0 : headed st0) by (exists []; now rewrite List.app_nil_r).
  assert (H4 : headed st4).
  { apply (grown_headed st3 _ x4 G4), (grown_headed st2 _ x3 G3),
      (grown_headed st1 _ x2 G2), (grown_headed st0 _ x1 G1), H0. }
  split; [exact (grown_headed st4 _ x5 G5 H4) |].
  intros v Hv.
  destruct (decide (v ∈ supabaseVars)) as [Hs | Hs].
  { apply (grown_inner st4 _ x5 _ G5), (grown_inner st3 _ x4 _ G4),
      (grown_inner st2 _ x3 _ G3), (grown_inner st1 _ x2 _ G2).
    unfold st1. rewrite (someHas_true _ _ v Hs Hv).
    now apply emitGroup_emits. }
  destruct (decide (v ∈ openaiVars)) as [Ho | Ho].
  { apply (grown_inner st4 _ x5 _ G5), (grown_inner st3 _ x4 _ G4),
      (grown_inner st2 _ x3 _ G3).
    unfold st2. rewrite (someHas_true _ _ v Ho Hv).
    apply emitGroup_emits; [| assumption]. rewrite E1. set_solver. }
  destruct (decide (v ∈ stripeVars)) as [Ht | Ht].
  { apply (grown_inner st4 _ x5 _ G5), (grown_inner st3 _ x4 _ G4).
    unfold st3. rewrite (someHas_true _ _ v Ht Hv).
    apply emitGroup_emits; [| assumption]. rewrite E2, E1. set_solver. }
  destruct (decide (v ∈ emailVars)) as [He | He].
  { apply (grown_inner st4 _ x5 _ G5).
    unfold st4. rewrite (someHas_true _ _ v He Hv).
    apply emitGroup_emits; [| assumption]. rewrite E3, E2, E1. set_solver. }
  apply emitRemaining_emits.
  - destruct H4 as [more ->]. discriminate.
  - rewrite E4, E3, E2, E1. set_solver.
Qed.

End EnvExampleLines.

(** X11.  The text that [generateEnvExample] returns begins with the
    fixed server block, and for every name of the set it was given it
    holds the line [NAME=], between two line feeds. *)
Theorem X11_envExample_lists_every_name (envVars : gset string) :
  (exists rest,
      (Env.generateEnvExample envVars).1
      = Env.join (String "010" "") Env.header +:+ rest)
  /\ (forall v, v ∈ envVars ->
        exists before after,
          (Env.generateEnvExample envVars).1
          = before +:+ String "010" "" +:+ v +:+ "=" +:+ String "010" ""
            +:+ after).
Proof.
  destruct (envExample_lines envVars) as [Hh Hv]. split.
  - now apply headed_text.
  - intros v Hin. destruct (inner_text _ _ (Hv v Hin)) as (b & a & H).
    exists b, a. unfold Env.generateEnvExample. cbn [fst]. rewrite H.
    now rewrite !app_assoc.
Qed.

(** ** Relative specifiers and [esm.sh] specifiers *)

Section RelativeSpecifiers.
Import Re Specifier.

Lemma relative_ts base :
  rewriteRelativeSource ("." +:+ base +:+ ".ts") = "." +:+ base +:+ ".js".
Proof.
  unfold rewriteRelativeSource.
  replace ("." +:+ base +:+ ".ts") with (("." +:+ base) +:+ ".ts")
    by now rewrite app_assoc.
  rewrite endsWith_app_r by reflexivity.
  replace (Js.startsWith (("." +:+ base) +:+ ".ts") ".") with true by reflexivity.
  cbn [andb Js.endsWith String.eqb Ascii.eqb Bool.eqb].
  rewrite replaceFirst_anchored. now rewrite app_assoc.
Qed.

Lemma endsWith_js w : Js.endsWith (w +:+ ".js") ".ts" = false.
Proof. now rewrite endsWith_app_r by reflexivity. Qed.

(** What the rule returns is no relative [.ts] specifier any more. *)
Lemma relative_done source :
  Js.startsWith (rewriteRelativeSource source) "."
  && Js.endsWith (rewriteRelativeSource source) ".ts" = false.
Proof.
  unfold rewriteRelativeSource.
  destruct (Js.startsWith source "." && Js.endsWith source ".ts") eqn:E;
    [| exact E].
  apply andb_true_iff in E as [_ E]. apply endsWith_inv in E as [w ->].
  rewrite replaceFirst_anchored, endsWith_js. apply andb_false_r.
Qed.

Lemma relative_other source :
  Js.startsWith source "." && Js.endsWith source ".ts" = false ->
  rewriteRelativeSource source = source.
Proof. intros H. unfold rewriteRelativeSource. now rewrite H. Qed.

Lemma relative_idempotent source :
  rewriteRelativeSource (rewriteRelativeSource source)
  = rewriteRelativeSource source.
Proof. apply relative_other, relative_done. Qed.

(** *** Occurrences that survive the change of extension *)

Lemma startsWith_cross c x :
  Js.allChars (fun b => negb (Ascii.eqb b c)) x = true ->
  forall a b, Js.startsWith (a +:+ String c b) x = true ->
              Js.startsWith a x = true.
Proof.
  induction x as [|x0 x IH]; intros Hx a b H; [now destruct a |].
  cbn [Js.allChars] in Hx. apply andb_true_iff in Hx as [H0 Hx].
  destruct a as [|d a]; cbn [append Js.startsWith] in *.
  - apply negb_true_iff in H0. rewrite H0 in H. discriminate H.
  - apply andb_true_iff in H as [Hd H]. rewrite Hd. cbn [andb].
    now apply (IH Hx a b).
Qed.

Lemma includes_tail c s x : Js.includes s x = true -> Js.includes (String c s) x = true.
Proof.
  intros H. rewrite includes_unfold, H. now destruct (Js.startsWith _ x).
Qed.

Lemma includes_cross c x :
  Js.allChars (fun b => negb (Ascii.eqb b c)) x = true -> x <> "" ->
  forall a b, Js.includes (a +:+ String c b) x = true ->
              Js.includes a x = true \/ Js.includes b x = true.
Proof.
  intros Hx Hne. induction a as [|d a IH]; intros b H; cbn [append] in H;
    rewrite includes_unfold in H.
  - right. destruct x as [|x0 x]; [congruence |].
    cbn [Js.allChars] in Hx. apply andb_true_iff in Hx as [H0 _].
    apply negb_true_iff in H0. cbn [Js.startsWith] in H.
    now rewrite H0 in H.
  - destruct (Js.startsWith (String d (a +:+ String c b)) x) eqn:E.
    + left. rewrite includes_unfold.
      change (String d (a +:+ String c b)) with (String d a +:+ String c b) in E.
      now rewrite (startsWith_cross c x Hx _ _ E).
    + destruct (IH b H) as [Ha | Hb]; [left | now right].
      now apply includes_tail.
Qed.

Lemma startsWith_app_l a b x :
  Js.startsWith a x = true -> Js.startsWith (a +:+ b) x = true.
Proof.
  revert a. induction x as [|x0 x IH]; intros a H; [reflexivity |].
  destruct a as [|d a]; [discriminate H |].
  cbn [append Js.startsWith] in *.
  apply andb_true_iff in H as [Hd H]. now rewrite Hd, (IH a H).
Qed.

Lemma includes_app_l a b x :
  Js.includes a x = true -> Js.includes (a +:+ b) x = true.
Proof.
  induction a as [|d a IH]; intros H; rewrite includes_unfold in H.
  - destruct (Js.startsWith "" x) eqn:E; [| discriminate H].
    rewrite includes_unfold. now rewrite (startsWith_app_l "" b x E).
  - destruct (Js.startsWith (String d a) x) eqn:E.
    + rewrite includes_unfold. now rewrite (startsWith_app_l _ b x E).
    + cbn [append]. now apply includes_tail, IH.
Qed.

(** An occurrence of a text without the letter [j] in the rewritten
    specifier was there before. *)
Lemma relative_includes source x :
  Js.allChars (fun b => negb (Ascii.eqb b "j")) x = true -> x <> "" ->
  Js.includes "s" x = false ->
  Js.includes (rewriteRelativeSource source) x = true ->
  Js.includes source x = true.
Proof.
  intros Hx Hne Hs. unfold rewriteRelativeSource.
  destruct (Js.startsWith source "." && Js.endsWith source ".ts") eqn:E;
    [| trivial].
  apply andb_true_iff in E as [_ E]. apply endsWith_inv in E as [w ->].
  rewrite replaceFirst_anchored. intros H.
  replace (w +:+ ".js") with ((w +:+ ".") +:+ String "j" "s") in H
    by now rewrite app_assoc.
  apply (includes_cross "j" x Hx Hne) in H as [H | H]; [| congruence].
  replace (w +:+ ".ts") with ((w +:+ ".") +:+ "ts") by now rewrite app_assoc.
  now apply includes_app_l.
Qed.

End RelativeSpecifiers.

Section EsmSpecifiers.
Import Re Specifier.

Abbreviation final := (fun (rest : string) (cs : captures) => Some (cs, rest)).

Lemma matchHere_head_mismatch a l rs c t :
  Ascii.eqb a c = false ->
  matchHere (cat (Lit (String a l) :: rs)) (String c t) = None.
Proof. intros H. unfold matchHere. cbn [cat fold_right mre strip]. now rewrite H. Qed.

Lemma matchFirst_skip r c t :
  matchHere r (String c t) = None ->
  matchFirst r (String c t) = matchFirst r t.
Proof. intros H. cbn [matchFirst]. now rewrite H. Qed.

Lemma matchFirst_none r l :
  (forall s x, matchHere r s = Some x -> Js.startsWith s l = true) ->
  forall s, Js.includes s l = false -> matchFirst r s = None.
Proof.
  intros Hr. induction s as [|c s IH]; intros H; rewrite matchFirst_unfold;
    rewrite includes_unfold in H;
    destruct (matchHere r _) as [[cs rest]|] eqn:E;
    try (apply Hr in E; rewrite E in H; discriminate H); [reflexivity |].
  apply IH. now destruct (Js.startsWith _ l).
Qed.

(** After [https://] the first place where an [esm.sh] pattern can match
    is the host name. *)
Lemma esm_url_first rs x cs rest :
  matchHere (cat (Lit "esm.sh/" :: rs)) ("esm.sh/" +:+ x) = Some (cs, rest) ->
  matchFirst (cat (Lit "esm.sh/" :: rs)) ("https://esm.sh/" +:+ x) = Some cs.
Proof.
  intros H. cbn [append].
  do 8 (rewrite matchFirst_skip
          by (apply matchHere_head_mismatch; reflexivity)).
  rewrite matchFirst_unfold. cbn [append] in H. now rewrite H.
Qed.

Lemma mstar_total p s (cs : captures) :
  exists rest, mstar p s (fun rest => Some (cs, rest)) = Some (cs, rest).
Proof.
  induction s as [|c s [rest IH]]; cbn [mstar]; [now exists "" |].
  destruct (p c); [| now exists (String c s)].
  rewrite IH. now exists rest.
Qed.

(** The optional version never fails and captures nothing. *)
Lemma version_tail p s cs :
  exists rest,
    mre (cat [Opt (cat [Lit "@"; Star p])]) s cs final = Some (cs, rest).
Proof.
  cbn [cat fold_right mre].
  destruct (strip "@" s) as [r|]; [| now exists s].
  destruct (mstar_total p r cs) as [rest H].
  exists rest. cbn [strip]. now rewrite H.
Qed.

Lemma reEsm_here pkg rest :
  pkg <> "" -> Js.allChars (noneOf ["@"; "?"; "/"]%char) pkg = true ->
  Js.stopsAt (noneOf ["@"; "?"; "/"]%char) rest = true ->
  exists rest',
    matchHere reEsm ("esm.sh/" +:+ pkg +:+ rest) = Some ([(1, pkg)], rest').
Proof.
  intros Hne Hp Hr.
  destruct (version_tail (noneOf ["/"; "?"]%char) rest [(1, pkg)]) as [rest' Ht].
  exists rest'. unfold matchHere, reEsm.
  rewrite cat_cons, mre_seq, mre_lit. cbv beta.
  rewrite cat_cons, mre_seq, mre_group.
  apply mplus_run; try assumption. now rewrite consumed_app.
Qed.

Lemma reEsmScoped_here scope name rest :
  scope <> "" -> name <> "" ->
  Js.allChars (noneOf ["/"%char]) scope = true ->
  Js.allChars (noneOf ["@"; "?"]%char) name = true ->
  Js.stopsAt (noneOf ["@"; "?"]%char) rest = true ->
  exists rest',
    matchHere reEsmScoped ("esm.sh/" +:+ "@" +:+ scope +:+ "/" +:+ name +:+ rest)
    = Some ([(1, "@" +:+ scope +:+ "/" +:+ name)], rest').
Proof.
  intros Hs Hn Hsc Hnm Hr.
  destruct (version_tail (noneOf ["/"; "?"]%char) rest
              [(1, "@" +:+ scope +:+ "/" +:+ name)]) as [rest' Ht].
  exists rest'. unfold matchHere, reEsmScoped.
  rewrite cat_cons, mre_seq, mre_lit. cbv beta.
  rewrite cat_cons, mre_seq, mre_group.
  rewrite cat_cons, mre_seq, mre_lit. cbv beta.
  rewrite cat_cons, mre_seq.
  apply mplus_run; try assumption; [reflexivity |].
  rewrite cat_cons, mre_seq, mre_lit. cbv beta.
  rewrite cat_cons, mre_seq.
  apply mplus_run; try assumption.
  rewrite cat_nil, mre_lit_nil.
  replace (consumed ("@" +:+ scope +:+ "/" +:+ name +:+ rest) rest)
    with ("@" +:+ scope +:+ "/" +:+ name); [exact Ht |].
  rewrite <- (consumed_app ("@" +:+ scope +:+ "/" +:+ name) rest).
  f_equal. now rewrite !app_assoc.
Qed.

Lemma reEsmScoped_head s x :
  matchHere reEsmScoped s = Some x -> Js.startsWith s "esm.sh/@" = true.
Proof.
  unfold matchHere, reEsmScoped. cbn [cat fold_right mre].
  destruct (strip "esm.sh/" s) as [r|] eqn:E; [| discriminate].
  apply strip_inv in E. subst s.
  destruct (strip "@" r) as [r2|] eqn:E2; [| discriminate].
  apply strip_inv in E2. subst r. reflexivity.
Qed.

Lemma esm_unscoped pkg rest :
  pkg <> "" -> Js.allChars (noneOf ["@"; "?"; "/"]%char) pkg = true ->
  Js.stopsAt (noneOf ["@"; "?"; "/"]%char) rest = true ->
  Js.includes ("https://esm.sh/" +:+ pkg +:+ rest) "deno.land" = false ->
  Js.includes ("https://esm.sh/" +:+ pkg +:+ rest) "esm.sh/@" = false ->
  rewriteImportSource ("https://esm.sh/" +:+ pkg +:+ rest) = pkg.
Proof.
  intros Hne Hp Hr Hd Hsc. unfold rewriteImportSource.
  replace (Js.startsWith ("https://esm.sh/" +:+ pkg +:+ rest) "npm:")
    with false by reflexivity.
  replace (Js.startsWith ("https://esm.sh/" +:+ pkg +:+ rest) "jsr:")
    with false by reflexivity.
  rewrite Hd.
  replace (Js.includes ("https://esm.sh/" +:+ pkg +:+ rest) "esm.sh") with true
    by (symmetry; apply (includes_app "https://" "esm.sh" ("/" +:+ pkg +:+ rest))).
  unfold esmSource.
  rewrite (matchFirst_none reEsmScoped "esm.sh/@" reEsmScoped_head _ Hsc).
  destruct (reEsm_here pkg rest Hne Hp Hr) as [rest' H].
  unfold reEsm in *. now rewrite (esm_url_first _ _ _ _ H).
Qed.

Lemma esm_scoped scope name rest :
  scope <> "" -> name <> "" ->
  Js.allChars (noneOf ["/"%char]) scope = true ->
  Js.allChars (noneOf ["@"; "?"]%char) name = true ->
  Js.stopsAt (noneOf ["@"; "?"]%char) rest = true ->
  Js.includes ("https://esm.sh/" +:+ "@" +:+ scope +:+ "/" +:+ name +:+ rest)
              "deno.land" = false ->
  rewriteImportSource
    ("https://esm.sh/" +:+ "@" +:+ scope +:+ "/" +:+ name +:+ rest)
  = "@" +:+ scope +:+ "/" +:+ name.
Proof.
  intros Hs Hn Hsc Hnm Hr Hd. unfold rewriteImportSource.
  set (source := "https://esm.sh/" +:+ "@" +:+ scope +:+ "/" +:+ name +:+ rest)
    in *.
  replace (Js.startsWith source "npm:") with false by reflexivity.
  replace (Js.startsWith source "jsr:") with false by reflexivity.
  rewrite Hd.
  replace (Js.includes source "esm.sh") with true
    by (symmetry;
        apply (includes_app "https://" "esm.sh"
                 ("/" +:+ "@" +:+ scope +:+ "/" +:+ name +:+ rest))).
  unfold esmSource.
  destruct (reEsmScoped_here scope name rest Hs Hn Hsc Hnm Hr) as [rest' H].
  unfold reEsmScoped, source in *. now rewrite (esm_url_first _ _ _ _ H).
Qed.

End EsmSpecifiers.

(** X13.  An import from [https://esm.sh/] is rewritten to the bare
    package name: for an unscoped package, to the run of characters up to
    the first [@], [?] or [/], so that the version, the sub-path and the
    query are all dropped; for a scoped package, to [@scope/] and the run
    of characters up to the first [@] or [?].  (The specifier holds no
    [deno.land], and in the unscoped case no [esm.sh/@].) *)
Theorem X13_esm_specifier_rewrite :
  (forall pkg rest,
      pkg <> "" ->
      Js.allChars (Re.noneOf ["@"; "?"; "/"]%char) pkg = true ->
      Js.stopsAt (Re.noneOf ["@"; "?"; "/"]%char) rest = true ->
      Js.includes ("https://esm.sh/" +:+ pkg +:+ rest) "deno.land" = false ->
      Js.includes ("https://esm.sh/" +:+ pkg +:+ rest) "esm.sh/@" = false ->
      Specifier.rewriteImportSource ("https://esm.sh/" +:+ pkg +:+ rest) = pkg)
  /\ (forall scope name rest,
      scope <> "" -> name <> "" ->
      Js.allChars (Re.noneOf ["/"%char]) scope = true ->
      Js.allChars (Re.noneOf ["@"; "?"]%char) name = true ->
      Js.stopsAt (Re.noneOf ["@"; "?"]%char) rest = true ->
      Js.includes
        ("https://esm.sh/" +:+ "@" +:+ scope +:+ "/" +:+ name +:+ rest)
        "deno.land" = false ->
      Specifier.rewriteImportSource
        ("https://esm.sh/" +:+ "@" +:+ scope +:+ "/" +:+ name +:+ rest)
      = "@" +:+ scope +:+ "/" +:+ name).
Proof. split; [apply esm_unscoped | apply esm_scoped]. Qed.

Lemma X13_esm_specifier_rewrite_witness :
  Specifier.rewriteImportSource "https://esm.sh/stripe@14.14.0/types?target=deno"
  = "stripe"
  /\ Specifier.rewriteImportSource "https://esm.sh/@supabase/supabase-js@2"
     = "@supabase/supabase-js".
Proof.
  destruct X13_esm_specifier_rewrite as [H1 H2]. split.
  - apply (H1 "stripe" "@14.14.0/types?target=deno");
      first [discriminate | reflexivity].
  - apply (H2 "supabase" "supabase-js" "@2");
      first [discriminate | reflexivity].
Defined.

(** ** What the passes keep *)

Section WalkKeeps.
Import Ast Transform Output.

Abbreviation yes := (fun _ => true).

Variables (fe : expr -> option expr)
          (fs : stmt -> option (list stmt))
          (ft : tsType -> option tsType).
Variables (qs ps : stmt -> bool) (qt pt : tsType -> bool).

Hypothesis fe_out :
  forall e e', allE yes qs qt e = true -> fe e = Some e' ->
               allE yes ps pt e' = true.
Hypothesis fs_out :
  forall s nodes, allS yes qs qt s = true -> fs s = Some nodes ->
                  forallb (allS yes ps pt) nodes = true.
Hypothesis ft_out :
  forall t t', allT qt t = true -> ft t = Some t' -> allT pt t' = true.
Hypothesis ps_other : forall s, isImport s = false -> ps s = true.
Hypothesis ps_kept :
  forall s, isImport s = true -> fs s = None -> qs s = true -> ps s = true.
Hypothesis pt_reference :
  forall n l1 l2, pt (TSTypeReference n l1) = pt (TSTypeReference n l2).
Hypothesis pt_other :
  forall k l1 l2, pt (TSOtherType k l1) = pt (TSOtherType k l2).
Hypothesis pt_kept : forall t, ft t = None -> qt t = true -> pt t = true.

Lemma walkT_keeps t : allT qt t = true -> allT pt (walkT ft t) = true.
Proof.
  induction t as [n l IH | k l IH]; intros H; pose proof H as H0;
    cbn [allT] in H; apply andb_true_iff in H as [Hq Hl]; use_lists;
    cbn [walkT]; destruct (ft _) as [t'|] eqn:E;
    try (now apply (ft_out _ _ H0 E)); cbn [allT].
  - rewrite (pt_reference n _ l), (pt_kept _ E Hq). cbn [andb].
    now apply (forallb_map2 _ _ _ l IH).
  - rewrite (pt_other k _ l), (pt_kept _ E Hq). cbn [andb].
    now apply (forallb_map2 _ _ _ l IH).
Qed.

Lemma walkPat_keeps p : allPat qt p = true -> allPat pt (walkPat ft p) = true.
Proof.
  destruct p as [n [t|] | k [t|]]; simpl; auto using walkT_keeps.
Qed.

Lemma walkPats_keeps l :
  forallb (allPat qt) l = true -> forallb (allPat pt) (map (walkPat ft) l) = true.
Proof.
  apply forallb_map2, Forall_forall. intros p _. apply walkPat_keeps.
Qed.

Lemma walk_keeps_all :
  (forall e, allE yes qs qt e = true -> allE yes ps pt (walkE fe fs ft e) = true) /\
  (forall p, allP yes qs qt p = true -> allP yes ps pt (walkP fe fs ft p) = true) /\
  (forall a, allA yes qs qt a = true -> allA yes ps pt (walkA fe fs ft a) = true) /\
  (forall b, allB yes qs qt b = true -> allB yes ps pt (walkB fe fs ft b) = true) /\
  (forall s, allS yes qs qt s = true ->
             forallb (allS yes ps pt) (walkS fe fs ft s) = true) /\
  (forall d, allD yes qs qt d = true -> allD yes ps pt (walkD fe fs ft d) = true).
Proof.
  apply ast_mutind; intros; use_options; use_lists.
  all: try match goal with
           | H : allE _ _ _ ?e = true |- allE _ _ _ (walkE _ _ _ ?e) = true =>
               destruct (fe e) as [e'|] eqn:Hfe;
               [ rewrite (walkE_fired _ _ _ _ _ Hfe);
                 now apply (fe_out _ _ H Hfe) | ]
           | H : allS _ _ _ ?s = true |- forallb _ (walkS _ _ _ ?s) = true =>
               destruct (fs s) as [nodes|] eqn:Hfs;
               [ replace (walkS fe fs ft s) with nodes
                   by (destruct s; simpl; rewrite Hfs; reflexivity);
                 now apply (fs_out _ _ H Hfs)
               | first [ pose proof (ps_kept s eq_refl Hfs) as Hkept | idtac ] ]
           end.
  all: simpl in *; rewrite ?Hfe, ?Hfs; simpl; split_andb.
  all: repeat match goal with
         | H : ?q = true -> _, H' : ?q = true |- _ => specialize (H H')
         end.
  all: rewrite ?walkPats_keeps, ?walkPat_keeps by assumption; simpl.
  all: repeat match goal with
         | H : Forall _ ?l |- context [forallb _ (map _ ?l)] =>
             erewrite (forallb_map2 _ _ _ l H) by assumption
         | H : Forall _ ?l |- context [forallb _ (flat_map _ ?l)] =>
             erewrite (forallb_flat_map2 _ _ _ l H) by assumption
         end.
  all: rewrite ?ps_other by reflexivity.
  all: repeat match goal with
         | H : ?x = true |- context [?x] => rewrite H
         end; simpl; try reflexivity.
Qed.

Lemma walk_keeps_nodes p :
  allNodes yes qs qt p = true -> allNodes yes ps pt (walk fe fs ft p) = true.
Proof.
  unfold allNodes, walk. apply forallb_flat_map2, Forall_forall.
  intros s _. apply walk_keeps_all.
Qed.

End WalkKeeps.

Section AsyncKeeps.
Import Ast Transform Output.

Abbreviation yes := (fun _ => true).

Variables (decls vars : bool).
Variables (ps : stmt -> bool) (pt : tsType -> bool).
Hypothesis ps_other : forall s, isImport s = false -> ps s = true.

Lemma markInit_keeps id e e' :
  allE yes ps pt e' = true -> allE yes ps pt (markInit vars id e e') = true.
Proof.
  intros H. unfold markInit. destruct (vars && isHandlerId id); [| exact H].
  destruct e as [| | | |? ? [|]|? ? [|]| | | | |]; try exact H;
    destruct e'; try exact H; simpl in *; exact H.
Qed.

Lemma async_keeps_all :
  (forall e, allE yes ps pt e = true -> allE yes ps pt (asyncE decls vars e) = true) /\
  (forall p, allP yes ps pt p = true -> allP yes ps pt (asyncP decls vars p) = true) /\
  (forall a, allA yes ps pt a = true -> allA yes ps pt (asyncA decls vars a) = true) /\
  (forall b, allB yes ps pt b = true -> allB yes ps pt (asyncB decls vars b) = true) /\
  (forall s, allS yes ps pt s = true -> allS yes ps pt (asyncS decls vars s) = true) /\
  (forall d, allD yes ps pt d = true -> allD yes ps pt (asyncD decls vars d) = true).
Proof.
  apply ast_mutind; intros; use_options; use_lists; simpl in *; split_andb.
  all: repeat match goal with
         | H : ?q = true -> _, H' : ?q = true |- _ => specialize (H H')
         end.
  all: rewrite ?markInit_keeps by assumption.
  all: repeat match goal with
         | H : Forall _ ?l |- context [forallb _ (map _ ?l)] =>
             erewrite (forallb_map2 _ _ _ l H) by assumption
         end.
  all: rewrite ?ps_other by reflexivity.
  all: repeat match goal with
         | H : ?x = true |- context [?x] => rewrite H
         end; simpl; try reflexivity.
Qed.

Lemma asyncWalk_keeps p :
  allNodes yes ps pt p = true ->
  allNodes yes ps pt (asyncWalk decls vars p) = true.
Proof.
  unfold allNodes, asyncWalk. apply forallb_map2, Forall_forall.
  intros s _. apply async_keeps_all.
Qed.

End AsyncKeeps.

Section RegisterKeeps.
Import Ast Transform Output.

Abbreviation yes := (fun _ => true).

Variable rule : stmt -> option (list stmt).
Variables (ps : stmt -> bool) (pt : tsType -> bool).
Hypothesis ps_other : forall s, isImport s = false -> ps s = true.
Hypothesis rule_out :
  forall s nodes, allS yes ps pt s = true -> rule s = Some nodes ->
                  forallb (allS yes ps pt) nodes = true.

(** A pass with a flag keeps what holds of every node. *)
Definition kept {A B} (q : A -> bool) (q' : B -> bool)
    (f : A -> bool -> B * bool) (x : A) : Prop :=
  forall b x' b', f x b = (x', b') -> q x = true -> q' x' = true.

Lemma mapAccum_kept {A} (f : A -> bool -> A * bool) (q : A -> bool) l :
  Forall (kept q q f) l -> kept (forallb q) (forallb q) (mapAccum f) l.
Proof.
  induction 1 as [|x l Hx _ IH]; intros b l' b'; simpl.
  - now intros [= <- <-].
  - destruct (f x b) as [x1 b1] eqn:E1.
    destruct (mapAccum f l b1) as [l1 b2] eqn:E2.
    intros [= <- <-] Hq. apply andb_true_iff in Hq as [H1 H2]. simpl.
    now rewrite (Hx _ _ _ E1 H1), (IH _ _ _ E2 H2).
Qed.

Lemma flatMapAccum_kept {A} (f : A -> bool -> list A * bool) (q : A -> bool) l :
  Forall (kept q (forallb q) f) l ->
  kept (forallb q) (forallb q) (flatMapAccum f) l.
Proof.
  induction 1 as [|x l Hx _ IH]; intros b l' b'; simpl.
  - now intros [= <- <-].
  - destruct (f x b) as [x1 b1] eqn:E1.
    destruct (flatMapAccum f l b1) as [l1 b2] eqn:E2.
    intros [= <- <-] Hq. apply andb_true_iff in Hq as [H1 H2].
    rewrite forallb_app. now rewrite (Hx _ _ _ E1 H1), (IH _ _ _ E2 H2).
Qed.

Ltac open_pairs :=
  repeat match goal with
         | |- context [let '(_, _) := ?c in _] =>
             let E := fresh "E" in destruct c as [? ?] eqn:E
         end.

Ltac use_kept :=
  repeat match goal with
         | H : kept _ _ ?f ?x, E : ?f ?x _ = _ |- _ =>
             apply H in E
         | H : Forall (kept _ _ ?f) ?l, E : mapAccum ?f ?l _ = _ |- _ =>
             apply (mapAccum_kept f _ l H) in E
         | H : Forall (kept _ _ ?f) ?l, E : flatMapAccum ?f ?l _ = _ |- _ =>
             apply (flatMapAccum_kept f _ l H) in E
         end.

Lemma reg_kept_all :
  (forall e, kept (allE yes ps pt) (allE yes ps pt) (regE rule) e) /\
  (forall p, kept (allP yes ps pt) (allP yes ps pt) (regP rule) p) /\
  (forall a, kept (allA yes ps pt) (allA yes ps pt) (regA rule) a) /\
  (forall b, kept (allB yes ps pt) (allB yes ps pt) (regB rule) b) /\
  (forall s, kept (allS yes ps pt) (forallb (allS yes ps pt)) (regS rule) s) /\
  (forall d, kept (allD yes ps pt) (allD yes ps pt) (regD rule) d).
Proof.
  apply ast_mutind; intros; use_options; use_lists;
    intros b0 x' b'; simpl.
  all: try (destruct b0;
            [intros [= <- <-] Hq; simpl; now rewrite Hq |];
            destruct (rule _) as [nodes|] eqn:Hrule;
            [intros [= <- <-] Hq;
             match goal with
             | Hr : rule ?s = Some ?n |- _ => now apply (rule_out s n Hq Hr)
             end |]).
  all: open_pairs; intros [= <- <-] Hq; simpl in Hq |- *; split_andb; use_kept.
  all: repeat match goal with
         | H : ?q = true -> _, H' : ?q = true |- _ => specialize (H H')
         end.
  all: rewrite ?ps_other by reflexivity.
  all: repeat match goal with
         | H : ?x = true |- context [?x] => rewrite H
         end; simpl; try reflexivity.
Qed.

Lemma register_kept p b :
  allNodes yes ps pt p = true ->
  allNodes yes ps pt (register rule p b).1 = true.
Proof.
  unfold register, allNodes. intros H.
  destruct (flatMapAccum (regS rule) p b) as [p' b'] eqn:E.
  apply (flatMapAccum_kept (regS rule) (allS yes ps pt) p) in E;
    [exact (E H) |].
  apply Forall_forall. intros s _. apply reg_kept_all.
Qed.

End RegisterKeeps.

Section PipelineKeeps.
Import Ast Transform Output.

Abbreviation yes := (fun _ => true).

Variables (ps : stmt -> bool) (pt : tsType -> bool).
Hypothesis ps_other : forall s, isImport s = false -> ps s = true.

Lemma emitHandler_keeps arg nodes :
  allE yes ps pt arg = true -> emitHandler arg = Some nodes ->
  forallb (allS yes ps pt) nodes = true.
Proof.
  destruct arg as [n| | | |params body a|params body a| | | | |];
    try discriminate; simpl; intros H [= <-]; simpl;
    rewrite ?ps_other by reflexivity; simpl; [reflexivity | |].
  - split_andb. destruct body as [e | b]; simpl in *;
      rewrite ?ps_other by reflexivity; simpl;
      repeat match goal with
             | H : ?x = true |- context [?x] => rewrite H
             end; reflexivity.
  - now rewrite H.
Qed.

Lemma findHandlerProp_keeps props v :
  forallb (allP yes ps pt) props = true -> findHandlerProp props = Some v ->
  allE yes ps pt v = true.
Proof.
  induction props as [|[k w] props IH]; [discriminate |].
  simpl. intros H. split_andb.
  destruct k; auto. destruct (String.eqb name "handler"); auto.
  now intros [= <-].
Qed.

Lemma denoHandlerArg_keeps args h :
  forallb (allE yes ps pt) args = true -> denoHandlerArg args = Some h ->
  allE yes ps pt h = true.
Proof.
  intros H. unfold denoHandlerArg.
  assert (Hpos : forall x,
             match args with
             | _ :: second :: _ => Some second
             | [first] => Some first
             | [] => None
             end = Some x -> allE yes ps pt x = true).
  { destruct args as [|a [|b rest]]; simpl in H; split_andb;
      intros x [= <-]; assumption. }
  destruct (match args with
            | _ :: second :: _ => Some second
            | [first] => Some first
            | [] => None
            end) as [x|]; [| discriminate].
  specialize (Hpos x eq_refl).
  destruct x as [| | | | | |props| | | |]; try (now intros [= <-]).
  destruct (findHandlerProp props) as [v|] eqn:E; intros [= <-]; [| assumption].
  apply (findHandlerProp_keeps props); [| assumption].
  simpl in Hpos. exact Hpos.
Qed.

Lemma serveRule_keeps s nodes :
  allS yes ps pt s = true -> serveRule s = Some nodes ->
  forallb (allS yes ps pt) nodes = true.
Proof.
  destruct s as [|e| | | | | |]; try discriminate.
  destruct e as [| | |c args| | | | | | |]; try discriminate.
  destruct c as [callee| | | | | | | | | |]; try discriminate.
  simpl. destruct (String.eqb callee "serve"); [| discriminate].
  destruct args as [|arg rest]; [discriminate |].
  simpl. intros H. split_andb. now apply emitHandler_keeps.
Qed.

Lemma denoServeRule_keeps s nodes :
  allS yes ps pt s = true -> denoServeRule s = Some nodes ->
  forallb (allS yes ps pt) nodes = true.
Proof.
  destruct s as [|e| | | | | |]; try discriminate.
  destruct e as [| | |c args| | | | | | |]; try discriminate.
  destruct c as [| |o p cc| | | | | | | |]; try discriminate.
  destruct o as [on| | | | | | | | | |]; try discriminate.
  destruct p as [pn| | | | | | | | | |]; try discriminate.
  simpl. destruct (String.eqb on "Deno" && String.eqb pn "serve");
    [| discriminate].
  destruct (denoHandlerArg args) as [h|] eqn:E; [| discriminate].
  intros H. split_andb. apply emitHandler_keeps.
  now apply (denoHandlerArg_keeps args).
Qed.

(** The two registration passes keep what holds of every import and of
    every type. *)
Lemma registration_keeps p :
  allNodes yes ps pt p = true ->
  allNodes yes ps pt (registration p).1 = true.
Proof.
  intros H. unfold registration.
  pose proof (register_kept serveRule ps pt ps_other serveRule_keeps p false H)
    as H1.
  destruct (register serveRule p false) as [p5 exported].
  apply (register_kept denoServeRule ps pt ps_other denoServeRule_keeps).
  exact H1.
Qed.

End PipelineKeeps.


(** ** What is left in the output of the pipeline *)

Section PipelineOutput.
Import Ast Transform Normal Output.

Abbreviation yes := (fun _ => true).

Lemma all_yes p : allNodes yes yes yes p = true.
Proof.
  unfold allNodes. apply forallb_forall. intros s _. apply all_yes_all.
Qed.

Lemma typeFree_reference n l1 l2 :
  typeFree (TSTypeReference n l1) = typeFree (TSTypeReference n l2).
Proof. destruct n as [|l r]; [reflexivity |]. now destruct l. Qed.

(** The walks after the registration passes that leave types alone. *)
Lemma relativeRule_keeps ps pt p :
  (forall s, isImport s = false -> ps s = true) ->
  (forall specs source,
      ps (ImportDeclaration specs source) = true ->
      ps (ImportDeclaration specs (Specifier.rewriteRelativeSource source)) = true) ->
  (forall n l1 l2, pt (TSTypeReference n l1) = pt (TSTypeReference n l2)) ->
  (forall k l1 l2, pt (TSOtherType k l1) = pt (TSOtherType k l2)) ->
  allNodes yes ps pt p = true ->
  allNodes yes ps pt (walk noE relativeImportRule noT p) = true.
Proof.
  intros Hother Hrel Hr Ho.
  apply (walk_keeps_nodes noE relativeImportRule noT ps ps pt pt);
    try assumption; try discriminate.
  - intros s nodes H. destruct s; try discriminate.
    intros [= <-]. simpl in *. split_andb.
    rewrite Hrel by assumption. reflexivity.
  - intros s Hi. destruct s; discriminate.
  - trivial.
Qed.

Lemma dynamicRule_keeps ps pt p :
  (forall s, isImport s = false -> ps s = true) ->
  (forall n l1 l2, pt (TSTypeReference n l1) = pt (TSTypeReference n l2)) ->
  (forall k l1 l2, pt (TSOtherType k l1) = pt (TSOtherType k l2)) ->
  allNodes yes ps pt p = true ->
  allNodes yes ps pt (walk dynamicImportRule noS noT p) = true.
Proof.
  intros Hother Hr Ho.
  apply (walk_keeps_nodes dynamicImportRule noS noT ps ps pt pt);
    try assumption; try discriminate; trivial.
  intros e e' _. destruct e; try discriminate.
  destruct e; try discriminate. simpl.
  destruct (Specifier.rewriteDynamicImport value); [| discriminate].
  now intros [= <-].
Qed.

Lemma typeRule_keeps ps p :
  (forall s, isImport s = false -> ps s = true) ->
  allNodes yes ps yes p = true ->
  allNodes yes ps yes (walk noE noS denoTypeRule p) = true.
Proof.
  intros Hother.
  apply (walk_keeps_nodes noE noS denoTypeRule ps ps yes yes);
    try assumption; try discriminate; trivial.
  intros t t' _ _. apply allT_yes.
Qed.

(** From the tree after rule 7 to the output. *)
Lemma tail_keeps ps pt p :
  (forall s, isImport s = false -> ps s = true) ->
  (forall n l1 l2, pt (TSTypeReference n l1) = pt (TSTypeReference n l2)) ->
  (forall k l1 l2, pt (TSOtherType k l1) = pt (TSOtherType k l2)) ->
  allNodes yes ps pt p = true ->
  allNodes yes ps pt
    (asyncWalk false true
       (asyncWalk true false (walk dynamicImportRule noS noT p))) = true.
Proof.
  intros Hother Hr Ho H.
  do 2 (apply asyncWalk_keeps; [assumption |]).
  now apply dynamicRule_keeps.
Qed.

(** *** Types of the [Deno] namespace *)

Lemma typeRule_done p : noDenoTypes (walk noE noS denoTypeRule p) = true.
Proof.
  unfold noDenoTypes.
  apply (walk_keeps_nodes noE noS denoTypeRule yes yes yes typeFree);
    try discriminate; trivial.
  - intros t t' _. destruct t as [n l | k l]; [| discriminate].
    destruct n as [|l0 r]; [discriminate |]. destruct l0; [| discriminate].
    simpl. destruct (String.eqb name "Deno"); [| discriminate].
    now intros [= <-].
  - intros t E _. unfold typeFree. now rewrite E.
  - apply all_yes.
Qed.

Lemma transform_noDenoTypes p : noDenoTypes (transform p) = true.
Proof.
  unfold transform, afterRegistration, noDenoTypes.
  apply tail_keeps; trivial.
  apply relativeRule_keeps; trivial.
  apply typeRule_done.
Qed.

(** *** Relative imports *)

Lemma relativeRule_done p :
  noRelativeTs (walk noE relativeImportRule noT p) = true.
Proof.
  unfold noRelativeTs.
  apply (walk_keeps_nodes noE relativeImportRule noT yes
           (fun s => negb (relativeTs s)) yes yes);
    try discriminate; trivial.
  - intros s nodes _. destruct s; try discriminate.
    intros [= <-]. cbn [forallb allS relativeTs]. now rewrite relative_done.
  - intros s Hi. now destruct s.
  - intros s Hi. destruct s; discriminate.
  - apply all_yes.
Qed.

Lemma transform_noRelativeTs p : noRelativeTs (transform p) = true.
Proof.
  unfold transform, afterRegistration, noRelativeTs.
  apply tail_keeps; trivial; [intros s Hi; now destruct s |].
  apply relativeRule_done.
Qed.

(** *** The [serve] import *)

Lemma forallb_filter {A} (q : A -> bool) l : forallb q (List.filter q l) = true.
Proof.
  induction l as [|x l IH]; [reflexivity |]. simpl.
  destruct (q x) eqn:E; [simpl; now rewrite E |]. exact IH.
Qed.

Lemma serveImportRule_done p :
  noServeImport (walk noE serveImportRule noT p) = true.
Proof.
  unfold noServeImport.
  apply (walk_keeps_nodes noE serveImportRule noT yes
           (fun s => negb (servesImport s)) yes yes);
    try discriminate; trivial.
  - intros s nodes _. destruct s; try discriminate. unfold serveImportRule.
    destruct (existsb (fun x => Js.includes source x) serveImportSources)
      eqn:Hex.
    + destruct (List.filter keepSpecifier specifiers) as [|i l] eqn:Hf;
        intros [= <-]; [reflexivity |].
      assert (Hk : forallb keepSpecifier (i :: l) = true)
        by (rewrite <- Hf; apply forallb_filter).
      cbn [forallb allS servesImport] in *. now rewrite Hex, Hk.
    + intros [= <-]. cbn [forallb allS servesImport]. now rewrite Hex.
  - intros s Hi. now destruct s.
  - intros s Hi. destruct s; try discriminate. unfold serveImportRule.
    destruct (existsb (fun x => Js.includes source x) serveImportSources);
      [| discriminate].
    destruct (List.filter keepSpecifier specifiers); discriminate.
  - apply all_yes.
Qed.

Lemma serve_source_relative source :
  existsb (fun x => Js.includes (Specifier.rewriteRelativeSource source) x)
          serveImportSources = true ->
  existsb (fun x => Js.includes source x) serveImportSources = true.
Proof.
  unfold serveImportSources. cbn [existsb]. rewrite !orb_true_iff.
  intros [H | [H | [H | [H | H]]]]; [| | | | discriminate H].
  all: apply relative_includes in H; try reflexivity; try discriminate; tauto.
Qed.

Lemma servesImport_relative specs source :
  negb (servesImport (ImportDeclaration specs source)) = true ->
  negb (servesImport
          (ImportDeclaration specs (Specifier.rewriteRelativeSource source)))
  = true.
Proof.
  cbn [servesImport]. intros H. apply negb_true_iff in H.
  apply negb_true_iff, andb_false_iff.
  apply andb_false_iff in H as [H | H]; [left | now right].
  destruct (existsb
              (fun x => Js.includes (Specifier.rewriteRelativeSource source) x)
              serveImportSources) eqn:E; [| reflexivity].
  apply serve_source_relative in E. congruence.
Qed.

Lemma transform_noServeImport p : noServeImport (transform p) = true.
Proof.
  assert (Hother : forall s, isImport s = false -> negb (servesImport s) = true)
    by (intros s Hi; now destruct s).
  unfold transform, afterRegistration, noServeImport.
  apply tail_keeps; trivial.
  apply relativeRule_keeps; trivial; [apply servesImport_relative |].
  apply typeRule_keeps; [exact Hother |].
  apply registration_keeps; [exact Hother |].
  unfold beforeRegistration. apply serveImportRule_done.
Qed.

End PipelineOutput.

(** X12.  Rule 7 turns every relative specifier that ends in [.ts] into
    the same specifier ending in [.js] and leaves every other specifier
    as it is ([.tsx] included); and in the output of the whole pipeline no
    import at any depth has a relative specifier that ends in [.ts]. *)
Theorem X12_relative_imports_become_js :
  (forall base,
      Specifier.rewriteRelativeSource ("." +:+ base +:+ ".ts")
      = "." +:+ base +:+ ".js")
  /\ (forall source,
        Js.startsWith source "." && Js.endsWith source ".ts" = false ->
        Specifier.rewriteRelativeSource source = source)
  /\ (forall p, Output.noRelativeTs (Transform.transform p) = true).
Proof.
  split; [apply relative_ts | split].
  - apply relative_other.
  - apply transform_noRelativeTs.
Qed.


(** X16.  In the output of the pipeline no import from one of the
    [serve] modules lists [serve], and none is left without specifiers:
    rule 4 drops the specifier, and the import with it when nothing else
    was imported, and no later rule brings either back. *)
Theorem X16_no_serve_import_left (p : Ast.program) :
  Output.noServeImport (Transform.transform p) = true.
Proof. apply transform_noServeImport. Qed.

(* ===================================================================== *)
(** ** Rule 11 leaves no handler to mark *)
(* ===================================================================== *)

Section AsyncAwaits.
Import Ast Transform Normal.
Variables (decls vars : bool).

Lemma markInit_awaits id e e' :
  awaitsE (markInit vars id e e') = awaitsE e'.
Proof.
  unfold markInit. destruct (vars && isHandlerId id); [| reflexivity].
  destruct e as [| | | |? ? [|]|? ? [|]| | | | |]; try reflexivity;
    destruct e'; reflexivity.
Qed.

Lemma async_awaits_all :
  (forall e, awaitsE (asyncE decls vars e) = awaitsE e) /\
  (forall p, awaitsP (asyncP decls vars p) = awaitsP p) /\
  (forall a, awaitsA (asyncA decls vars a) = awaitsA a) /\
  (forall b, awaitsB (asyncB decls vars b) = awaitsB b) /\
  (forall s, awaitsS (asyncS decls vars s) = awaitsS s) /\
  (forall d, awaitsD (asyncD decls vars d) = awaitsD d).
Proof.
  apply ast_mutind; intros; use_options; use_lists; simpl;
    rewrite ?markInit_awaits;
    repeat match goal with
           | H : Forall _ ?l |- context [map _ (map _ ?l)] =>
               rewrite (sum_map_eq _ _ l H); clear H
           end;
    congruence.
Qed.

Lemma hasAwait_async b : hasAwait (asyncB decls vars b) = hasAwait b.
Proof. unfold hasAwait. now rewrite (proj1 (proj2 (proj2 (proj2 async_awaits_all)))). Qed.

Lemma hasAwaitBelow_async a :
  hasAwaitBelow (asyncA decls vars a) = hasAwaitBelow a.
Proof.
  destruct a as [e | b]; [| apply hasAwait_async].
  destruct e;
    match goal with
    | |- hasAwaitBelow (asyncA _ _ (ExpressionBody ?e0)) = _ =>
        pose proof (proj1 async_awaits_all e0) as E
    end;
    simpl in *;
    first [ reflexivity | now rewrite E | injection E as E; now rewrite E ].
Qed.

Lemma needsAsync_async e : needsAsync (asyncE decls vars e) = needsAsync e.
Proof.
  destruct e as [| | | |? ? [|]|? ? [|]| | | | |]; try reflexivity;
    cbn [asyncE needsAsync];
    [apply hasAwaitBelow_async | apply hasAwait_async].
Qed.

(** A declarator after the pass: nothing is left to mark when the pass
    looks at declarators, and nothing new appears when it does not. *)
Lemma declFree_async d :
  (vars = true \/ declFree d = true) -> declFree (asyncD decls vars d) = true.
Proof.
  destruct d as [id [e |]]; [| reflexivity].
  change (asyncD decls vars (VariableDeclarator id (Some e)))
    with (VariableDeclarator id (Some (markInit vars id e (asyncE decls vars e)))).
  unfold declFree, markInit.
  destruct (isHandlerId id); [| now rewrite andb_false_r].
  rewrite andb_true_r, !andb_true_l.
  pose proof hasAwaitBelow_async as HB. pose proof hasAwait_async as HA.
  pose proof needsAsync_async as HN.
  destruct vars.
  - intros _.
    destruct e as [| | | |? body [|]|? body [|]| | | | |]; try reflexivity.
    + change (needsAsync _) with
        (if hasAwaitBelow body then false
         else hasAwaitBelow (asyncA decls true body)).
      rewrite HB. now destruct (hasAwaitBelow body).
    + change (needsAsync _) with
        (if hasAwait body then false else hasAwait (asyncB decls true body)).
      rewrite HA. now destruct (hasAwait body).
  - intros [H | H]; [discriminate H |]. now rewrite HN.
Qed.

End AsyncAwaits.

Section AsyncMarks.
Import Ast Transform Normal Output.

Abbreviation yes := (fun _ => true).

Variables (decls vars : bool).
Variables (needD needV : bool).

Lemma asyncOk_async s :
  asyncOk needD needV s = true ->
  asyncOk (needD || decls) (needV || vars) (asyncS decls vars s) = true.
Proof.
  destruct s as [| | |id ps' body a|[e |]|k ds| |]; try reflexivity.
  - (* FunctionDeclaration *)
    change (asyncS decls vars (FunctionDeclaration id ps' body a))
      with (FunctionDeclaration id ps' (asyncB decls vars body)
              (if decls && String.eqb id "handler" && negb a
               then hasAwait body else a)).
    unfold asyncOk. rewrite hasAwait_async.
    destruct needD, decls, (String.eqb id "handler"), a, (hasAwait body);
      trivial.
  - (* VariableDeclaration *)
    change (asyncS decls vars (VariableDeclaration k ds))
      with (VariableDeclaration k (map (asyncD decls vars) ds)).
    unfold asyncOk. intros H.
    destruct (negb (needV || vars)) eqn:E; [reflexivity |].
    rewrite orb_false_l.
    apply forallb_forall. intros d' Hin.
    apply in_map_iff in Hin as (d & <- & Hin). apply declFree_async.
    destruct vars; [now left | right].
    rewrite orb_false_r in E. apply negb_false_iff in E. rewrite E in H.
    apply (proj1 (forallb_forall _ _) H), Hin.
Qed.

Lemma markInit_marks ps id e e' :
  allE yes ps yes e' = true -> allE yes ps yes (markInit vars id e e') = true.
Proof.
  intros H. unfold markInit. destruct (vars && isHandlerId id); [| exact H].
  destruct e as [| | | |? ? [|]|? ? [|]| | | | |]; try exact H;
    destruct e'; try exact H; simpl in *; exact H.
Qed.

Abbreviation before := (asyncOk needD needV).
Abbreviation after := (asyncOk (needD || decls) (needV || vars)).

Lemma async_marks_all :
  (forall e, allE yes before yes e = true ->
             allE yes after yes (asyncE decls vars e) = true) /\
  (forall p, allP yes before yes p = true ->
             allP yes after yes (asyncP decls vars p) = true) /\
  (forall a, allA yes before yes a = true ->
             allA yes after yes (asyncA decls vars a) = true) /\
  (forall b, allB yes before yes b = true ->
             allB yes after yes (asyncB decls vars b) = true) /\
  (forall s, allS yes before yes s = true ->
             allS yes after yes (asyncS decls vars s) = true) /\
  (forall d, allD yes before yes d = true ->
             allD yes after yes (asyncD decls vars d) = true).
Proof.
  apply ast_mutind; intros; use_options; use_lists.
  all: try match goal with
       | H : allS _ _ _ ?s = true |- allS _ _ _ (asyncS _ _ ?s) = true =>
           assert (Hok : after (asyncS decls vars s) = true)
             by (apply asyncOk_async; simpl in H;
                 apply andb_true_iff in H as [H _]; exact H)
       end.
  all: simpl in *; split_andb.
  all: repeat match goal with
         | H : true = true |- _ => clear H
         end.
  all: repeat match goal with
         | H : ?q = true -> _, H' : ?q = true |- _ => specialize (H H')
         end.
  all: rewrite ?markInit_marks by assumption.
  all: repeat match goal with
         | H : Forall _ ?l |- context [forallb _ (map _ ?l)] =>
             erewrite (forallb_map2 _ _ _ l H) by assumption
         end.
  all: repeat match goal with
         | H : ?x = true |- context [?x] => rewrite H
         end; simpl; try reflexivity.
Qed.

Lemma asyncWalk_marks p :
  allNodes yes before yes p = true ->
  allNodes yes after yes (asyncWalk decls vars p) = true.
Proof.
  unfold allNodes, asyncWalk. apply forallb_map2, Forall_forall.
  intros s _. apply async_marks_all.
Qed.

End AsyncMarks.

Section HandlersAsync.
Import Ast Transform Normal Output.

Abbreviation yes := (fun _ => true).

Lemma asked_nothing_all :
  (forall e, allE yes (asyncOk false false) yes e = true) /\
  (forall p, allP yes (asyncOk false false) yes p = true) /\
  (forall a, allA yes (asyncOk false false) yes a = true) /\
  (forall b, allB yes (asyncOk false false) yes b = true) /\
  (forall s, allS yes (asyncOk false false) yes s = true) /\
  (forall d, allD yes (asyncOk false false) yes d = true).
Proof.
  apply ast_mutind; intros; use_options; use_lists; simpl;
    rewrite ?allPats_yes, ?allPat_yes;
    repeat match goal with
           | H : Forall _ ?l |- context [forallb _ ?l] =>
               rewrite (proj2 (forallb_forall _ l))
                 by (intros x Hx; apply (proj1 (Forall_forall _ _) H);
                     now apply list_elem_of_In); clear H
           | H : ?x = true |- context [?x] => rewrite H
           end; reflexivity.
Qed.

Lemma asyncPasses_done p :
  handlersAsync (asyncWalk false true (asyncWalk true false p)) = true.
Proof.
  unfold handlersAsync.
  change asyncFree with (asyncOk ((false || true) || false)
                                 ((false || false) || true)).
  apply asyncWalk_marks, asyncWalk_marks.
  unfold allNodes. apply forallb_forall. intros s _. apply asked_nothing_all.
Qed.

Lemma transform_handlersAsync p : handlersAsync (transform p) = true.
Proof. unfold transform, afterRegistration. apply asyncPasses_done. Qed.

End HandlersAsync.

(** X15.  In the output of the pipeline rule 11 has nothing left to do,
    at any depth: a function declared as [handler] whose body holds an
    [await] is [async], and so is an arrow function or function
    expression with an [await] below its body that initialises a variable
    named [handler]. *)
Theorem X15_handlers_with_await_are_async (p : Ast.program) :
  Output.handlersAsync (Transform.transform p) = true.
Proof. apply transform_handlersAsync. Qed.

(* ===================================================================== *)
(** ** The Supabase client import *)
(* ===================================================================== *)

Section SupabaseImport.
Import Ast Supabase.

Lemma hasImport_added p : hasImport (importDecl :: p) = true.
Proof.
  unfold hasImport, allNodes. cbn [forallb].
  assert (E : allS (fun _ => true) (fun s => negb (isClientImport s))
                   (fun _ => true) importDecl = false) by now vm_compute.
  now rewrite E.
Qed.

Lemma hasCreateClient_added p :
  hasCreateClient (importDecl :: p) = hasCreateClient p.
Proof.
  unfold hasCreateClient, allNodes. cbn [forallb].
  assert (E : allS (fun e => negb (isCreateClientCall e)) (fun _ => true)
                   (fun _ => true) importDecl = true) by now vm_compute.
  now rewrite E.
Qed.

Lemma supabase_imports p :
  hasCreateClient p = true -> hasImport (supabaseTransform p) = true.
Proof.
  unfold supabaseTransform. intros ->.
  destruct (hasImport p) eqn:E; cbn [negb]; [exact E | apply hasImport_added].
Qed.

Lemma supabase_idempotent p :
  supabaseTransform (supabaseTransform p) = supabaseTransform p.
Proof.
  unfold supabaseTransform at 2 3.
  destruct (hasCreateClient p) eqn:Hc; [| unfold supabaseTransform; now rewrite Hc].
  destruct (hasImport p) eqn:Hi; cbn [negb];
    unfold supabaseTransform.
  - now rewrite Hc, Hi.
  - now rewrite hasCreateClient_added, Hc, hasImport_added.
Qed.

Lemma supabase_unchanged p :
  hasCreateClient p = false \/ hasImport p = true -> supabaseTransform p = p.
Proof.
  unfold supabaseTransform. intros [-> | ->]; [reflexivity |].
  now destruct (hasCreateClient p).
Qed.

End SupabaseImport.

(** X17.  The second transform is idempotent; when the program calls
    [createClient] at any depth, its output holds an import whose source
    includes [@supabase/supabase-js] (the import it puts in front when
    there was none); and a program without such a call, or with such an
    import already, comes back as it was. *)
Theorem X17_supabase_import_added_once :
  (forall p, Supabase.supabaseTransform (Supabase.supabaseTransform p)
             = Supabase.supabaseTransform p)
  /\ (forall p, Supabase.hasCreateClient p = true ->
                Supabase.hasImport (Supabase.supabaseTransform p) = true)
  /\ (forall p, Supabase.hasCreateClient p = true ->
                Supabase.hasImport p = false ->
                Supabase.supabaseTransform p = Supabase.importDecl :: p)
  /\ (forall p, Supabase.hasCreateClient p = false \/ Supabase.hasImport p = true ->
                Supabase.supabaseTransform p = p).
Proof.
  split; [apply supabase_idempotent | split; [apply supabase_imports | split]].
  - intros p Hc Hi. unfold Supabase.supabaseTransform. now rewrite Hc, Hi.
  - apply supabase_unchanged.
Qed.

Lemma X17_supabase_import_added_once_witness :
  Supabase.hasCreateClient
    [Ast.ExpressionStatement
       (Ast.CallExpression (Ast.Identifier "createClient") [])] = true
  /\ Supabase.supabaseTransform
       [Ast.ExpressionStatement
          (Ast.CallExpression (Ast.Identifier "createClient") [])]
     = [Supabase.importDecl;
        Ast.ExpressionStatement
          (Ast.CallExpression (Ast.Identifier "createClient") [])]
  /\ Supabase.hasImport
       (Supabase.supabaseTransform
          [Ast.ExpressionStatement
             (Ast.CallExpression (Ast.Identifier "createClient") [])]) = true.
Proof.
  split; [reflexivity | split].
  - apply (proj1 (proj2 (proj2 X17_supabase_import_added_once)));
      reflexivity.
  - apply (proj1 (proj2 X17_supabase_import_added_once)). reflexivity.
Defined.
